(** * A private blockchain of star registrations

    Shallow embedding of [src/Block.ts], [src/Message.ts],
    [src/InvalidChainError.ts] and [src/Blockchain.ts], followed by the
    properties of the ledger that the specification states.

    Conventions of the embedding.
    - A JavaScript string is a [string] whose characters are its UTF-16 code
      units; the model covers code units up to U+00FF.
    - A JavaScript number that the ledger computes (heights, clock readings)
      is an integer, carried as [Z]; a number read from outside is a
      [number], which adds [NaN].
    - [string | null] is [option string].
    - A payload ([BlockData], [Star]) is a JSON value.
    - A [Block] object is referred to by its position in the chain array:
      every Block is created by [new Block] inside the operation that pushes
      it, so the array never holds the same object twice. A method that
      changes a block in place returns the ledger with that position
      updated.
    - [async] methods are first run to completion one after the other: a
      method answers with the ledger it leaves and a [result], the value
      its promise resolves with or the error it rejects with. The part
      on calls that overlap then splits [submitStar] into its stretches
      between [await]s and lets the event loop interleave the stretches
      of two calls.
    - The loop of [validateChain] has no bound of its own; the model gives
      it fuel and answers [None] when the fuel runs out.
    - [crypto-js/sha256] and [bitcoinjs-message] are parameters
      ([Externals]); [JSON], [Buffer] and the [hex2ascii] package are
      modelled in modules [JS] and [JSON]. *)

From Stdlib Require Import ZArith NArith Ascii String List Bool Lia.
From Stdlib Require Import DecimalString DecimalN DecimalPos DecimalFacts.
From stdpp Require Import base option list strings.

Local Open Scope Z_scope.

(** ** JavaScript primitives used by the sources *)

Module JS.

Definition code (c : ascii) : N := N_of_ascii c.
Definition chr (n : N) : ascii := ascii_of_N n.

Definition dquote : ascii := chr 34.
Definition backslash : ascii := chr 92.

Definition is_digit (c : ascii) : bool :=
  ((48 <=? code c) && (code c <=? 57))%N.

(** [Number.prototype.toString] on an integer. *)
Definition show_N (n : N) : string :=
  NilEmpty.string_of_uint (N.to_uint n).

Definition show_Z (z : Z) : string :=
  match z with
  | Z0 => "0"
  | Zpos p => show_N (Npos p)
  | Zneg p => String "-" (show_N (Npos p))
  end.

(** The longest prefix of decimal digits, and what follows it. *)
Fixpoint take_digits (s : string) : string * string :=
  match s with
  | String c s' =>
      if is_digit c
      then let '(ds, r) := take_digits s' in (String c ds, r)
      else (EmptyString, s)
  | EmptyString => (EmptyString, EmptyString)
  end.

Definition digits_to_N (ds : string) : option N :=
  match ds with
  | EmptyString => None
  | _ => N.of_uint <$> NilEmpty.uint_of_string ds
  end.

(** Numbers that arrive from outside: [NaN] or an integer. *)
Inductive number := NaN | Num (z : Z).

(** Unary [+] on a string holding an optionally signed decimal integer;
    the empty string is [0], as in JavaScript, and anything else is [NaN]
    (fractions, exponents, [Infinity], hexadecimal and padded numerals are
    not modelled). *)
Definition to_number (s : string) : number :=
  match s with
  | EmptyString => Num 0
  | String c s' =>
      let '(sign, body) :=
        if Ascii.eqb c "-" then (-1, s')
        else if Ascii.eqb c "+" then (1, s')
        else (1, s) in
      match take_digits body with
      | (ds, EmptyString) =>
          match digits_to_N ds with
          | Some n => Num (sign * Z.of_N n)
          | None => NaN
          end
      | _ => NaN
      end
  end.

(** [a - b > c] on numbers: any comparison with [NaN] is false. *)
Definition minus_gt (a : Z) (b : number) (c : Z) : bool :=
  match b with
  | NaN => false
  | Num t => c <? a - t
  end.

(** [String.prototype.split(':')]. *)
Fixpoint split_colon (s : string) : list string :=
  match s with
  | EmptyString => [EmptyString]
  | String c s' =>
      if Ascii.eqb c ":" then EmptyString :: split_colon s'
      else match split_colon s' with
           | x :: l => String c x :: l
           | [] => [String c EmptyString]
           end
  end.

(** Truthiness of a [string | null]: [null] and the empty string are
    falsy. *)
Definition truthy (o : option string) : bool :=
  match o with
  | Some (String _ _) => true
  | _ => false
  end.

(** *** Hexadecimal and UTF-8 *)

Definition hex_digit (n : N) : ascii :=
  if (n <? 10)%N then chr (48 + n) else chr (87 + n).

Definition hex_value (c : ascii) : option N :=
  let n := code c in
  if ((48 <=? n) && (n <=? 57))%N then Some (n - 48)%N
  else if ((97 <=? n) && (n <=? 102))%N then Some (n - 87)%N
  else if ((65 <=? n) && (n <=? 70))%N then Some (n - 55)%N
  else None.

Definition hex_byte (n : N) : string :=
  String (hex_digit (n / 16)) (String (hex_digit (n mod 16)) EmptyString).

(** UTF-8 bytes of one code unit below U+0100. *)
Definition utf8_char (c : ascii) : list N :=
  let n := code c in
  if (n <? 128)%N then [n]
  else [N.lor 192 (N.shiftr n 6); N.lor 128 (N.land n 63)].

(** [Buffer.from(s)]: the UTF-8 bytes of [s]. *)
Fixpoint utf8 (s : string) : list N :=
  match s with
  | EmptyString => []
  | String c s' => utf8_char c ++ utf8 s'
  end.

(** [buffer.toString("hex")]. *)
Fixpoint to_hex (bytes : list N) : string :=
  match bytes with
  | [] => EmptyString
  | b :: bs => hex_byte b +:+ to_hex bs
  end.

(** ASCII other than NUL. *)
Definition is_text (c : ascii) : bool :=
  ((0 <? code c) && (code c <? 128))%N.

Definition is_space (c : ascii) : bool :=
  let n := code c in
  ((9 <=? n) && (n <=? 13) || (n =? 32) || (n =? 160))%N.

Fixpoint strip_spaces (s : string) : string :=
  match s with
  | EmptyString => EmptyString
  | String c s' =>
      if is_space c then strip_spaces s' else String c (strip_spaces s')
  end.

(** [parseInt(pair, 16)] on a string of at most two characters: the value
    of its longest prefix of hexadecimal digits, [None] for [NaN]. A pair
    that starts with a sign is not modelled and counts as [NaN]. *)
Definition parse_hex_pair (a : ascii) (b : option ascii) : option N :=
  match hex_value a with
  | None => None
  | Some x =>
      match b with
      | Some b' =>
          match hex_value b' with
          | Some y => Some (16 * x + y)%N
          | None => Some x
          end
      | None => Some x
      end
  end.

Definition push_code (o : option N) (s : string) : string :=
  match o with
  | Some n => if (n =? 0)%N then s else String (chr n) s
  | None => s
  end.

Fixpoint hex_pairs (s : string) : string :=
  match s with
  | EmptyString => EmptyString
  | String a EmptyString => push_code (parse_hex_pair a None) EmptyString
  | String a (String b s') =>
      push_code (parse_hex_pair a (Some b)) (hex_pairs s')
  end.

(** The [hex2ascii] package (npm, not part of the repository): white space
    is removed, then every pair of characters is read as a hexadecimal
    character code and turned into the character with that code by
    [String.fromCharCode]; a pair that is not a number, or is zero,
    contributes nothing. One byte gives one character: the bytes are not
    decoded as UTF-8. *)
Definition hex2ascii (s : string) : string := hex_pairs (strip_spaces s).

End JS.

(** ** JSON values, [JSON.stringify] and [JSON.parse] *)

Module JSON.
Import JS.

(** The values that a block body or a block serialization can hold.
    An object lists its properties in the engine's enumeration order and
    names no property twice; numbers are the integers. *)
Unset Elimination Schemes.
Inductive json :=
| JNull
| JBool (b : bool)
| JNum (z : Z)
| JStr (s : string)
| JArr (l : list json)
| JObj (m : list (string * json)).
Set Elimination Schemes.

(** *** Serialization *)

Definition u_escape (n : N) : string :=
  String backslash (String "u" (String "0" (String "0" (hex_byte n)))).

Definition escape_char (c : ascii) : string :=
  let n := code c in
  if (n =? 34)%N then String backslash (String dquote EmptyString)
  else if (n =? 92)%N then String backslash (String backslash EmptyString)
  else if (n =? 8)%N then String backslash "b"
  else if (n =? 12)%N then String backslash "f"
  else if (n =? 10)%N then String backslash "n"
  else if (n =? 13)%N then String backslash "r"
  else if (n =? 9)%N then String backslash "t"
  else if (n <? 32)%N then u_escape n
  else String c EmptyString.

Fixpoint escape (s : string) : string :=
  match s with
  | EmptyString => EmptyString
  | String c s' => escape_char c +:+ escape s'
  end.

(** [QuoteJSONString]. *)
Definition quote (s : string) : string :=
  String dquote (escape s +:+ String dquote EmptyString).

(** [Array.prototype.join(",")]. *)
Fixpoint join_comma (parts : list string) : string :=
  match parts with
  | [] => EmptyString
  | [p] => p
  | p :: ps => p +:+ String "," (join_comma ps)
  end.

Fixpoint stringify (v : json) : string :=
  match v with
  | JNull => "null"
  | JBool true => "true"
  | JBool false => "false"
  | JNum z => show_Z z
  | JStr s => quote s
  | JArr l => String "[" (join_comma (map stringify l) +:+ "]")
  | JObj m =>
      let member kv := quote (fst kv) +:+ String ":" (stringify (snd kv)) in
      String "{" (join_comma (map member m) +:+ "}")
  end.

(** The representation invariant of objects: no property is named twice. *)
Fixpoint well_formed (v : json) : bool :=
  match v with
  | JArr l => forallb well_formed l
  | JObj m =>
      bool_decide (NoDup (map fst m))
      && forallb (fun kv => well_formed (snd kv)) m
  | _ => true
  end.

(** Every code unit of [s] satisfies [p]. *)
Fixpoint all_chars (p : ascii -> bool) (s : string) : bool :=
  match s with
  | EmptyString => true
  | String c s' => p c && all_chars p s'
  end.

Definition is_ascii (c : ascii) : bool := (code c <? 128)%N.

(** Every string in the value, property names included, is ASCII. *)
Fixpoint ascii_only (v : json) : bool :=
  match v with
  | JStr s => all_chars is_ascii s
  | JArr l => forallb ascii_only l
  | JObj m =>
      forallb (fun kv => all_chars is_ascii (fst kv) && ascii_only (snd kv)) m
  | _ => true
  end.

(** What may come right after a value inside a text: nothing, or one of
    [,], []] and [}]. *)
Definition follows_value (rest : string) : bool :=
  match rest with
  | EmptyString => true
  | String c _ => Ascii.eqb c "," || Ascii.eqb c "]" || Ascii.eqb c "}"
  end.

(** Number of parser calls that reading the value back takes. *)
Fixpoint size (v : json) : nat :=
  match v with
  | JArr l => S (list_sum (map (fun x => S (size x)) l))
  | JObj m => S (list_sum (map (fun kv => S (size (snd kv))) m))
  | _ => 1
  end.

(** *** Parsing *)

Definition is_ws (c : ascii) : bool :=
  let n := code c in
  ((n =? 32) || (n =? 9) || (n =? 10) || (n =? 13))%N.

Fixpoint skip_ws (s : string) : string :=
  match s with
  | String c s' => if is_ws c then skip_ws s' else s
  | EmptyString => s
  end.

Definition unescape (e : ascii) : option ascii :=
  let n := code e in
  if (n =? 34)%N then Some dquote
  else if (n =? 92)%N then Some backslash
  else if (n =? 47)%N then Some "/"%char
  else if (n =? 98)%N then Some (chr 8)
  else if (n =? 102)%N then Some (chr 12)
  else if (n =? 110)%N then Some (chr 10)
  else if (n =? 114)%N then Some (chr 13)
  else if (n =? 116)%N then Some (chr 9)
  else None.

Definition hex4 (a b c d : ascii) : option N :=
  x ← hex_value a; y ← hex_value b; z ← hex_value c; w ← hex_value d;
  Some (4096 * x + 256 * y + 16 * z + w)%N.

(** The characters of a string literal after its opening quote, up to the
    closing quote. An escape for a code unit above U+00FF is outside the
    model and is refused. *)
Fixpoint parse_chars (s : string) : option (string * string) :=
  match s with
  | EmptyString => None
  | String c s' =>
      if (code c =? 34)%N then Some (EmptyString, s')
      else if (code c =? 92)%N then
        match s' with
        | String e s'' =>
            if (code e =? 117)%N then
              match s'' with
              | String h1 (String h2 (String h3 (String h4 r))) =>
                  n ← hex4 h1 h2 h3 h4;
                  if (n <? 256)%N
                  then '(str, rest) ← parse_chars r;
                       Some (String (chr n) str, rest)
                  else None
              | _ => None
              end
            else
              c' ← unescape e;
              '(str, rest) ← parse_chars s'';
              Some (String c' str, rest)
        | EmptyString => None
        end
      else if (code c <? 32)%N then None
      else '(str, rest) ← parse_chars s'; Some (String c str, rest)
  end.

(** An integer numeral: [-]? then [0] or a digit sequence without leading
    zero. A fraction or an exponent is refused. *)
Definition parse_number (s : string) : option (json * string) :=
  let '(neg, s1) :=
    match s with
    | String c s' => if Ascii.eqb c "-" then (true, s') else (false, s)
    | EmptyString => (false, s)
    end in
  let '(ds, rest) := take_digits s1 in
  let lead_ok :=
    match ds with
    | String c (String _ _) => negb (Ascii.eqb c "0")
    | _ => true
    end in
  let follow_ok :=
    match rest with
    | String c _ =>
        negb (Ascii.eqb c "." || Ascii.eqb c "e" || Ascii.eqb c "E")
    | EmptyString => true
    end in
  n ← digits_to_N ds;
  if lead_ok && follow_ok
  then Some (JNum (if neg : bool then - Z.of_N n else Z.of_N n), rest)
  else None.

Fixpoint drop_prefix (p s : string) : option string :=
  match p with
  | EmptyString => Some s
  | String a p' =>
      match s with
      | String b s' => if Ascii.eqb a b then drop_prefix p' s' else None
      | EmptyString => None
      end
  end.

(** Defining a property: a repeated name keeps its place and takes the
    later value. *)
Fixpoint obj_set (m : list (string * json)) (k : string) (v : json)
  : list (string * json) :=
  match m with
  | [] => [(k, v)]
  | (k', v') :: m' =>
      if String.eqb k' k then (k, v) :: m' else (k', v') :: obj_set m' k v
  end.

Fixpoint parse_value (fuel : nat) (s : string) {struct fuel}
  : option (json * string) :=
  match fuel with
  | O => None
  | S fuel =>
      match skip_ws s with
      | EmptyString => None
      | String c r =>
          if Ascii.eqb c "n" then r' ← drop_prefix "ull" r; Some (JNull, r')
          else if Ascii.eqb c "t" then
            r' ← drop_prefix "rue" r; Some (JBool true, r')
          else if Ascii.eqb c "f" then
            r' ← drop_prefix "alse" r; Some (JBool false, r')
          else if Ascii.eqb c dquote then
            '(str, r') ← parse_chars r; Some (JStr str, r')
          else if Ascii.eqb c "[" then
            match skip_ws r with
            | String c' r' =>
                if Ascii.eqb c' "]" then Some (JArr [], r')
                else '(l, r'') ← parse_elements fuel [] r; Some (JArr l, r'')
            | EmptyString => None
            end
          else if Ascii.eqb c "{" then
            match skip_ws r with
            | String c' r' =>
                if Ascii.eqb c' "}" then Some (JObj [], r')
                else '(m, r'') ← parse_members fuel [] r; Some (JObj m, r'')
            | EmptyString => None
            end
          else parse_number (String c r)
      end
  end
with parse_elements (fuel : nat) (acc : list json) (s : string)
       {struct fuel} : option (list json * string) :=
  match fuel with
  | O => None
  | S fuel =>
      '(v, r) ← parse_value fuel s;
      match skip_ws r with
      | String c r' =>
          if Ascii.eqb c "," then parse_elements fuel (acc ++ [v]) r'
          else if Ascii.eqb c "]" then Some (acc ++ [v], r')
          else None
      | EmptyString => None
      end
  end
with parse_members (fuel : nat) (acc : list (string * json)) (s : string)
       {struct fuel} : option (list (string * json) * string) :=
  match fuel with
  | O => None
  | S fuel =>
      match skip_ws s with
      | String q r0 =>
          if Ascii.eqb q dquote then
            '(k, r1) ← parse_chars r0;
            match skip_ws r1 with
            | String c1 r2 =>
                if Ascii.eqb c1 ":" then
                  '(v, r3) ← parse_value fuel r2;
                  match skip_ws r3 with
                  | String c r' =>
                      if Ascii.eqb c ","
                      then parse_members fuel (obj_set acc k v) r'
                      else if Ascii.eqb c "}"
                      then Some (obj_set acc k v, r')
                      else None
                  | EmptyString => None
                  end
                else None
            | EmptyString => None
            end
          else None
      | EmptyString => None
      end
  end.

(** [JSON.parse]: one value, then nothing but white space. [None] is a
    [SyntaxError]. Every call of the parser consumes a character within
    two steps, so the fuel below is never exhausted on a valid text. *)
Definition parse (s : string) : option json :=
  match parse_value (2 * String.length s + 2) s with
  | Some (v, r) =>
      match skip_ws r with
      | EmptyString => Some v
      | String _ _ => None
      end
  | None => None
  end.

(** The first character of a serialized value is none of white space,
    []] and [}]. *)
Definition plain_head (c : ascii) : Prop :=
  is_ws c = false /\ Ascii.eqb c "]" = false /\ Ascii.eqb c "}" = false.

(** The parser reads [v] back from its serialization, whatever follows
    it. *)
Definition reads_back (v : json) : Prop :=
  forall fuel rest,
    (size v <= fuel)%nat -> follows_value rest = true ->
    parse_value fuel (stringify v +:+ rest) = Some (v, rest).

End JSON.

(** ** External libraries *)

(** [crypto-js/sha256] followed by [toString()], and [verify] of
    [bitcoinjs-message] with its arguments in the order message, address,
    signature. Both are pure functions of their arguments. *)
Class Externals := {
  SHA256 : string -> string;
  verify : string -> string -> string -> bool
}.

(** What a promise settles with: a value or a thrown error. *)
Inductive exn :=
| Error (message : string)
| InvalidChainError (errors : list string)
| SyntaxError.

Inductive result (A : Type) :=
| Ok (a : A)
| Throw (e : exn).

Arguments Ok {A} a.
Arguments Throw {A} e.

(** ** Message.ts *)

Module Message.

Record BlockMessage := {
  address : string;
  time : JS.number
}.

Definition show_number (n : JS.number) : string :=
  match n with
  | JS.NaN => "NaN"
  | JS.Num z => JS.show_Z z
  end.

Definition toString (m : BlockMessage) : string :=
  address m +:+ ":" +:+ show_number (time m) +:+ ":starRegistry".

(** [parse] overwrites both fields of the message it is called on, so
    [new BlockMessage().parse(message)] is a function of [message]: the
    first two fields of [message.split(':')]; a missing second field is
    [undefined], which unary [+] turns into [NaN]. *)
Definition parse (message : string) : BlockMessage :=
  match JS.split_colon message with
  | a :: t :: _ => {| address := a; time := JS.to_number t |}
  | a :: [] => {| address := a; time := JS.NaN |}
  | [] => {| address := EmptyString; time := JS.NaN |}
  end.

End Message.

(** ** Block.ts *)

Record Block := {
  hash : option string;
  height : Z;
  body : string;
  time : Z;
  previousBlockHash : option string
}.

Definition set_hash (h : option string) (b : Block) : Block :=
  {| hash := h; height := height b; body := body b; time := time b;
     previousBlockHash := previousBlockHash b |}.

Definition set_height (n : Z) (b : Block) : Block :=
  {| hash := hash b; height := n; body := body b; time := time b;
     previousBlockHash := previousBlockHash b |}.

Definition set_body (s : string) (b : Block) : Block :=
  {| hash := hash b; height := height b; body := s; time := time b;
     previousBlockHash := previousBlockHash b |}.

Definition set_time (t : Z) (b : Block) : Block :=
  {| hash := hash b; height := height b; body := body b; time := t;
     previousBlockHash := previousBlockHash b |}.

Definition set_previousBlockHash (h : option string) (b : Block) : Block :=
  {| hash := hash b; height := height b; body := body b; time := time b;
     previousBlockHash := h |}.

(** [Buffer.from(JSON.stringify(data)).toString("hex")]. *)
Definition encode (data : JSON.json) : string :=
  JS.to_hex (JS.utf8 (JSON.stringify data)).

(** The constructor. *)
Definition new_Block (data : JSON.json) : Block :=
  {| hash := None; height := 0; body := encode data; time := 0;
     previousBlockHash := None |}.

Definition nullable (o : option string) : JSON.json :=
  match o with
  | Some s => JSON.JStr s
  | None => JSON.JNull
  end.

(** [const { hash, ...block } = this]: the own properties of the block
    other than [hash], in the order the constructor created them. *)
Definition rest_of_block (b : Block) : JSON.json :=
  JSON.JObj [ ("height", JSON.JNum (height b));
              ("body", JSON.JStr (body b));
              ("time", JSON.JNum (time b));
              ("previousBlockHash", nullable (previousBlockHash b)) ].

Section Block_methods.
Context `{Externals}.

Definition generateHash (b : Block) : Block :=
  let jsonString := JSON.stringify (rest_of_block b) in
  set_hash (Some (SHA256 jsonString)) b.

(** [validate]: the block after the call, and the answer. *)
Definition validate (b : Block) : Block * bool :=
  let currentHash := hash b in
  let b' := generateHash b in
  (b', bool_decide (currentHash = hash b')).

End Block_methods.

(** [getBData]: [null] for height [0], otherwise the parsed body; a body
    that does not parse throws. *)
Definition getBData (b : Block) : result JSON.json :=
  if height b =? 0 then Ok JSON.JNull
  else
    let decodedBody := JS.hex2ascii (body b) in
    match JSON.parse decodedBody with
    | Some v => Ok v
    | None => Throw SyntaxError
    end.

(** ** Blockchain.ts *)

(** [getTimeInSeconds()] reads the clock; its readings, in whole seconds,
    are arguments of the operations that take them. *)
Definition ValidTime (now : Z) (timeInSeconds : JS.number) : bool :=
  JS.minus_gt now timeInSeconds 300.

Record Blockchain := {
  _chain : list Block;
  _height : Z
}.

(** The fields as the class initializes them, before the constructor
    body runs. *)
Definition uninitialized : Blockchain := {| _chain := []; _height := -1 |}.

(** [Array.prototype.find] through the chain; the answer is the position
    of the block found together with its current value, [None] for
    [null]. *)
Definition getBlockByHash (h : option string) (bc : Blockchain)
  : option (nat * Block) :=
  list_find (fun block => hash block = h) (_chain bc).

Definition getBlockByHeight (n : Z) (bc : Blockchain) : option (nat * Block) :=
  list_find (fun block => height block = n) (_chain bc).

Definition getLatestBlock (bc : Blockchain) : option (nat * Block) :=
  getBlockByHeight (_height bc) bc.

Definition getChainHeight (bc : Blockchain) : Z := _height bc.

Definition show_nullable (o : option string) : string :=
  match o with
  | Some s => s
  | None => "null"
  end.

Definition invalid_message (b : Block) : string :=
  "Block " +:+ show_nullable (hash b) +:+ " is invalid!".

Section Blockchain_methods.
Context `{Externals}.

(** [currentBlock.validate()] on the block at position [i]: the object is
    updated in the chain. *)
Definition store (i : nat) (b : Block) (bc : Blockchain) : Blockchain :=
  {| _chain := <[i := b]> (_chain bc); _height := _height bc |}.

(** The [while] loop of [validateChain]. [currentBlock] is the position of
    the block the loop holds, [None] for [null]; each iteration takes one
    unit of fuel, and [None] is returned when the fuel runs out. *)
Fixpoint walk (fuel : nat) (bc : Blockchain) (currentBlock : option nat)
  (errorLog : list string) : option (Blockchain * list string) :=
  match currentBlock with
  | None => Some (bc, errorLog)
  | Some i =>
      match _chain bc !! i with
      | None => Some (bc, errorLog)
      | Some b =>
          if JS.truthy (previousBlockHash b) then
            match fuel with
            | O => None
            | S fuel =>
                let '(b', blockIsValid) := validate b in
                let bc := store i b' bc in
                let errorLog :=
                  if blockIsValid then errorLog
                  else errorLog ++ [invalid_message b'] in
                let next := getBlockByHash (previousBlockHash b') bc in
                walk fuel bc (fst <$> next) errorLog
            end
          else Some (bc, errorLog)
      end
  end.

Definition validateChain (fuel : nat) (bc : Blockchain)
  : option (Blockchain * result unit) :=
  let currentBlock := getLatestBlock bc in
  let errorLog :=
    match currentBlock with
    | None => ["Latest block not found!"]
    | Some _ => []
    end in
  '(bc', errorLog) ← walk fuel bc (fst <$> currentBlock) errorLog;
  match errorLog with
  | [] => Some (bc', Ok tt)
  | _ :: _ => Some (bc', Throw (InvalidChainError errorLog))
  end.

(** [_addBlock]: [now] is the clock reading taken for [block.time]. The
    block is pushed before the chain is validated, so it stays in the
    chain when validation throws. *)
Definition _addBlock (fuel : nat) (now : Z) (block : Block) (bc : Blockchain)
  : option (Blockchain * result unit) :=
  let block := set_height (_height bc + 1) block in
  let block := set_time now block in
  let block :=
    match getLatestBlock bc with
    | Some (_, latestBlock) =>
        if -1 <? _height bc
        then set_previousBlockHash (hash latestBlock) block
        else block
    | None => block
    end in
  let block := generateHash block in
  validateChain fuel
    {| _chain := _chain bc ++ [block]; _height := _height bc + 1 |}.

Definition genesis_data : JSON.json :=
  JSON.JObj [("data", JSON.JStr "Genesis Block")].

Definition initializeChain (fuel : nat) (now : Z) (bc : Blockchain)
  : option (Blockchain * result unit) :=
  if _height bc =? -1
  then _addBlock fuel now (new_Block genesis_data) bc
  else Some (bc, Ok tt).

(** [new Blockchain()], once the initialization it starts has settled. *)
Definition new_Blockchain (fuel : nat) (now : Z)
  : option (Blockchain * result unit) :=
  initializeChain fuel now uninitialized.

(** [requestMessageOwnershipVerification]: the constructor's defaults
    ([address || ''], [time || 0]) leave a string and an integer as they
    are. *)
Definition requestMessageOwnershipVerification (now : Z) (address : string)
  : string :=
  Message.toString {| Message.address := address; Message.time := JS.Num now |}.

Definition star_data (address : string) (star : JSON.json) : JSON.json :=
  JSON.JObj [("owner", JSON.JStr address); ("star", star)].

(** [submitStar]: [now] is the clock reading taken by [ValidTime], [now']
    the later one taken by [_addBlock]. The block returned is the object
    that was pushed, read at its position in the chain. *)
Definition submitStar (fuel : nat) (now now' : Z)
  (address message signature : string) (star : JSON.json) (bc : Blockchain)
  : option (Blockchain * result Block) :=
  let messageTime := Message.time (Message.parse message) in
  if negb (ValidTime now messageTime)
  then Some (bc, Throw (Error "Message is too old!"))
  else if negb (verify message address signature)
  then Some (bc, Throw (Error "Message is invalid!"))
  else
    let block := new_Block (star_data address star) in
    '(bc', r) ← _addBlock fuel now' block bc;
    match r with
    | Throw e => Some (bc', Throw e)
    | Ok _ =>
        match _chain bc' !! length (_chain bc) with
        | Some b => Some (bc', Ok b)
        | None => None
        end
    end.

End Blockchain_methods.

(** [getStarsByWalletAddress]: the decoded bodies whose [owner] is the
    address, in chain order; the first body that fails to decode makes the
    whole call throw. *)
Definition owner_is (address : string) (v : JSON.json) : bool :=
  match v with
  | JSON.JObj m =>
      match snd <$> list_find (fun kv => fst kv = "owner") m with
      | Some (_, JSON.JStr s) => String.eqb s address
      | _ => false
      end
  | _ => false
  end.

Fixpoint stars_of (address : string) (chain : list Block)
  : result (list JSON.json) :=
  match chain with
  | [] => Ok []
  | block :: chain' =>
      match getBData block with
      | Throw e => Throw e
      | Ok decodedData =>
          match stars_of address chain' with
          | Throw e => Throw e
          | Ok stars =>
              Ok (if owner_is address decodedData
                  then decodedData :: stars else stars)
          end
      end
  end.

Definition getStarsByWalletAddress (address : string) (bc : Blockchain)
  : result (list JSON.json) :=
  stars_of address (_chain bc).

(** In-place mutation of a stored block from outside the class (the
    [chain] getter hands out the Block objects themselves). *)
Definition mutate_body (i : nat) (newBody : string) (bc : Blockchain)
  : Blockchain :=
  {| _chain := alter (set_body newBody) i (_chain bc);
     _height := _height bc |}.

Definition mutate_hash (i : nat) (newHash : option string) (bc : Blockchain)
  : Blockchain :=
  {| _chain := alter (set_hash newHash) i (_chain bc);
     _height := _height bc |}.

(** ** Vocabulary of the properties *)

Section Vocabulary.
Context `{Externals}.

(** The stored hash is the digest of the block as it stands: [validate]
    answers [true]. *)
Definition hashed (b : Block) : Prop :=
  hash b = Some (SHA256 (JSON.stringify (rest_of_block b))).

#[global] Instance hashed_dec (b : Block) : Decision (hashed b) :=
  decide (hash b = Some (SHA256 (JSON.stringify (rest_of_block b)))).

(** The ledgers a program obtains by constructing one and then calling
    [submitStar] and [validateChain] on it, whatever the calls answer,
    when it awaits each call, the construction included, before it makes
    the next. Calls made before an earlier one has settled are the
    subject of [run]. *)
Inductive reachable : Blockchain -> Prop :=
| reachable_new fuel now bc r :
    new_Blockchain fuel now = Some (bc, r) -> reachable bc
| reachable_submit fuel now now' address message signature star bc bc' r :
    reachable bc ->
    submitStar fuel now now' address message signature star bc = Some (bc', r) ->
    reachable bc'
| reachable_validate fuel bc bc' r :
    reachable bc -> validateChain fuel bc = Some (bc', r) -> reachable bc'.

(** What holds of every reachable ledger. *)
Record ledger_inv (bc : Blockchain) : Prop := {
  inv_height : _height bc = Z.of_nat (length (_chain bc)) - 1;
  inv_genesis : exists g, _chain bc !! 0%nat = Some g /\ previousBlockHash g = None;
  inv_heights : forall (i : nat) b,
    _chain bc !! i = Some b -> height b = Z.of_nat i;
  inv_hashed : forall (i : nat) b, _chain bc !! i = Some b -> hashed b;
  inv_linked : forall (i : nat) b b',
    _chain bc !! i = Some b -> _chain bc !! S i = Some b' ->
    previousBlockHash b' = hash b
}.

(** A chain on which the backward walk finds nothing to report: a block
    that has a predecessor to look for is [hashed], and the search for the
    predecessor can only answer with an earlier position. *)
Definition consistent (chain : list Block) : Prop :=
  forall (i : nat) (b : Block),
    chain !! i = Some b -> JS.truthy (previousBlockHash b) = true ->
    hashed b /\
    forall (j : nat) (b' : Block),
      list_find (fun x => hash x = previousBlockHash b) chain = Some (j, b') ->
      (j < i)%nat.

(** A chain whose links the backward walk can follow from any block down
    to the first: the first block has no predecessor, every other block
    points at the stored hash of the block before it, and no two stored
    hashes coincide. Nothing is asked of the bodies. *)
Record walkable (chain : list Block) : Prop := {
  walkable_first : forall b,
    chain !! 0%nat = Some b -> JS.truthy (previousBlockHash b) = false;
  walkable_link : forall (i : nat) b b',
    chain !! i = Some b -> chain !! S i = Some b' ->
    previousBlockHash b' = hash b /\ JS.truthy (hash b) = true;
  walkable_distinct : forall (i j : nat) b b',
    chain !! i = Some b -> chain !! j = Some b' -> hash b = hash b' -> i = j
}.

(** The report on one block. *)
Definition fault_of (b : Block) : list string :=
  if bool_decide (hashed b) then [] else [invalid_message (generateHash b)].

(** The reports on the blocks at positions [i], [i - 1], ..., [1], in that
    order. *)
Fixpoint faults_upto (chain : list Block) (i : nat) : list string :=
  match i with
  | O => []
  | S j => from_option fault_of [] (chain !! i) ++ faults_upto chain j
  end.

(** The chain once the blocks at positions [1] to [i] have been
    rehashed. *)
Definition heal_upto (i : nat) (chain : list Block) : list Block :=
  imap (fun j b => if bool_decide (1 <= j <= i)%nat then generateHash b else b)
    chain.

(** No two blocks of the chain carry the same hash, and no block carries
    the empty string as hash: what a 64 digit digest without collision on
    the chain provides. *)
Definition hashes_distinct (chain : list Block) : Prop :=
  forall (i j : nat) x y,
    chain !! i = Some x -> chain !! j = Some y -> hash x = hash y -> i = j.

Definition hashes_nonempty (chain : list Block) : Prop :=
  forall x, x ∈ chain -> hash x <> Some EmptyString.

(** What [validateChain] settles with, given the reports it collected. *)
Definition result_of (errorLog : list string) : result unit :=
  match errorLog with
  | [] => Ok tt
  | _ :: _ => Throw (InvalidChainError errorLog)
  end.

(** [chain'] is [chain] with the bodies of some blocks overwritten. *)
Definition bodies_rewritten (chain chain' : list Block) : Prop :=
  Forall2 (fun b b' => b' = set_body (body b') b) chain chain'.

End Vocabulary.

(** A stand-in for the digest, used to run the model on examples: the text
    itself behind a marker, so distinct texts have distinct digests and no
    digest is empty. *)
Definition tag_digest (s : string) : string := String "#" s.

Definition demo_externals : Externals :=
  {| SHA256 := tag_digest;
     verify := fun message address signature =>
                 String.eqb signature ("signed:" +:+ message) |}.

Definition state_of {A : Type} (o : option (Blockchain * result A))
  : Blockchain :=
  match o with
  | Some (bc, _) => bc
  | None => uninitialized
  end.

(** A ledger of three blocks: constructed at second 500, then two stars
    submitted with a challenge issued at second 600. *)
Definition demo_message : string := "alice:600:starRegistry".

Definition demo_star (name : string) : JSON.json :=
  JSON.JObj [("dec", JSON.JStr "68 52 56.9"); ("ra", JSON.JStr "16h 29m 1.0s");
             ("story", JSON.JStr name)].

Definition demo_ledger : Blockchain :=
  let H := demo_externals in
  let bc0 := state_of (new_Blockchain 0 500) in
  let bc1 :=
    state_of (submitStar 2 1000 1001 "alice" demo_message
                ("signed:" +:+ demo_message) (demo_star "first") bc0) in
  state_of (submitStar 3 2000 2001 "alice" demo_message
              ("signed:" +:+ demo_message) (demo_star "second") bc1).

(** Its second block. *)
Definition demo_block1 : Block :=
  default (new_Block JSON.JNull) (_chain demo_ledger !! 1%nat).

(** The demo ledger after the body of block 1 was overwritten, and after a
    first [validateChain] on that. *)
Definition demo_tampered : Blockchain := mutate_body 1 "00" demo_ledger.

Definition demo_after_report : Blockchain :=
  state_of (@validateChain demo_externals 3 demo_tampered).

(** A payload with one character outside ASCII, U+00E9. *)
Definition e_acute : string := String (JS.chr 233) EmptyString.

Definition demo_accented : JSON.json := JSON.JObj [("data", JSON.JStr e_acute)].

(** ** The clock, and vocabulary for the further properties *)

(** [s.slice(0, -3)]: all but the last three characters of [s]. *)
Definition slice_0_m3 (s : string) : string :=
  String.substring 0 (String.length s - 3) s.

(** [getTimeInSeconds()] as a function of the millisecond clock
    [new Date().getTime()]: the decimal numeral of the clock without its
    last three digits, read back as a number. *)
Definition getTimeInSeconds (clock : Z) : JS.number :=
  JS.to_number (slice_0_m3 (JS.show_Z clock)).

Definition no_colon (c : ascii) : bool := negb (Ascii.eqb c ":").

(** The number that a string of decimal digits writes, continuing from
    [acc]; the same for a [Decimal.uint]. *)
Definition digit_value (c : ascii) : N := (JS.code c - 48)%N.

Fixpoint digits_value (acc : N) (s : string) : N :=
  match s with
  | EmptyString => acc
  | String c s' => digits_value (10 * acc + digit_value c)%N s'
  end.

Fixpoint drop_chars (n : nat) (s : string) : string :=
  match n, s with
  | S n', String _ s' => drop_chars n' s'
  | _, _ => s
  end.

(** What [hex2ascii] makes of the UTF-8 bytes of a string: one character
    per byte. *)
Fixpoint bytes_string (bytes : list N) : string :=
  match bytes with
  | [] => EmptyString
  | b :: bs => String (JS.chr b) (bytes_string bs)
  end.

Definition byte_chars (s : string) : string := bytes_string (JS.utf8 s).

(** The payload with every string, property names included, replaced by
    the characters of its UTF-8 bytes. *)
Fixpoint byte_chars_json (v : JSON.json) : JSON.json :=
  match v with
  | JSON.JStr s => JSON.JStr (byte_chars s)
  | JSON.JArr l => JSON.JArr (map byte_chars_json l)
  | JSON.JObj m =>
      JSON.JObj
        (map (fun kv => (byte_chars (fst kv), byte_chars_json (snd kv))) m)
  | _ => v
  end.

Definition is_nonzero (c : ascii) : bool := negb (JS.code c =? 0)%N.

(** Reading [byte_chars] backwards: a character below U+0080 stands for
    itself, a character from U+00C0 on and its successor for one
    character. *)
Fixpoint unbyte_chars (s : string) : string :=
  match s with
  | EmptyString => EmptyString
  | String c s' =>
      if (JS.code c <? 128)%N then String c (unbyte_chars s')
      else
        match s' with
        | String d s'' =>
            String (JS.chr (64 * (JS.code c - 192) + (JS.code d - 128)))
              (unbyte_chars s'')
        | EmptyString => String c EmptyString
        end
  end.

(** The third block of the demo ledger, and the demo ledger after the
    bodies of its second and third block were overwritten. *)
Definition demo_block2 : Block :=
  default (new_Block JSON.JNull) (_chain demo_ledger !! 2%nat).

Definition demo_rewritten : list Block :=
  alter (set_body "00") 1%nat (alter (set_body "ff") 2%nat (_chain demo_ledger)).

(** ** Calls that overlap *)

(** An [async] method runs from its call up to its first [await] at once;
    each later stretch, from one [await] to the next, runs when the event
    loop resumes the call. Nothing else runs during a stretch, and between
    two stretches of one call the stretches of other calls may run.

    A [call] is a call of [submitStar] between two stretches: the [await]
    it is suspended at, with the values of its local variables. A block
    of the chain is held by its position, a block not yet pushed by
    value: no other call can reach it.
    - [await_getLatestBlock]: in [_addBlock], at
      [await this.getLatestBlock()]; the search has run, within the
      stretch that made the call;
    - [await_generateHash]: in [_addBlock], at [await block.generateHash()];
    - [await_latest]: in [validateChain], at [await this.getLatestBlock()];
    - [await_rehash]: in [validate], at [await this.generateHash()];
    - [await_validate]: in [validateChain], at
      [await currentBlock.validate()];
    - [await_getBlockByHash]: in [validateChain], at
      [await this.getBlockByHash(...)];
    - [settled]: [validateChain] has returned or thrown. What is left of
      [_addBlock] and [submitStar] reads and writes nothing of the ledger,
      and the promise of [submitStar] settles with the block pushed, held
      by its position, or with what was thrown. *)
Inductive call :=
| await_getLatestBlock (block : Block) (latestBlock : option nat)
| await_generateHash (block : Block)
| await_latest (pushed : nat) (currentBlock : option nat)
| await_rehash (pushed : nat) (currentBlock : nat)
    (currentHash : option string) (errorLog : list string)
| await_validate (pushed : nat) (currentBlock : nat) (blockIsValid : bool)
    (errorLog : list string)
| await_getBlockByHash (pushed : nat) (currentBlock : option nat)
    (errorLog : list string)
| settled (r : result nat).

Record event_loop := {
  ledger : Blockchain;
  calls : list call
}.

Section Overlapping_calls.
Context `{Externals}.

(** The stretch that the call [submitStar(address, message, signature,
    star)] runs at once: both checks, [new Block], and [_addBlock] up to
    [await this.getLatestBlock()]. It reads the ledger and leaves it as it
    is. *)
Definition submitStar_call (now now' : Z)
  (address message signature : string) (star : JSON.json) (bc : Blockchain)
  : call :=
  let messageTime := Message.time (Message.parse message) in
  if negb (ValidTime now messageTime)
  then settled (Throw (Error "Message is too old!"))
  else if negb (verify message address signature)
  then settled (Throw (Error "Message is invalid!"))
  else
    let block := new_Block (star_data address star) in
    let block := set_height (_height bc + 1) block in
    let block := set_time now' block in
    await_getLatestBlock block (fst <$> getLatestBlock bc).

(** The head of the [while] loop of [validateChain], up to the [await] in
    [validate], and what follows the loop. *)
Definition while_head (pushed : nat) (currentBlock : option nat)
  (errorLog : list string) (bc : Blockchain) : Blockchain * call :=
  let after_loop :=
    match errorLog with
    | [] => settled (Ok pushed)
    | _ :: _ => settled (Throw (InvalidChainError errorLog))
    end in
  match currentBlock with
  | None => (bc, after_loop)
  | Some i =>
      match _chain bc !! i with
      | None => (bc, after_loop)
      | Some b =>
          if JS.truthy (previousBlockHash b) then
            let currentHash := hash b in
            (store i (generateHash b) bc,
             await_rehash pushed i currentHash errorLog)
          else (bc, after_loop)
      end
  end.

(** One stretch of a call: from the [await] it is suspended at to the
    next. *)
Definition resume (c : call) (bc : Blockchain) : Blockchain * call :=
  match c with
  | await_getLatestBlock block latestBlock =>
      let block :=
        match latestBlock ≫= (fun i => _chain bc !! i) with
        | Some latestBlock =>
            if -1 <? _height bc
            then set_previousBlockHash (hash latestBlock) block
            else block
        | None => block
        end in
      (bc, await_generateHash (generateHash block))
  | await_generateHash block =>
      let pushed := length (_chain bc) in
      let bc := {| _chain := _chain bc ++ [block];
                   _height := _height bc + 1 |} in
      (bc, await_latest pushed (fst <$> getLatestBlock bc))
  | await_latest pushed currentBlock =>
      let errorLog :=
        match currentBlock with
        | None => ["Latest block not found!"]
        | Some _ => []
        end in
      while_head pushed currentBlock errorLog bc
  | await_rehash pushed i currentHash errorLog =>
      match _chain bc !! i with
      | Some b =>
          (bc, await_validate pushed i (bool_decide (currentHash = hash b))
                 errorLog)
      | None => (bc, c)
      end
  | await_validate pushed i blockIsValid errorLog =>
      match _chain bc !! i with
      | Some b =>
          let errorLog :=
            if blockIsValid then errorLog
            else errorLog ++ [invalid_message b] in
          let next := getBlockByHash (previousBlockHash b) bc in
          (bc, await_getBlockByHash pushed (fst <$> next) errorLog)
      | None => (bc, c)
      end
  | await_getBlockByHash pushed currentBlock errorLog =>
      while_head pushed currentBlock errorLog bc
  | settled _ => (bc, c)
  end.

(** The event loop resumes the call at position [k]. *)
Definition resume_call (k : nat) (s : event_loop) : event_loop :=
  match calls s !! k with
  | Some c =>
      let '(bc, c') := resume c (ledger s) in
      {| ledger := bc; calls := <[k := c']> (calls s) |}
  | None => s
  end.

(** The event loop resumes calls in the order of [schedule]. *)
Fixpoint run (schedule : list nat) (s : event_loop) : event_loop :=
  match schedule with
  | [] => s
  | k :: schedule => run schedule (resume_call k s)
  end.

(** How often [schedule] resumes the call at position [k]. *)
Fixpoint resumed (k : nat) (schedule : list nat) : nat :=
  match schedule with
  | [] => 0
  | j :: schedule => (if Nat.eqb j k then 1 else 0) + resumed k schedule
  end.

(** One call resumed [n] times, with no other call in between. *)
Fixpoint alone (n : nat) (c : call) (bc : Blockchain) : Blockchain * call :=
  match n with
  | O => (bc, c)
  | S n => let '(bc, c) := resume c bc in alone n c bc
  end.

(** What the promise of a call settles with, read off the ledger. *)
Definition settled_with (bc : Blockchain) (c : call) : option (result Block) :=
  match c with
  | settled (Ok pushed) => Ok <$> _chain bc !! pushed
  | settled (Throw e) => Some (Throw e)
  | _ => None
  end.

(** Two calls of [submitStar] made in one stretch of the caller, neither
    awaited before the other is made: both first stretches have run. *)
Definition overlapping (bc : Blockchain) (c1 c2 : call) : event_loop :=
  {| ledger := bc; calls := [c1; c2] |}.

(** *** Vocabulary for overlapping calls *)

(** The ledger [bc] after the blocks [pushed] were pushed. *)
Definition with_pushed (bc : Blockchain) (pushed : list Block) : Blockchain :=
  {| _chain := _chain bc ++ pushed;
     _height := _height bc + Z.of_nat (length pushed) |}.

(** The block that a call which found [latestBlock] pushes. *)
Definition linked (latestBlock block : Block) : Block :=
  generateHash (set_previousBlockHash (hash latestBlock) block).

(** Blocks pushed by calls that found [latestBlock] on a ledger of [n]
    blocks. *)
Definition linked_blocks (n : nat) (latestBlock : Block)
  (pushed : list Block) : Prop :=
  Forall (fun z => hashed z /\ previousBlockHash z = hash latestBlock /\
                   height z = Z.of_nat n) pushed.

(** A bound on the stretches a call still takes on a ledger that had [n]
    blocks when the calls were made. *)
Definition stretches (n : nat) (c : call) : nat :=
  match c with
  | await_getLatestBlock _ _ => 3 * n + 6
  | await_generateHash _ => 3 * n + 5
  | await_latest _ currentBlock | await_getBlockByHash _ currentBlock _ =>
      from_option (fun j => 3 * j + 4)%nat 1%nat currentBlock
  | await_rehash _ i _ _ => 3 * i + 3
  | await_validate _ i _ _ => 3 * i + 2
  | settled _ => 0
  end.

(** A call that has not pushed its block. *)
Definition before_push (n : nat) (latestBlock block : Block) (c : call)
  : Prop :=
  c = await_getLatestBlock block (Some (Nat.pred n)) \/
  c = await_generateHash (linked latestBlock block).

(** The call that pushed first, walking the chain [chain]: it has found
    nothing to report. *)
Definition first_walker (n : nat) (chain : list Block) (c : call) : Prop :=
  c = await_latest n (Some n) \/
  (exists (i : nat) b,
     chain !! i = Some b /\ JS.truthy (previousBlockHash b) = true /\
     c = await_rehash n i (hash b) []) \/
  (exists (i : nat) b,
     chain !! i = Some b /\ JS.truthy (previousBlockHash b) = true /\
     c = await_validate n i true []) \/
  (exists next, c = await_getBlockByHash n next []) \/
  c = settled (Ok n).

(** The call that pushed second: it finds no latest block. *)
Definition second_walker (n : nat) (c : call) : Prop :=
  c = await_latest (S n) None \/
  c = settled (Throw (InvalidChainError ["Latest block not found!"])).

(** What holds of the event loop while two calls made on [bc] overlap;
    [x] and [y] are the blocks they push. *)
Inductive overlap_inv (bc : Blockchain) (latestBlock x0 y0 : Block)
  : event_loop -> Prop :=
| overlap_none c1 c2 :
    before_push (length (_chain bc)) latestBlock x0 c1 ->
    before_push (length (_chain bc)) latestBlock y0 c2 ->
    overlap_inv bc latestBlock x0 y0
      {| ledger := with_pushed bc []; calls := [c1; c2] |}
| overlap_first c1 c2 :
    first_walker (length (_chain bc))
      (_chain bc ++ [linked latestBlock x0]) c1 ->
    before_push (length (_chain bc)) latestBlock y0 c2 ->
    overlap_inv bc latestBlock x0 y0
      {| ledger := with_pushed bc [linked latestBlock x0];
         calls := [c1; c2] |}
| overlap_second c1 c2 :
    before_push (length (_chain bc)) latestBlock x0 c1 ->
    first_walker (length (_chain bc))
      (_chain bc ++ [linked latestBlock y0]) c2 ->
    overlap_inv bc latestBlock x0 y0
      {| ledger := with_pushed bc [linked latestBlock y0];
         calls := [c1; c2] |}
| overlap_first_second c1 c2 :
    first_walker (length (_chain bc))
      (_chain bc ++ [linked latestBlock x0; linked latestBlock y0]) c1 ->
    second_walker (length (_chain bc)) c2 ->
    overlap_inv bc latestBlock x0 y0
      {| ledger := with_pushed bc [linked latestBlock x0; linked latestBlock y0];
         calls := [c1; c2] |}
| overlap_second_first c1 c2 :
    second_walker (length (_chain bc)) c1 ->
    first_walker (length (_chain bc))
      (_chain bc ++ [linked latestBlock y0; linked latestBlock x0]) c2 ->
    overlap_inv bc latestBlock x0 y0
      {| ledger := with_pushed bc [linked latestBlock y0; linked latestBlock x0];
         calls := [c1; c2] |}.

End Overlapping_calls.

(** The event loop alternates between two calls, [n] stretches each. *)
Definition round_robin (n : nat) : list nat := concat (replicate n [0; 1]%nat).

(** Two accepted submissions made on the demo ledger without awaiting the
    first. *)
Definition demo_overlap : event_loop :=
  let H := demo_externals in
  overlapping demo_ledger
    (submitStar_call 3000 3001 "alice" demo_message
       ("signed:" +:+ demo_message) (demo_star "third") demo_ledger)
    (submitStar_call 3000 3001 "bob" demo_message
       ("signed:" +:+ demo_message) (demo_star "fourth") demo_ledger).

(** * Facts about the JavaScript primitives *)

Lemma append_nil (b : string) : EmptyString +:+ b = b.
Proof. reflexivity. Qed.

Lemma append_cons (x : ascii) (a b : string) :
  String x a +:+ b = String x (a +:+ b).
Proof. reflexivity. Qed.

Lemma append_assoc (a b c : string) : (a +:+ b) +:+ c = a +:+ (b +:+ c).
Proof.
  induction a as [|x a IH]; [done|]. rewrite !append_cons. by f_equal.
Qed.

Lemma append_empty_r (a : string) : a +:+ EmptyString = a.
Proof.
  induction a as [|x a IH]; [done|]. rewrite append_cons. by f_equal.
Qed.

Lemma length_append (a b : string) :
  String.length (a +:+ b) = (String.length a + String.length b)%nat.
Proof.
  induction a as [|x a IH]; [done|]. rewrite append_cons. simpl. by f_equal.
Qed.

(** A property of all 256 characters, by enumeration. *)
Ltac by_cases_on_char c :=
  destruct c as [[] [] [] [] [] [] [] []];
  first [ reflexivity | discriminate | (intros _; reflexivity) ].

Lemma digit_not_special (c : ascii) :
  JS.is_digit c = true ->
  JSON.is_ws c = false /\
  Forall (fun x => Ascii.eqb c x = false)
    [ "n"; "t"; "f"; JS.dquote; "["; "{"; "]"; "}"; ","; "-"; "."; "e"; "E"; ":" ]%char.
Proof.
  intros Hd; split; [|repeat constructor]; revert Hd; by_cases_on_char c.
Qed.

(** ** Decimal numerals *)

Lemma string_of_uint_digits (d : Decimal.uint) :
  JSON.all_chars JS.is_digit (NilEmpty.string_of_uint d) = true.
Proof. induction d; simpl; auto. Qed.

Lemma show_N_digits (n : N) : JSON.all_chars JS.is_digit (JS.show_N n) = true.
Proof. apply string_of_uint_digits. Qed.

Lemma take_digits_app (ds rest : string) :
  JSON.all_chars JS.is_digit ds = true ->
  match rest with String c _ => JS.is_digit c = false | EmptyString => True end ->
  JS.take_digits (ds +:+ rest) = (ds, rest).
Proof.
  intros Hds Hrest. induction ds as [|c ds IH].
  - rewrite append_nil. destruct rest as [|c r]; simpl; [done | by rewrite Hrest].
  - rewrite append_cons. simpl in *.
    apply andb_true_iff in Hds as [-> Hds]. by rewrite IH.
Qed.

Lemma to_uint_nonnil (n : N) : N.to_uint n <> Decimal.Nil.
Proof.
  destruct n as [|p]; [done | apply DecimalPos.Unsigned.to_uint_nonnil].
Qed.

Lemma digits_to_N_show (n : N) : JS.digits_to_N (JS.show_N n) = Some n.
Proof.
  unfold JS.digits_to_N, JS.show_N.
  pose proof (to_uint_nonnil n) as Hnil.
  destruct (NilEmpty.string_of_uint (N.to_uint n)) eqn:E.
  - destruct (N.to_uint n); simpl in E; congruence.
  - rewrite <- E, NilEmpty.usu. simpl. f_equal. apply DecimalN.Unsigned.of_to.
Qed.

(** A positive number is printed without a leading zero. *)
Lemma show_N_pos_head (p : positive) :
  exists c s, JS.show_N (Npos p) = String c s /\
              JS.is_digit c = true /\ Ascii.eqb c "0" = false.
Proof.
  unfold JS.show_N.
  pose proof (DecimalN.Unsigned.to_of (N.to_uint (Npos p))) as Hnorm.
  rewrite DecimalN.Unsigned.of_to in Hnorm.
  pose proof (DecimalPos.Unsigned.to_uint_nonzero p) as Hnz.
  pose proof (DecimalPos.Unsigned.to_uint_nonnil p) as Hnn.
  change (N.to_uint (N.pos p)) with (Pos.to_uint p) in *.
  destruct (Pos.to_uint p) as [|u|u|u|u|u|u|u|u|u|u] eqn:E; try done;
    try (eexists _, _; split; [reflexivity | done]).
  exfalso. change (Decimal.unorm (Decimal.D0 u)) with (Decimal.unorm u) in Hnorm.
  assert (u <> Decimal.Nil) as Hu by (intros ->; by apply Hnz).
  pose proof (nb_digits_unorm u Hu) as Hle.
  rewrite <- Hnorm in Hle. simpl in Hle. lia.
Qed.

Lemma follows_value_nondigit (rest : string) :
  JSON.follows_value rest = true ->
  match rest with String c _ => JS.is_digit c = false | EmptyString => True end.
Proof.
  destruct rest as [|c r]; [done|]. simpl. by_cases_on_char c.
Qed.

Lemma follows_value_not_fraction (rest : string) :
  JSON.follows_value rest = true ->
  match rest with
  | String c _ =>
      negb (Ascii.eqb c "." || Ascii.eqb c "e" || Ascii.eqb c "E") = true
  | EmptyString => True
  end.
Proof.
  destruct rest as [|c r]; [done|]. simpl. by_cases_on_char c.
Qed.

Lemma show_N_lead (n : N) :
  match JS.show_N n with
  | String c (String _ _) => negb (Ascii.eqb c "0")
  | _ => true
  end = true.
Proof.
  destruct n as [|p]; [done|].
  destruct (show_N_pos_head p) as (c & s & -> & _ & Hc).
  destruct s; [done | by rewrite Hc].
Qed.

Lemma parse_number_unsigned (neg : bool) (n : N) (s rest : string) :
  JSON.follows_value rest = true ->
  s = JS.show_N n +:+ rest /\ neg = false /\
    (exists c s', JS.show_N n = String c s' /\ Ascii.eqb c "-" = false)
  \/ s = String "-" (JS.show_N n +:+ rest) /\ neg = true ->
  JSON.parse_number s
  = Some (JSON.JNum (if neg then - Z.of_N n else Z.of_N n), rest).
Proof.
  intros Hrest Hs. unfold JSON.parse_number.
  assert (JS.take_digits (JS.show_N n +:+ rest) = (JS.show_N n, rest)) as Htake.
  { apply take_digits_app; [apply show_N_digits|].
    by apply follows_value_nondigit. }
  assert ((let '(neg', s1) :=
             match s with
             | String c s' => if Ascii.eqb c "-" then (true, s') else (false, s)
             | EmptyString => (false, s)
             end in (neg', s1)) = (neg, JS.show_N n +:+ rest)) as Hsign.
  { destruct Hs as [(-> & -> & c & s' & Hshow & Hc)|[-> ->]]; [|done].
    rewrite Hshow, append_cons, Hc. done. }
  destruct (match s with
            | String c s' => if Ascii.eqb c "-" then (true, s') else (false, s)
            | EmptyString => (false, s)
            end) as [neg' s1].
  injection Hsign as -> ->. rewrite Htake.
  rewrite digits_to_N_show. simpl.
  rewrite show_N_lead. simpl.
  pose proof (follows_value_not_fraction rest Hrest) as Hf.
  destruct rest as [|c r]; [done|]. by rewrite Hf.
Qed.

Lemma parse_number_show (z : Z) (rest : string) :
  JSON.follows_value rest = true ->
  JSON.parse_number (JS.show_Z z +:+ rest) = Some (JSON.JNum z, rest).
Proof.
  intros Hrest. destruct z as [|p|p]; simpl JS.show_Z.
  - apply (parse_number_unsigned false 0 _ rest Hrest).
    left. split; [done|]. split; [done|]. by eexists _, _.
  - apply (parse_number_unsigned false (Npos p) _ rest Hrest).
    left. split; [done|]. split; [done|].
    destruct (show_N_pos_head p) as (c & s & E & Hd & _).
    exists c, s. split; [done|].
    destruct (digit_not_special c Hd) as [_ HF].
    by repeat (apply Forall_cons in HF as [? HF]).
  - rewrite append_cons.
    apply (parse_number_unsigned true (Npos p) _ rest Hrest). by right.
Qed.

(** ** String literals *)

Lemma parse_chars_escape_char (c : ascii) (t : string) :
  JSON.parse_chars (JSON.escape_char c +:+ t)
  = '(str, r) ← JSON.parse_chars t; Some (String c str, r).
Proof. by_cases_on_char c. Qed.

Lemma parse_chars_escape (s rest : string) :
  JSON.parse_chars (JSON.escape s +:+ String JS.dquote rest) = Some (s, rest).
Proof.
  induction s as [|c s IH]; [done|].
  simpl JSON.escape. rewrite append_assoc, parse_chars_escape_char, IH. done.
Qed.

Lemma parse_chars_quote (s rest : string) :
  exists t, JSON.quote s +:+ rest = String JS.dquote t /\
            JSON.parse_chars t = Some (s, rest).
Proof.
  exists (JSON.escape s +:+ String JS.dquote rest). split.
  - unfold JSON.quote. by rewrite append_cons, append_assoc.
  - apply parse_chars_escape.
Qed.

Section json_facts.
Import JSON.

(** ** Reading back what [JSON.stringify] wrote *)

Lemma json_ind (P : json -> Prop) :
  P JNull ->
  (forall b, P (JBool b)) ->
  (forall z, P (JNum z)) ->
  (forall s, P (JStr s)) ->
  (forall l, Forall P l -> P (JArr l)) ->
  (forall m, Forall (fun kv => P (snd kv)) m -> P (JObj m)) ->
  forall v, P v.
Proof.
  intros Hnull Hbool Hnum Hstr Harr Hobj.
  refine (fix go (v : json) : P v :=
            match v with
            | JNull => Hnull
            | JBool b => Hbool b
            | JNum z => Hnum z
            | JStr s => Hstr s
            | JArr l => Harr l _
            | JObj m => Hobj m _
            end).
  - induction l as [|x l IHl]; constructor; [apply go | apply IHl].
  - induction m as [|kv m IHm]; constructor; [apply go | apply IHm].
Qed.

Lemma show_Z_head (z : Z) :
  exists c s, JS.show_Z z = String c s /\
              (JS.is_digit c = true \/ c = "-"%char).
Proof.
  destruct z as [|p|p]; simpl.
  - eexists _, _. split; [done|]. by left.
  - destruct (show_N_pos_head p) as (c & s & -> & Hd & _). eauto.
  - eauto.
Qed.

Lemma number_head_plain (c : ascii) :
  JS.is_digit c = true \/ c = "-"%char -> plain_head c.
Proof.
  intros [Hd| ->]; [|done].
  destruct (digit_not_special c Hd) as [Hws HF].
  repeat (apply Forall_cons in HF as [? HF]). done.
Qed.

Lemma stringify_head (v : json) :
  exists c s, stringify v = String c s /\ plain_head c.
Proof.
  destruct v as [|[]|z|s|l|m]; simpl; try by eexists _, _.
  destruct (show_Z_head z) as (c & s & -> & Hc).
  exists c, s. split; [done|]. by apply number_head_plain.
Qed.

Lemma skip_ws_plain (c : ascii) (s : string) :
  is_ws c = false -> skip_ws (String c s) = String c s.
Proof. intros Hc. simpl. by rewrite Hc. Qed.

Lemma parse_value_number (fuel : nat) (c : ascii) (r : string) :
  JS.is_digit c = true \/ c = "-"%char ->
  parse_value (S fuel) (String c r) = parse_number (String c r).
Proof.
  intros Hc. simpl.
  destruct Hc as [Hd | ->]; [|done].
  destruct (digit_not_special c Hd) as [-> HF].
  repeat (apply Forall_cons in HF as [? HF]).
  repeat match goal with E : Ascii.eqb c _ = false |- _ => rewrite E; clear E end.
  done.
Qed.

Lemma close_bracket (s rest : string) :
  (s +:+ "]") +:+ rest = s +:+ String "]" rest.
Proof. by rewrite append_assoc. Qed.

Lemma close_brace (s rest : string) :
  (s +:+ "}") +:+ rest = s +:+ String "}" rest.
Proof. by rewrite append_assoc. Qed.

Lemma obj_set_fresh (acc : list (string * json)) (k : string) (v : json) :
  k ∉ map fst acc -> obj_set acc k v = acc ++ [(k, v)].
Proof.
  induction acc as [|[k' v'] acc IH]; simpl; intros Hk; [done|].
  rewrite not_elem_of_cons in Hk. destruct Hk as [Hne Hk].
  destruct (String.eqb_spec k' k) as [->|_]; [done|]. by rewrite IH.
Qed.

Lemma parse_elements_join (l : list json) :
  Forall reads_back l -> l <> [] ->
  forall fuel acc rest,
    (list_sum (map (fun x => S (size x)) l) <= fuel)%nat ->
    parse_elements fuel acc (join_comma (map stringify l) +:+ String "]" rest)
    = Some (acc ++ l, rest).
Proof.
  induction 1 as [|x l Hx Hl IH]; [done|]. intros _ fuel acc rest Hfuel.
  simpl in Hfuel. destruct fuel as [|fuel]; [lia|].
  destruct l as [|y l].
  - simpl. rewrite (Hx fuel (String "]" rest)); [done | simpl in *; lia | done].
  - change (join_comma (map stringify (x :: y :: l)))
      with (stringify x +:+ String "," (join_comma (map stringify (y :: l)))).
    rewrite append_assoc, append_cons.
    simpl parse_elements.
    rewrite (Hx fuel); [| simpl in *; lia | done]. simpl.
    rewrite IH; [by rewrite <- app_assoc | done | simpl in *; lia].
Qed.

Lemma parse_members_join (m : list (string * json)) :
  Forall (fun kv => reads_back (snd kv)) m -> m <> [] ->
  forall fuel acc rest,
    NoDup (map fst (acc ++ m)) ->
    (list_sum (map (fun kv => S (size (snd kv))) m) <= fuel)%nat ->
    parse_members fuel acc
      (join_comma
         (map (fun kv => quote (fst kv) +:+ String ":" (stringify (snd kv))) m)
       +:+ String "}" rest)
    = Some (acc ++ m, rest).
Proof.
  induction 1 as [|[k x] m Hx Hm IH]; [done|].
  intros _ fuel acc rest Hdup Hfuel.
  simpl in Hfuel, Hx. destruct fuel as [|fuel]; [lia|].
  assert (obj_set acc k x = acc ++ [(k, x)]) as Hset.
  { apply obj_set_fresh. rewrite map_app in Hdup.
    apply NoDup_app in Hdup as (_ & Hdis & _). intros Hin.
    apply (Hdis k Hin). simpl. left. }
  assert (forall t,
    parse_members (S fuel) acc
      ((quote k +:+ String ":" (stringify x)) +:+ t)
    = '(v, r3) ← parse_value fuel (stringify x +:+ t);
      match skip_ws r3 with
      | String c r' =>
          if Ascii.eqb c ","
          then parse_members fuel (obj_set acc k v) r'
          else if Ascii.eqb c "}" then Some (obj_set acc k v, r') else None
      | EmptyString => None
      end) as Hstep.
  { intros t. rewrite append_assoc, append_cons.
    destruct (parse_chars_quote k (String ":" (stringify x +:+ t)))
      as (q & -> & Hq).
    simpl. rewrite Hq. done. }
  destruct m as [|[k' y] m].
  - simpl map. simpl join_comma. rewrite Hstep.
    rewrite (Hx fuel (String "}" rest)); [| lia | done]. simpl.
    by rewrite Hset.
  - change (join_comma (map ?f ((k, x) :: (k', y) :: m)))
      with (f (k, x) +:+ String "," (join_comma (map f ((k', y) :: m)))).
    simpl fst. simpl snd. rewrite append_assoc, append_cons, Hstep.
    rewrite (Hx fuel); [| simpl in *; lia | done]. simpl.
    rewrite Hset, IH; [by rewrite <- app_assoc | done | | simpl in *; lia].
    by rewrite <- app_assoc.
Qed.

Lemma parse_value_stringify (v : json) :
  well_formed v = true -> reads_back v.
Proof.
  induction v as [| b | z | s | l IH | m IH] using json_ind;
    intros Hwf fuel rest Hfuel Hrest;
    (destruct fuel as [|fuel]; [simpl in Hfuel; lia|]).
  - done.
  - by destruct b.
  - simpl stringify.
    destruct (show_Z_head z) as (c & s & E & Hc).
    pose proof (parse_number_show z rest Hrest) as Hp.
    rewrite E, append_cons in *. by rewrite parse_value_number.
  - simpl stringify.
    destruct (parse_chars_quote s rest) as (q & -> & Hq).
    simpl. by rewrite Hq.
  - simpl stringify. rewrite append_cons, close_bracket.
    destruct l as [|x l]; [done|].
    assert (Forall reads_back (x :: l)) as Hall.
    { rewrite Forall_forall in IH. apply Forall_forall.
      intros y Hy. apply IH; [done|].
      change (forallb well_formed (x :: l) = true) in Hwf.
      rewrite forallb_forall in Hwf. apply Hwf. by apply list_elem_of_In. }
    pose proof (parse_elements_join (x :: l) Hall ltac:(done) fuel [] rest)
      as Hel.
    destruct (stringify_head x) as (c & s & E & Hws & Hb & _).
    assert (exists t, join_comma (map stringify (x :: l)) +:+ String "]" rest
                      = String c t) as [t Ht].
    { destruct l; simpl; rewrite E, ?append_cons; eauto. }
    rewrite Ht in *. simpl. rewrite Hws, Hb.
    simpl in Hfuel. rewrite Hel; [done | simpl; lia].
  - simpl stringify. rewrite append_cons, close_brace.
    destruct m as [|[k x] m]; [done|].
    simpl in Hwf. apply andb_true_iff in Hwf as [Hdup Hwf].
    apply bool_decide_eq_true in Hdup.
    assert (Forall (fun kv => reads_back (snd kv)) ((k, x) :: m)) as Hall.
    { rewrite Forall_forall in IH. apply Forall_forall.
      intros y Hy. apply IH; [done|].
      change (forallb (fun kv => well_formed (snd kv)) ((k, x) :: m) = true)
        in Hwf.
      rewrite forallb_forall in Hwf. apply Hwf. by apply list_elem_of_In. }
    pose proof (parse_members_join ((k, x) :: m) Hall ltac:(done) fuel [] rest
                  Hdup) as Hmem.
    assert (exists t,
      join_comma
        (map (fun kv => quote (fst kv) +:+ String ":" (stringify (snd kv)))
           ((k, x) :: m)) +:+ String "}" rest
      = String JS.dquote t) as [t Ht].
    { destruct m; simpl; unfold quote; rewrite ?append_cons; eauto. }
    rewrite Ht in *. simpl.
    simpl in Hfuel. rewrite Hmem; [done | simpl; lia].
Qed.

Lemma join_comma_length {A} (f : A -> nat) (g : A -> string) (l : list A) :
  Forall (fun x => (f x <= String.length (g x))%nat) l ->
  (list_sum (map (fun x => S (f x)) l)
   <= String.length (join_comma (map g l)) + 1)%nat.
Proof.
  induction 1 as [|x l Hx Hl IH]; [simpl; lia|].
  destruct l as [|y l]; [simpl in *; lia|].
  change (join_comma (map g (x :: y :: l)))
    with (g x +:+ String "," (join_comma (map g (y :: l)))).
  rewrite length_append. simpl in *. lia.
Qed.

Lemma size_le_length (v : json) : (size v <= String.length (stringify v))%nat.
Proof.
  induction v as [| b | z | s | l IH | m IH] using json_ind.
  - simpl. lia.
  - destruct b; simpl; lia.
  - simpl. destruct (show_Z_head z) as (c & s & -> & _). simpl. lia.
  - simpl. lia.
  - simpl. rewrite length_append.
    pose proof (join_comma_length size stringify l IH). simpl. lia.
  - simpl. rewrite length_append.
    pose proof (join_comma_length (fun kv => size (snd kv))
      (fun kv => quote (fst kv) +:+ String ":" (stringify (snd kv))) m) as Hj.
    simpl. cut (list_sum (map (fun kv => S (size (snd kv))) m)
                <= String.length (join_comma (map (fun kv =>
                     quote (fst kv) +:+ String ":" (stringify (snd kv))) m)) + 1)%nat;
      [lia|].
    apply Hj. eapply Forall_impl; [exact IH|].
    intros [k x] Hx. rewrite length_append. simpl in *. lia.
Qed.

(** [JSON.parse] inverts [JSON.stringify]. *)
Lemma parse_stringify (v : json) :
  well_formed v = true -> parse (stringify v) = Some v.
Proof.
  intros Hwf. unfold parse.
  pose proof (parse_value_stringify v Hwf
                (2 * String.length (stringify v) + 2)%nat EmptyString) as Hp.
  rewrite append_empty_r in Hp. rewrite Hp; [done | | done].
  pose proof (size_le_length v). lia.
Qed.

Lemma stringify_inj (v1 v2 : json) :
  well_formed v1 = true -> well_formed v2 = true ->
  stringify v1 = stringify v2 -> v1 = v2.
Proof.
  intros H1 H2 E. apply parse_stringify in H1, H2.
  rewrite E in H1. congruence.
Qed.

(** ** Hexadecimal bodies *)

Lemma all_chars_append (p : ascii -> bool) (a b : string) :
  all_chars p (a +:+ b) = all_chars p a && all_chars p b.
Proof.
  induction a as [|c a IH]; [done|].
  rewrite append_cons. simpl. by rewrite IH, andb_assoc.
Qed.

Lemma all_chars_impl (p q : ascii -> bool) (s : string) :
  (forall c, p c = true -> q c = true) ->
  all_chars p s = true -> all_chars q s = true.
Proof.
  intros Hpq. induction s as [|c s IH]; [done|]. simpl.
  rewrite !andb_true_iff. intros [Hc Hs]. auto.
Qed.

Lemma to_hex_app (a b : list N) : JS.to_hex (a ++ b) = JS.to_hex a +:+ JS.to_hex b.
Proof.
  induction a as [|x a IH]; [done|]. simpl. by rewrite IH, append_assoc.
Qed.

Lemma strip_spaces_hex_char (c : ascii) (t : string) :
  JS.strip_spaces (JS.to_hex (JS.utf8_char c) +:+ t)
  = JS.to_hex (JS.utf8_char c) +:+ JS.strip_spaces t.
Proof. by_cases_on_char c. Qed.

Lemma strip_spaces_hex (s : string) :
  JS.strip_spaces (JS.to_hex (JS.utf8 s)) = JS.to_hex (JS.utf8 s).
Proof.
  induction s as [|c s IH]; [done|]. simpl.
  by rewrite to_hex_app, strip_spaces_hex_char, IH.
Qed.

Lemma hex_pairs_char (c : ascii) (t : string) :
  JS.is_text c = true ->
  JS.hex_pairs (JS.to_hex (JS.utf8_char c) +:+ t) = String c (JS.hex_pairs t).
Proof. by_cases_on_char c. Qed.

Lemma hex2ascii_to_hex (s : string) :
  all_chars JS.is_text s = true ->
  JS.hex2ascii (JS.to_hex (JS.utf8 s)) = s.
Proof.
  unfold JS.hex2ascii. rewrite strip_spaces_hex.
  induction s as [|c s IH]; [done|]. simpl.
  rewrite andb_true_iff. intros [Hc Hs].
  by rewrite to_hex_app, hex_pairs_char, IH.
Qed.

Lemma escape_char_text (c : ascii) :
  is_ascii c = true -> all_chars JS.is_text (escape_char c) = true.
Proof. by_cases_on_char c. Qed.

Lemma escape_text (s : string) :
  all_chars is_ascii s = true -> all_chars JS.is_text (escape s) = true.
Proof.
  induction s as [|c s IH]; [done|]. simpl.
  rewrite andb_true_iff. intros [Hc Hs].
  by rewrite all_chars_append, escape_char_text, IH.
Qed.

Lemma quote_text (s : string) :
  all_chars is_ascii s = true -> all_chars JS.is_text (quote s) = true.
Proof.
  intros Hs. unfold quote. simpl.
  by rewrite all_chars_append, escape_text.
Qed.

Lemma digit_text (c : ascii) : JS.is_digit c = true -> JS.is_text c = true.
Proof. by_cases_on_char c. Qed.

Lemma show_Z_text (z : Z) : all_chars JS.is_text (JS.show_Z z) = true.
Proof.
  destruct z as [|p|p]; simpl; [done| |];
    apply (all_chars_impl _ _ _ digit_text), show_N_digits.
Qed.

Lemma join_comma_text (parts : list string) :
  Forall (fun p => all_chars JS.is_text p = true) parts ->
  all_chars JS.is_text (join_comma parts) = true.
Proof.
  induction 1 as [|p ps Hp Hps IH]; [done|].
  destruct ps as [|q ps]; [done|].
  change (join_comma (p :: q :: ps)) with (p +:+ String "," (join_comma (q :: ps))).
  rewrite all_chars_append, Hp. simpl. exact IH.
Qed.

Lemma stringify_text (v : json) :
  ascii_only v = true -> all_chars JS.is_text (stringify v) = true.
Proof.
  induction v as [| b | z | s | l IH | m IH] using json_ind; intros Hv.
  - done.
  - by destruct b.
  - apply show_Z_text.
  - by apply quote_text.
  - simpl. rewrite all_chars_append, andb_true_r.
    apply join_comma_text, Forall_map.
    change (forallb ascii_only l = true) in Hv. rewrite forallb_forall in Hv.
    rewrite Forall_forall in IH |- *. intros x Hx.
    apply IH; [done|]. apply Hv. by apply list_elem_of_In.
  - simpl. rewrite all_chars_append, andb_true_r.
    apply join_comma_text, Forall_map.
    change (forallb (fun kv => all_chars is_ascii (fst kv) && ascii_only (snd kv))
              m = true) in Hv.
    rewrite forallb_forall in Hv.
    rewrite Forall_forall in IH |- *. intros [k x] Hx.
    specialize (Hv (k, x) ltac:(by apply list_elem_of_In)).
    apply andb_true_iff in Hv as [Hk Hv]. cbn [fst snd] in *.
    rewrite all_chars_append, quote_text; [|done].
    change (all_chars JS.is_text (String ":" (stringify x)))
      with (all_chars JS.is_text (stringify x)).
    by apply (IH (k, x)).
Qed.

Lemma decode_encode (x : json) :
  well_formed x = true -> ascii_only x = true ->
  parse (JS.hex2ascii (encode x)) = Some x.
Proof.
  intros Hwf Hascii. unfold encode.
  rewrite hex2ascii_to_hex; [by apply parse_stringify | by apply stringify_text].
Qed.

End json_facts.

(** * Facts about blocks *)

Section block_facts.
Context `{Externals}.

Lemma rest_of_generateHash (b : Block) :
  rest_of_block (generateHash b) = rest_of_block b.
Proof. done. Qed.

Lemma hashed_generateHash (b : Block) : hashed (generateHash b).
Proof. done. Qed.

Lemma generateHash_hashed (b : Block) : hashed b -> generateHash b = b.
Proof.
  destruct b as [h n s t p]. unfold hashed, generateHash, set_hash. simpl.
  by intros ->.
Qed.

Lemma validate_eq (b : Block) :
  validate b = (generateHash b, bool_decide (hashed b)).
Proof. done. Qed.

Lemma fields_of_generateHash (b : Block) :
  height (generateHash b) = height b /\ body (generateHash b) = body b /\
  time (generateHash b) = time b /\
  previousBlockHash (generateHash b) = previousBlockHash b.
Proof. done. Qed.

Lemma rest_of_block_well_formed (b : Block) :
  JSON.well_formed (rest_of_block b) = true.
Proof.
  unfold rest_of_block. by destruct (previousBlockHash b).
Qed.


Lemma rest_of_block_inj (b1 b2 : Block) :
  JSON.stringify (rest_of_block b1) = JSON.stringify (rest_of_block b2) ->
  height b1 = height b2 /\ body b1 = body b2 /\ time b1 = time b2 /\
  previousBlockHash b1 = previousBlockHash b2.
Proof.
  intros E. apply stringify_inj in E; try apply rest_of_block_well_formed.
  unfold rest_of_block in E.
  destruct (previousBlockHash b1), (previousBlockHash b2); simpl in E;
    by simplify_eq.
Qed.

End block_facts.

(** * Facts about the ledger *)

Section ledger_facts.
Context `{Externals}.

Lemma walk_unfold (fuel : nat) (bc : Blockchain) (cur : option nat)
  (log : list string) :
  walk fuel bc cur log =
  match cur with
  | None => Some (bc, log)
  | Some i =>
      match _chain bc !! i with
      | None => Some (bc, log)
      | Some b =>
          if JS.truthy (previousBlockHash b) then
            match fuel with
            | O => None
            | S fuel =>
                walk fuel (store i (generateHash b) bc)
                  (fst <$> getBlockByHash (previousBlockHash b)
                             (store i (generateHash b) bc))
                  (log ++ fault_of b)
            end
          else Some (bc, log)
      end
  end.
Proof.
  destruct fuel; [done|]. destruct cur as [i|]; [|done]. cbn [walk].
  destruct (_chain bc !! i) as [b|]; [|done].
  destruct (JS.truthy (previousBlockHash b)); [|done].
  unfold fault_of, validate. cbv zeta.
  change (bool_decide (hash b = hash (generateHash b)))
    with (bool_decide (hashed b)).
  destruct (bool_decide (hashed b)); [by rewrite app_nil_r | done].
Qed.

Lemma store_id (i : nat) (b : Block) (bc : Blockchain) :
  _chain bc !! i = Some b -> store i b bc = bc.
Proof.
  intros Hi. destruct bc as [c h]. unfold store. simpl in *.
  by rewrite list_insert_id.
Qed.

Lemma fault_of_hashed (b : Block) : hashed b -> fault_of b = [].
Proof. intros Hb. unfold fault_of. by rewrite bool_decide_eq_true_2. Qed.

(** On a consistent chain the walk changes nothing and reports nothing,
    however much fuel it is given... *)
Lemma walk_consistent_result (fuel : nat) (bc : Blockchain) :
  consistent (_chain bc) ->
  forall cur log r, walk fuel bc cur log = Some r -> r = (bc, log).
Proof.
  intros Hc. induction fuel as [|fuel IH]; intros cur log r;
    rewrite walk_unfold; destruct cur as [i|]; try congruence;
    destruct (_chain bc !! i) as [b|] eqn:Hi; try congruence;
    destruct (JS.truthy (previousBlockHash b)) eqn:Ht; try congruence.
  destruct (Hc i b Hi Ht) as [Hb _].
  rewrite generateHash_hashed, store_id, fault_of_hashed, app_nil_r by done.
  apply IH.
Qed.

(** ... and it comes to an end within as many steps as the position it
    starts from. *)
Lemma walk_consistent (fuel : nat) (bc : Blockchain) :
  consistent (_chain bc) ->
  forall (i : nat) log, (i < fuel)%nat ->
    walk fuel bc (Some i) log = Some (bc, log).
Proof.
  intros Hc. induction fuel as [|fuel IH]; intros i log Hfuel; [lia|].
  rewrite walk_unfold.
  destruct (_chain bc !! i) as [b|] eqn:Hi; [|done].
  destruct (JS.truthy (previousBlockHash b)) eqn:Ht; [|done].
  destruct (Hc i b Hi Ht) as [Hb Hfind].
  rewrite generateHash_hashed, store_id, fault_of_hashed, app_nil_r by done.
  unfold getBlockByHash.
  destruct (list_find _ (_chain bc)) as [[j b']|] eqn:Hj; simpl.
  - apply IH. specialize (Hfind j b' eq_refl). lia.
  - by rewrite walk_unfold.
Qed.

Lemma consistent_of_links (chain : list Block) :
  (forall b, chain !! 0%nat = Some b -> JS.truthy (previousBlockHash b) = false) ->
  (forall (i : nat) b b', chain !! i = Some b -> chain !! S i = Some b' ->
     previousBlockHash b' = hash b /\ hashed b') ->
  consistent chain.
Proof.
  intros Hfirst Hlink i b Hi Ht.
  destruct i as [|i]; [by rewrite (Hfirst b Hi) in Ht|].
  destruct (lookup_lt_is_Some_2 chain i) as [a Ha].
  { apply lookup_lt_Some in Hi. lia. }
  destruct (Hlink i a b Ha Hi) as [Hprev Hb]. split; [done|].
  intros j b' Hj. apply list_find_Some in Hj as (_ & _ & Hmin).
  destruct (decide (j < S i)%nat) as [|Hge]; [done|].
  exfalso. apply (Hmin i a Ha); [lia | done].
Qed.

Lemma ledger_inv_consistent (bc : Blockchain) :
  ledger_inv bc -> consistent (_chain bc).
Proof.
  intros [_ (g & Hg & Hprev) _ Hhashed Hlinked]. apply consistent_of_links.
  - intros b Hb. rewrite Hg in Hb. injection Hb as <-. by rewrite Hprev.
  - intros i b b' Hb Hb'. split; [by eapply Hlinked | by eapply Hhashed].
Qed.

Lemma getLatestBlock_inv (bc : Blockchain) :
  ledger_inv bc ->
  exists b, getLatestBlock bc = Some (Nat.pred (length (_chain bc)), b).
Proof.
  intros [Hh (g & Hg & _) Hheights _ _].
  assert (0 < length (_chain bc))%nat as Hlen by (by eapply lookup_lt_Some).
  destruct (lookup_lt_is_Some_2 (_chain bc) (Nat.pred (length (_chain bc))))
    as [b Hb]; [lia|].
  exists b. unfold getLatestBlock, getBlockByHeight.
  apply list_find_Some. split; [done|]. split.
  - rewrite (Hheights _ _ Hb). lia.
  - intros j y Hy Hj Hheight. rewrite (Hheights _ _ Hy) in Hheight. lia.
Qed.


Lemma validateChain_consistent (fuel : nat) (bc : Blockchain) (i : nat)
  (b : Block) :
  consistent (_chain bc) -> getLatestBlock bc = Some (i, b) ->
  (forall r, validateChain fuel bc = Some r -> r = (bc, Ok tt)) /\
  ((i < fuel)%nat -> validateChain fuel bc = Some (bc, Ok tt)).
Proof.
  intros Hc Hlatest. unfold validateChain. rewrite Hlatest. simpl. split.
  - intros r.
    destruct (walk fuel bc (Some i) []) as [[bc' log]|] eqn:Hw; simpl; [|done].
    apply (walk_consistent_result fuel bc Hc) in Hw. simplify_eq. congruence.
  - intros Hfuel. by rewrite walk_consistent.
Qed.

(** The block that [_addBlock] pushes, and the ledger it leaves. *)
Lemma _addBlock_inv (fuel : nat) (now : Z) (block : Block) (bc : Blockchain) :
  ledger_inv bc ->
  exists b,
    let bc1 := {| _chain := _chain bc ++ [b]; _height := _height bc + 1 |} in
    ledger_inv bc1 /\ body b = body block /\ time b = now /\
    height b = _height bc + 1 /\
    (forall r, _addBlock fuel now block bc = Some r -> r = (bc1, Ok tt)) /\
    ((length (_chain bc) < fuel)%nat ->
     _addBlock fuel now block bc = Some (bc1, Ok tt)).
Proof.
  intros Hinv. destruct (getLatestBlock_inv bc Hinv) as [l Hl].
  pose proof Hinv as [Hh (g & Hg & Hgp) Hheights Hhashed Hlinked].
  assert (0 < length (_chain bc))%nat as Hlen by (by eapply lookup_lt_Some).
  assert (_chain bc !! Nat.pred (length (_chain bc)) = Some l) as Hlast.
  { unfold getLatestBlock, getBlockByHeight in Hl.
    by apply list_find_Some in Hl as (? & _). }
  unfold _addBlock. rewrite Hl.
  replace (-1 <? _height bc) with true by (symmetry; apply Z.ltb_lt; lia).
  set (b := generateHash _). exists b. cbv zeta.
  set (bc1 := {| _chain := _chain bc ++ [b]; _height := _height bc + 1 |}).
  assert (ledger_inv bc1) as Hinv1.
  { split; simpl.
    - rewrite length_app. simpl. lia.
    - exists g. split; [|done]. by apply lookup_app_l_Some.
    - intros i x Hx. apply lookup_snoc_Some in Hx as [[_ Hx]|[-> <-]].
      + by apply Hheights.
      + simpl. lia.
    - intros i x Hx. apply lookup_snoc_Some in Hx as [[_ Hx]|[-> <-]].
      + by eapply Hhashed.
      + apply hashed_generateHash.
    - intros i x y Hx Hy.
      apply lookup_snoc_Some in Hy as [[Hlt Hy]|[Hi <-]].
      + rewrite lookup_app_l in Hx by lia. by eapply Hlinked.
      + rewrite lookup_app_l in Hx by lia.
        replace i with (Nat.pred (length (_chain bc))) in Hx by lia.
        rewrite Hlast in Hx. by injection Hx as <-. }
  split; [done|]. split; [done|]. split; [done|]. split; [done|].
  assert (getLatestBlock bc1 = Some (length (_chain bc), b)) as Hl1.
  { destruct (getLatestBlock_inv bc1 Hinv1) as [x Hx].
    rewrite Hx. unfold bc1 in *. simpl in *. rewrite length_app in *. simpl in *.
    replace (Nat.pred (length (_chain bc) + 1)) with (length (_chain bc)) in * by lia.
    unfold getLatestBlock, getBlockByHeight in Hx.
    apply list_find_Some in Hx as (Hx & _). simpl in Hx.
    rewrite lookup_app_r, Nat.sub_diag in Hx by lia. by injection Hx as <-. }
  apply (validateChain_consistent fuel bc1 _ b); [|done].
  by apply ledger_inv_consistent.
Qed.

Lemma new_Blockchain_eq (fuel : nat) (now : Z) :
  let g := generateHash (set_time now (set_height 0 (new_Block genesis_data))) in
  new_Blockchain fuel now = Some ({| _chain := [g]; _height := 0 |}, Ok tt).
Proof.
  unfold new_Blockchain, initializeChain, _addBlock, validateChain. simpl.
  by rewrite walk_unfold.
Qed.

Lemma ledger_inv_genesis (now : Z) :
  ledger_inv
    {| _chain := [generateHash (set_time now (set_height 0 (new_Block genesis_data)))];
       _height := 0 |}.
Proof.
  assert (hashed (generateHash (set_time now (set_height 0 (new_Block genesis_data)))))
    as Hg by apply hashed_generateHash.
  assert (forall (i : nat) (g b : Block), [g] !! i = Some b -> i = 0%nat /\ b = g)
    as Hone.
  { intros [|i] g b Hb; simpl in Hb; [by simplify_eq | done]. }
  set (g := generateHash _) in *.
  split; cbn [_chain _height].
  - done.
  - by exists g.
  - by intros i b [-> ->]%Hone.
  - by intros i b [-> ->]%Hone.
  - by intros i b b' _ [? _]%Hone.
Qed.

Lemma submitStar_unfold (fuel : nat) (now now' : Z)
  (address message signature : string) (star : JSON.json) (bc : Blockchain) :
  submitStar fuel now now' address message signature star bc =
  if negb (ValidTime now (Message.time (Message.parse message)))
  then Some (bc, Throw (Error "Message is too old!"))
  else if negb (verify message address signature)
  then Some (bc, Throw (Error "Message is invalid!"))
  else
    '(bc', r) ← _addBlock fuel now' (new_Block (star_data address star)) bc;
    match r with
    | Throw e => Some (bc', Throw e)
    | Ok _ =>
        match _chain bc' !! length (_chain bc) with
        | Some b => Some (bc', Ok b)
        | None => None
        end
    end.
Proof. done. Qed.

Lemma reachable_inv (bc : Blockchain) : reachable bc -> ledger_inv bc.
Proof.
  induction 1 as [fuel now bc r Hnew
                 |fuel now now' address message signature star bc bc' r _ IH Hs
                 |fuel bc bc' r _ IH Hv].
  - rewrite new_Blockchain_eq in Hnew. simplify_eq. apply ledger_inv_genesis.
  - rewrite submitStar_unfold in Hs.
    destruct (negb (ValidTime _ _)); [by simplify_eq|].
    destruct (negb (verify _ _ _)); [by simplify_eq|].
    destruct (_addBlock_inv fuel now' (new_Block (star_data address star)) bc IH)
      as (b & Hinv & _ & _ & _ & Hres & _).
    destruct (_addBlock _ _ _ _) as [[bc1 r1]|] eqn:Ha; [|done].
    specialize (Hres _ eq_refl). simplify_eq. simpl in Hs.
    rewrite lookup_app_r, Nat.sub_diag in Hs by lia. simpl in Hs.
    by simplify_eq.
  - destruct (getLatestBlock_inv bc IH) as [l Hl].
    destruct (validateChain_consistent fuel bc _ l
                (ledger_inv_consistent bc IH) Hl) as [Hres _].
    specialize (Hres _ Hv). by simplify_eq.
Qed.

End ledger_facts.

Section walk_facts.
Context `{Externals}.

(** ** The walk over a chain whose bodies may have been rewritten *)

Lemma faults_upto_insert (chain : list Block) (i j : nat) (x : Block) :
  (j < i)%nat -> faults_upto (<[i := x]> chain) j = faults_upto chain j.
Proof.
  intros Hj. induction j as [|j IH]; [done|]. simpl.
  rewrite list_lookup_insert_ne by lia. rewrite IH by lia. done.
Qed.

Lemma heal_upto_0 (chain : list Block) : heal_upto 0 chain = chain.
Proof.
  apply list_eq. intros j. unfold heal_upto. rewrite list_lookup_imap.
  destruct (chain !! j) as [b|]; [|done]. simpl.
  rewrite bool_decide_eq_false_2; [done | lia].
Qed.

Lemma heal_upto_step (chain : list Block) (i : nat) (b : Block) :
  chain !! S i = Some b ->
  heal_upto i (<[S i := generateHash b]> chain) = heal_upto (S i) chain.
Proof.
  intros Hb. apply list_eq. intros j. unfold heal_upto.
  rewrite !list_lookup_imap.
  destruct (decide (j = S i)) as [->|Hne].
  - rewrite list_lookup_insert_eq by (by eapply lookup_lt_Some).
    rewrite Hb. simpl.
    rewrite bool_decide_eq_false_2 by lia.
    rewrite bool_decide_eq_true_2 by lia. done.
  - rewrite list_lookup_insert_ne by done.
    destruct (chain !! j) as [x|]; [|done]. simpl.
    destruct (decide (1 <= j <= i)%nat).
    + rewrite !bool_decide_eq_true_2 by lia. done.
    + rewrite !bool_decide_eq_false_2 by lia. done.
Qed.

Lemma walkable_take (chain : list Block) (n : nat) :
  walkable chain -> walkable (take n chain).
Proof.
  intros [Hfirst Hlink Hdistinct]. split.
  - intros b [Hb _]%lookup_take_Some. by apply Hfirst.
  - intros i b b' [Hb _]%lookup_take_Some [Hb' _]%lookup_take_Some.
    by eapply Hlink.
  - intros i j b b' [Hb _]%lookup_take_Some [Hb' _]%lookup_take_Some.
    by eapply Hdistinct.
Qed.

Lemma walk_walkable (i : nat) :
  forall (fuel : nat) (bc : Blockchain) (log : list string),
    walkable (take (S i) (_chain bc)) ->
    (i < length (_chain bc))%nat -> (i <= fuel)%nat ->
    walk fuel bc (Some i) log
    = Some ({| _chain := heal_upto i (_chain bc); _height := _height bc |},
            log ++ faults_upto (_chain bc) i).
Proof.
  induction i as [|i IH]; intros fuel bc log Hw Hlen Hfuel.
  - destruct (lookup_lt_is_Some_2 _ _ Hlen) as [b Hb].
    rewrite walk_unfold, Hb.
    rewrite (walkable_first _ Hw b); [|by rewrite lookup_take_lt by lia].
    rewrite heal_upto_0, app_nil_r. by destruct bc.
  - destruct (lookup_lt_is_Some_2 _ _ Hlen) as [b Hb].
    destruct (lookup_lt_is_Some_2 (_chain bc) i) as [a Ha]; [lia|].
    destruct (walkable_link _ Hw i a b) as [Hprev Ht];
      [by rewrite lookup_take_lt by lia | by rewrite lookup_take_lt by lia |].
    destruct fuel as [|fuel]; [lia|].
    rewrite walk_unfold, Hb, Hprev, Ht.
    set (bc1 := store (S i) (generateHash b) bc).
    assert (getBlockByHash (hash a) bc1 = Some (i, a)) as ->.
    { apply list_find_Some. simpl. split; [|split; [done|]].
      - rewrite list_lookup_insert_ne by lia. done.
      - intros j y Hy Hj Hhash.
        rewrite list_lookup_insert_ne in Hy by lia.
        assert (j = i); [|lia].
        apply (walkable_distinct _ Hw j i y a); [| |done];
          by rewrite lookup_take_lt by lia. }
    simpl. rewrite IH.
    + unfold bc1. simpl. rewrite heal_upto_step by done.
      rewrite faults_upto_insert by lia. rewrite Hb. simpl.
      by rewrite <- app_assoc.
    + unfold bc1. simpl. rewrite take_insert_ge by lia.
      replace (take (S i) (_chain bc))
        with (take (S i) (take (S (S i)) (_chain bc))).
      * by apply walkable_take.
      * rewrite take_take. f_equal. lia.
    + unfold bc1. simpl. rewrite length_insert. lia.
    + lia.
Qed.

Lemma validateChain_walkable (fuel : nat) (bc : Blockchain) (i : nat)
  (b : Block) :
  walkable (_chain bc) -> getLatestBlock bc = Some (i, b) -> (i <= fuel)%nat ->
  validateChain fuel bc
  = Some ({| _chain := heal_upto i (_chain bc); _height := _height bc |},
          result_of (faults_upto (_chain bc) i)).
Proof.
  intros Hw Hl Hfuel. unfold validateChain. rewrite Hl. simpl.
  rewrite walk_walkable; [| by apply walkable_take | | done].
  - simpl. by destruct (faults_upto (_chain bc) i).
  - apply list_find_Some in Hl as (Hi & _). by eapply lookup_lt_Some.
Qed.

Lemma elem_of_faults_upto (chain : list Block) (i j : nat) (x : Block) :
  (1 <= j <= i)%nat -> chain !! j = Some x -> ~ hashed x ->
  invalid_message (generateHash x) ∈ faults_upto chain i.
Proof.
  intros Hj Hx Hnot. induction i as [|i IH]; [lia|]. simpl.
  apply elem_of_app. destruct (decide (j = S i)) as [->|Hne].
  - left. rewrite Hx. simpl. unfold fault_of.
    rewrite bool_decide_eq_false_2 by done. constructor.
  - right. apply IH. lia.
Qed.

End walk_facts.

(** ** Shapes, rewritten bodies and accepted submissions *)

Section more_ledger_facts.
Context `{Externals}.

Lemma getLatestBlock_heights (bc : Blockchain) :
  _height bc = Z.of_nat (length (_chain bc)) - 1 ->
  (0 < length (_chain bc))%nat ->
  (forall (i : nat) b, _chain bc !! i = Some b -> height b = Z.of_nat i) ->
  exists b, _chain bc !! Nat.pred (length (_chain bc)) = Some b /\
            getLatestBlock bc = Some (Nat.pred (length (_chain bc)), b).
Proof.
  intros Hh Hlen Hheights.
  destruct (lookup_lt_is_Some_2 (_chain bc) (Nat.pred (length (_chain bc))))
    as [b Hb]; [lia|].
  exists b. split; [done|]. unfold getLatestBlock, getBlockByHeight.
  apply list_find_Some. split; [done|]. split.
  - rewrite (Hheights _ _ Hb). lia.
  - intros j y Hy Hj Hheight. rewrite (Hheights _ _ Hy) in Hheight. lia.
Qed.

Lemma walk_shape (fuel : nat) :
  forall bc cur log bc' log',
    walk fuel bc cur log = Some (bc', log') ->
    length (_chain bc') = length (_chain bc) /\ _height bc' = _height bc.
Proof.
  induction fuel as [|fuel IH]; intros bc cur log bc' log';
    rewrite walk_unfold.
  - destruct cur as [i|]; [|by intros [= <- _]].
    destruct (_chain bc !! i) as [b|]; [|by intros [= <- _]].
    destruct (JS.truthy (previousBlockHash b)); [done | by intros [= <- _]].
  - destruct cur as [i|]; [|by intros [= <- _]].
    destruct (_chain bc !! i) as [b|]; [|by intros [= <- _]].
    destruct (JS.truthy (previousBlockHash b)); [|by intros [= <- _]].
    intros Hw. apply IH in Hw as [-> ->]. simpl. by rewrite length_insert.
Qed.

Lemma validateChain_shape (fuel : nat) (bc bc' : Blockchain) (r : result unit) :
  validateChain fuel bc = Some (bc', r) ->
  length (_chain bc') = length (_chain bc) /\ _height bc' = _height bc.
Proof.
  unfold validateChain.
  destruct (walk fuel bc _ _) as [[bc1 log]|] eqn:Hw; [|done]. simpl.
  apply walk_shape in Hw. destruct log; by intros [= <- _].
Qed.

Lemma _addBlock_shape (fuel : nat) (now : Z) (block : Block)
  (bc bc' : Blockchain) (r : result unit) :
  _addBlock fuel now block bc = Some (bc', r) ->
  length (_chain bc') = S (length (_chain bc)) /\ _height bc' = _height bc + 1.
Proof.
  unfold _addBlock. intros [-> ->]%validateChain_shape. simpl.
  rewrite length_app. simpl. split; [lia | done].
Qed.

Lemma walkable_rewritten (bc : Blockchain) (chain' : list Block) :
  ledger_inv bc ->
  hashes_distinct (_chain bc) -> hashes_nonempty (_chain bc) ->
  bodies_rewritten (_chain bc) chain' ->
  walkable chain'.
Proof.
  intros [_ (g & Hg & Hgp) Hheights Hhashed Hlinked] Hdistinct Hne Hrw.
  assert (forall (i : nat) b', chain' !! i = Some b' ->
            exists b, _chain bc !! i = Some b /\ hash b' = hash b /\
                      previousBlockHash b' = previousBlockHash b) as Hback.
  { intros i b' Hb'.
    destruct (Forall2_lookup_r _ _ _ _ _ Hrw Hb') as (b & Hb & ->). eauto. }
  split.
  - intros b' (b & Hb & _ & ->)%Hback. rewrite Hg in Hb. injection Hb as <-.
    by rewrite Hgp.
  - intros i a' b' (a & Ha & Hha & _)%Hback (b & Hb & _ & Hpb)%Hback.
    rewrite Hpb, Hha, (Hlinked i a b Ha Hb). split; [done|].
    pose proof (Hne a ltac:(by eapply list_elem_of_lookup_2)) as Hnonempty.
    pose proof (Hhashed i a Ha) as Hsome. unfold hashed in Hsome.
    destruct (hash a) as [[|c s]|]; done.
  - intros i j a' b' (a & Ha & Hha & _)%Hback (b & Hb & Hhb & _)%Hback Heq.
    rewrite Hha, Hhb in Heq. by eapply Hdistinct.
Qed.

(** [validateChain] on a reachable ledger whose bodies were overwritten:
    every block after the first is rehashed, and the errors thrown are the
    reports on the blocks that no longer match their hash, all of them,
    from the latest block back to the second. *)
Lemma validateChain_rewritten (fuel : nat) (bc : Blockchain)
  (chain' : list Block) :
  reachable bc ->
  hashes_distinct (_chain bc) -> hashes_nonempty (_chain bc) ->
  bodies_rewritten (_chain bc) chain' ->
  (length (_chain bc) <= fuel)%nat ->
  let last := Nat.pred (length chain') in
  validateChain fuel {| _chain := chain'; _height := _height bc |}
  = Some ({| _chain := heal_upto last chain'; _height := _height bc |},
          result_of (faults_upto chain' last)) /\
  forall (j : nat) x,
    (0 < j)%nat -> chain' !! j = Some x -> ~ hashed x ->
    invalid_message (generateHash x) ∈ faults_upto chain' last.
Proof.
  intros Hreach Hdistinct Hne Hrw Hfuel last.
  pose proof (reachable_inv bc Hreach) as Hinv.
  pose proof (walkable_rewritten bc _ Hinv Hdistinct Hne Hrw) as Hw.
  pose proof (Forall2_length _ _ _ Hrw) as Hlen.
  destruct (inv_genesis bc Hinv) as (g & Hg & _).
  pose proof (lookup_lt_Some _ _ _ Hg) as Hpos.
  destruct (getLatestBlock_heights {| _chain := chain'; _height := _height bc |})
    as (l & _ & Hl); simpl.
  { rewrite <- Hlen. apply (inv_height bc Hinv). }
  { lia. }
  { intros j y Hy.
    destruct (Forall2_lookup_r _ _ _ _ _ Hrw Hy) as (x & Hx & ->).
    apply (inv_heights bc Hinv j x Hx). }
  simpl in Hl. split.
  - rewrite (validateChain_walkable fuel
               {| _chain := chain'; _height := _height bc |} _ l Hw Hl);
      [done|]. lia.
  - intros j x Hj Hx Hstale. apply (elem_of_faults_upto chain' last j x);
      [|done|done].
    apply lookup_lt_Some in Hx. unfold last. lia.
Qed.

(** A digest without collision and never empty gives every reachable
    ledger distinct, non-empty hashes. *)
Lemma collision_free_hashes (bc : Blockchain) :
  (forall s1 s2, SHA256 s1 = SHA256 s2 -> s1 = s2) ->
  (forall s, SHA256 s <> EmptyString) ->
  reachable bc ->
  hashes_distinct (_chain bc) /\ hashes_nonempty (_chain bc).
Proof.
  intros Hinj Hne Hreach. pose proof (reachable_inv bc Hreach) as Hinv.
  split.
  - intros i j x y Hx Hy Heq.
    rewrite (inv_hashed bc Hinv i x Hx), (inv_hashed bc Hinv j y Hy) in Heq.
    apply (inj Some), Hinj, rest_of_block_inj in Heq as (Hh & _).
    rewrite (inv_heights bc Hinv i x Hx), (inv_heights bc Hinv j y Hy) in Hh.
    lia.
  - intros x [i Hx]%list_elem_of_lookup.
    rewrite (inv_hashed bc Hinv i x Hx). intros [= E]. by apply Hne in E.
Qed.

(** Such a digest also tells a block from the same block with another
    body. *)
Lemma collision_free_bodies (b : Block) (newBody : string) :
  (forall s1 s2, SHA256 s1 = SHA256 s2 -> s1 = s2) ->
  newBody <> body b ->
  SHA256 (JSON.stringify (rest_of_block (set_body newBody b)))
    <> SHA256 (JSON.stringify (rest_of_block b)).
Proof.
  intros Hinj Hbody Heq.
  apply Hinj, rest_of_block_inj in Heq as (_ & Hb & _). by apply Hbody.
Qed.

(** A [submitStar] that passes both checks on a reachable ledger, with
    fuel for the walk, pushes one block and answers with it. *)
Lemma submitStar_appends (fuel : nat) (now now' : Z)
  (address message signature : string) (star : JSON.json) (bc : Blockchain) :
  reachable bc ->
  ValidTime now (Message.time (Message.parse message)) = true ->
  verify message address signature = true ->
  (length (_chain bc) < fuel)%nat ->
  exists b,
    submitStar fuel now now' address message signature star bc
    = Some ({| _chain := _chain bc ++ [b]; _height := _height bc + 1 |}, Ok b) /\
    body b = encode (star_data address star) /\ time b = now' /\
    height b = _height bc + 1.
Proof.
  intros Hreach Ht Hv Hfuel. rewrite submitStar_unfold, Ht, Hv. simpl.
  destruct (_addBlock_inv fuel now' (new_Block (star_data address star)) bc
              (reachable_inv bc Hreach)) as (b & _ & Hb & Htime & Hh & _ & Hres).
  exists b. rewrite (Hres Hfuel). simpl.
  rewrite lookup_app_r, Nat.sub_diag by lia. done.
Qed.

Lemma faults_upto_single (chain : list Block) (k : nat) (x : Block) (i : nat) :
  chain !! k = Some x ->
  (forall (j : nat) y, j <> k -> chain !! j = Some y -> hashed y) ->
  faults_upto chain i
  = if bool_decide (1 <= k <= i)%nat then fault_of x else [].
Proof.
  intros Hx Hothers. induction i as [|i IH].
  - simpl. rewrite bool_decide_eq_false_2; [done | lia].
  - simpl. rewrite IH. destruct (decide (k = S i)) as [->|Hne].
    + rewrite Hx. simpl.
      rewrite bool_decide_eq_false_2 by lia.
      rewrite bool_decide_eq_true_2 by lia. by rewrite app_nil_r.
    + assert (from_option fault_of [] (chain !! S i) = []) as ->.
      { destruct (chain !! S i) as [y|] eqn:Hy; [|done]. simpl.
        apply fault_of_hashed. by apply (Hothers (S i)). }
      simpl. destruct (decide (1 <= k <= i)%nat).
      * rewrite !bool_decide_eq_true_2 by lia. done.
      * rewrite !bool_decide_eq_false_2 by lia. done.
Qed.

Lemma heal_upto_single (chain : list Block) (k : nat) (x : Block) (i : nat) :
  chain !! k = Some x -> (1 <= k <= i)%nat ->
  (forall (j : nat) y, j <> k -> chain !! j = Some y -> hashed y) ->
  heal_upto i chain = <[k := generateHash x]> chain.
Proof.
  intros Hx Hk Hothers. apply list_eq. intros j. unfold heal_upto.
  rewrite list_lookup_imap. destruct (decide (j = k)) as [->|Hne].
  - rewrite list_lookup_insert_eq by (by eapply lookup_lt_Some).
    rewrite Hx. simpl. by rewrite bool_decide_eq_true_2.
  - rewrite list_lookup_insert_ne by done.
    destruct (chain !! j) as [y|] eqn:Hy; [|done]. simpl.
    destruct (bool_decide _); [|done].
    f_equal. apply generateHash_hashed. by apply (Hothers j).
Qed.

(** The reports of the walk, read off the chain from its last block back
    to its second. *)
Lemma faults_upto_reports (chain : list Block) (i : nat) :
  faults_upto chain i
  = concat (map fault_of (reverse (take i (drop 1 chain)))).
Proof.
  induction i as [|i IH]; [done|]. simpl faults_upto. rewrite IH.
  destruct (chain !! S i) as [x|] eqn:Hx; simpl.
  - assert (drop 1 chain !! i = Some x) as Hd by (by rewrite lookup_drop).
    by rewrite (take_S_r _ _ _ Hd), reverse_snoc.
  - apply lookup_ge_None in Hx.
    by rewrite !take_ge by (rewrite length_drop; lia).
Qed.

End more_ledger_facts.

(** * The properties of the specification *)

Section properties.
Context `{Externals}.

(** C1. The specification accepts a challenge while [now - issuedTime] is
    at most 300 seconds and rejects it afterwards. [submitStar] does the
    opposite: a challenge of that age is refused as too old, whatever the
    signature, and an older one is never refused as too old. *)
Theorem submitStar_rejects_fresh_challenge (fuel : nat) (now now' : Z)
  (address message signature : string) (star : JSON.json) (bc : Blockchain)
  (issuedTime : Z) :
  Message.time (Message.parse message) = JS.Num issuedTime ->
  (now - issuedTime <= 300 ->
   submitStar fuel now now' address message signature star bc
   = Some (bc, Throw (Error "Message is too old!"))) /\
  (300 < now - issuedTime ->
   forall bc' r,
     submitStar fuel now now' address message signature star bc = Some (bc', r) ->
     r <> Throw (Error "Message is too old!")).
Proof.
  intros Ht. rewrite submitStar_unfold, Ht. unfold ValidTime. simpl. split.
  - intros Hage. by rewrite (proj2 (Z.ltb_ge _ _) Hage).
  - intros Hage bc' r. rewrite (proj2 (Z.ltb_lt _ _) Hage). simpl.
    destruct (negb (verify _ _ _)); [by intros [= _ <-]|].
    destruct (_addBlock _ _ _ _) as [[bc1 r1]|] eqn:Ha; [|done]. simpl.
    destruct r1 as [u|e].
    + destruct (_ !! _); [by intros [= _ <-] | done].
    + intros [= _ <-] [= ->].
      unfold _addBlock, validateChain in Ha.
      destruct (walk _ _ _ _) as [[? log]|]; [|done]. simpl in Ha.
      by destruct log.
Qed.

(** C2. The specification has the walk report a broken chain when the
    block named by [previousBlockHash] is not found. [validateChain] does
    not: on the demo ledger with the body of block 1 overwritten, a first
    call reports block 1 and leaves it rehashed; from then on the latest
    block points at a hash that no block carries, and a second call
    settles without error. *)
Theorem dangling_link_not_reported :
  (exists errors,
     @validateChain demo_externals 3 demo_tampered
     = Some (demo_after_report, Throw (InvalidChainError errors))) /\
  match getLatestBlock demo_after_report with
  | Some (_, latest) =>
      JS.truthy (previousBlockHash latest) = true /\
      getBlockByHash (previousBlockHash latest) demo_after_report = None
  | None => False
  end /\
  @validateChain demo_externals 3 demo_after_report
  = Some (demo_after_report, Ok tt).
Proof.
  split; [|split].
  - eexists. vm_compute. reflexivity.
  - vm_compute. done.
  - by vm_compute.
Qed.

(** C3. Take a reachable ledger whose stored hashes are pairwise distinct
    and non-empty, and overwrite the body of a block other than the first
    with a body that the digest tells apart from the old one. Then
    [validateChain] throws an [InvalidChainError] whose list of errors is
    exactly [Block <digest> is invalid!], with the digest of that block
    as it stands, which is the hash the call leaves in it. When the
    bodies of any number of blocks were overwritten, the list thrown
    holds that report for every block after the first whose hash does
    not match, from the latest block back to the second, and nothing
    else. *)
Theorem tamper_detection (bc : Blockchain) (k : nat) (b : Block)
  (newBody : string) (fuel : nat) :
  reachable bc ->
  hashes_distinct (_chain bc) -> hashes_nonempty (_chain bc) ->
  (0 < k)%nat -> _chain bc !! k = Some b ->
  SHA256 (JSON.stringify (rest_of_block (set_body newBody b)))
    <> SHA256 (JSON.stringify (rest_of_block b)) ->
  (length (_chain bc) <= fuel)%nat ->
  let digest := fun x : Block => SHA256 (JSON.stringify (rest_of_block x)) in
  let report := fun x : Block => "Block " +:+ digest x +:+ " is invalid!" in
  let b' := set_hash (Some (digest (set_body newBody b))) (set_body newBody b) in
  validateChain fuel (mutate_body k newBody bc)
  = Some ({| _chain := <[k := b']> (_chain bc); _height := _height bc |},
          Throw (InvalidChainError [report (set_body newBody b)])) /\
  forall chain' : list Block,
    bodies_rewritten (_chain bc) chain' ->
    validateChain fuel {| _chain := chain'; _height := _height bc |}
    = Some ({| _chain := heal_upto (Nat.pred (length chain')) chain';
               _height := _height bc |},
            result_of
              (concat
                 (map (fun x => if bool_decide (hash x = Some (digest x))
                                then [] else [report x])
                    (reverse (drop 1 chain'))))).
Proof.
  intros Hreach Hdistinct Hne Hk Hb Hdigest Hfuel digest report b'.
  pose proof (reachable_inv bc Hreach) as Hinv.
  pose proof (lookup_lt_Some _ _ _ Hb) as Hklen.
  split.
  - set (x := set_body newBody b).
    set (chain' := alter (set_body newBody) k (_chain bc)).
    assert (length chain' = length (_chain bc)) as Hlen by apply length_alter.
    assert (chain' !! k = Some x) as Hx.
    { unfold chain'. by rewrite list_lookup_alter_eq, Hb. }
    assert (forall (j : nat) y, j <> k -> chain' !! j = Some y -> hashed y)
      as Hothers.
    { intros j y Hj. unfold chain'.
      rewrite list_lookup_alter_ne by done. apply (inv_hashed bc Hinv). }
    assert (~ hashed x) as Hstale.
    { unfold hashed. change (hash x) with (hash b).
      rewrite (inv_hashed bc Hinv k b Hb). intros Heq.
      apply (inj Some) in Heq. by apply Hdigest. }
    assert (bodies_rewritten (_chain bc) chain') as Hrw.
    { apply Forall2_same_length_lookup. split; [done|]. intros j y y' Hy.
      unfold chain'. destruct (decide (j = k)) as [->|Hj].
      - rewrite list_lookup_alter_eq, Hy. simpl. by intros [= <-].
      - rewrite list_lookup_alter_ne, Hy by done. intros [= <-].
        by destruct y. }
    destruct (validateChain_rewritten fuel bc chain' Hreach Hdistinct Hne Hrw
                Hfuel) as [Hrun _].
    change (mutate_body k newBody bc)
      with {| _chain := chain'; _height := _height bc |}.
    rewrite Hrun, (faults_upto_single _ k x), (heal_upto_single _ k x)
      by (done || lia).
    rewrite bool_decide_eq_true_2 by lia.
    unfold fault_of. rewrite bool_decide_eq_false_2 by done.
    change (invalid_message (generateHash x)) with (report x).
    change (generateHash x) with b'. simpl.
    do 3 f_equal. apply list_eq. intros j. unfold chain'.
    destruct (decide (j = k)) as [->|Hj].
    + rewrite !list_lookup_insert_eq; [done | lia | rewrite length_alter; lia].
    + rewrite !list_lookup_insert_ne by done. by rewrite list_lookup_alter_ne.
  - intros chain' Hrw.
    destruct (validateChain_rewritten fuel bc chain' Hreach Hdistinct Hne Hrw
                Hfuel) as [Hrun _].
    rewrite Hrun, faults_upto_reports.
    by rewrite take_ge by (rewrite length_drop; lia).
Qed.

(** Linkage when no two calls overlap. In every reachable ledger, where
    each call has settled before the next is made, each block after the
    first points at the hash of the block before it and carries its own
    position as height, and the ledger height is the number of blocks
    minus one; a further [submitStar] keeps every stored block as it
    is. *)
Theorem linkage_invariant (bc : Blockchain) :
  reachable bc ->
  (forall (i : nat) b b',
     _chain bc !! i = Some b -> _chain bc !! S i = Some b' ->
     previousBlockHash b' = hash b /\ height b' = Z.of_nat (S i)) /\
  _height bc = Z.of_nat (length (_chain bc)) - 1 /\
  (forall fuel now now' address message signature star bc' r,
     submitStar fuel now now' address message signature star bc = Some (bc', r) ->
     _chain bc `prefix_of` _chain bc').
Proof.
  intros Hreach. pose proof (reachable_inv bc Hreach) as Hinv.
  destruct Hinv as [Hh _ Hheights _ Hlinked]. split; [|split; [done|]].
  - intros i b b' Hb Hb'. split; [by eapply Hlinked | by apply Hheights].
  - intros fuel now now' address message signature star bc' r.
    rewrite submitStar_unfold.
    destruct (negb (ValidTime _ _)); [by intros [= <- _]|].
    destruct (negb (verify _ _ _)); [by intros [= <- _]|].
    destruct (_addBlock_inv fuel now' (new_Block (star_data address star)) bc
                (reachable_inv bc Hreach)) as (b & _ & _ & _ & _ & Hres & _).
    destruct (_addBlock _ _ _ _) as [[bc1 r1]|] eqn:Ha; [|done].
    specialize (Hres _ eq_refl). injection Hres as -> ->. simpl.
    rewrite lookup_app_r, Nat.sub_diag by lia. simpl.
    intros [= <- _]. simpl. by apply prefix_app_r.
Qed.

(** C5. A ledger whose construction has settled has height 0 and holds
    exactly one block; that block has no previous hash, and [getBData] on
    it answers [null] whatever its body holds. *)
Theorem genesis_invariant (fuel : nat) (now : Z) :
  exists g,
    new_Blockchain fuel now = Some ({| _chain := [g]; _height := 0 |}, Ok tt) /\
    previousBlockHash g = None /\ height g = 0 /\
    forall newBody, getBData (set_body newBody g) = Ok JSON.JNull.
Proof.
  eexists. split; [apply new_Blockchain_eq|]. done.
Qed.

(** C6. A [submitStar] that fails the time check or the signature check
    settles with an error and leaves the ledger as it was; one that passes
    both leaves a ledger with exactly one more block and a height one
    higher, and on a reachable ledger it does settle, with the block it
    pushed at the end of the chain. *)
Theorem submitStar_atomic (fuel : nat) (now now' : Z)
  (address message signature : string) (star : JSON.json) (bc : Blockchain) :
  (ValidTime now (Message.time (Message.parse message)) = false ->
   submitStar fuel now now' address message signature star bc
   = Some (bc, Throw (Error "Message is too old!"))) /\
  (ValidTime now (Message.time (Message.parse message)) = true ->
   verify message address signature = false ->
   submitStar fuel now now' address message signature star bc
   = Some (bc, Throw (Error "Message is invalid!"))) /\
  (ValidTime now (Message.time (Message.parse message)) = true ->
   verify message address signature = true ->
   forall bc' r,
     submitStar fuel now now' address message signature star bc = Some (bc', r) ->
     length (_chain bc') = S (length (_chain bc)) /\
     _height bc' = _height bc + 1) /\
  (ValidTime now (Message.time (Message.parse message)) = true ->
   verify message address signature = true ->
   reachable bc -> (length (_chain bc) < fuel)%nat ->
   exists b,
     submitStar fuel now now' address message signature star bc
     = Some ({| _chain := _chain bc ++ [b]; _height := _height bc + 1 |},
             Ok b)).
Proof.
  split; [|split; [|split]]; rewrite ?submitStar_unfold.
  - by intros ->.
  - by intros -> ->.
  - intros -> -> bc' r. simpl.
    destruct (_addBlock _ _ _ _) as [[bc1 r1]|] eqn:Ha; [|done]. simpl.
    apply _addBlock_shape in Ha.
    destruct r1; [destruct (_ !! _)|]; by intros [= <- _].
  - intros Ht Hv Hreach Hfuel.
    destruct (submitStar_appends fuel now now' address message signature star
                bc Hreach Ht Hv Hfuel) as (b & Hb & _).
    by exists b.
Qed.

(** C7. [generateHash] stores the digest of the serialization of height,
    body, time and previousBlockHash, in that order; the hash field does
    not enter it, computing it again changes nothing, and two blocks have
    the same serialization exactly when they agree on the four fields. *)
Theorem generateHash_domain (b : Block) :
  hash (generateHash b)
  = Some (SHA256 (JSON.stringify
       (JSON.JObj [ ("height", JSON.JNum (height b));
                    ("body", JSON.JStr (body b));
                    ("time", JSON.JNum (time b));
                    ("previousBlockHash", nullable (previousBlockHash b)) ]))) /\
  (forall h, generateHash (set_hash h b) = generateHash b) /\
  generateHash (generateHash b) = generateHash b /\
  (forall b',
     JSON.stringify (rest_of_block b) = JSON.stringify (rest_of_block b') <->
     height b = height b' /\ body b = body b' /\ time b = time b' /\
     previousBlockHash b = previousBlockHash b').
Proof.
  split; [done|]. split; [done|]. split; [done|].
  intros b'. split; [apply rest_of_block_inj|].
  unfold rest_of_block. by intros (-> & -> & -> & ->).
Qed.

(** The round trip on ASCII. A payload whose strings and property names
    are all ASCII is read back by [getBData] from a block built on it,
    once the block has a height other than 0. *)
Theorem body_round_trip_ascii (x : JSON.json) (h : Z) :
  JSON.well_formed x = true -> JSON.ascii_only x = true -> h <> 0 ->
  getBData (set_height h (new_Block x)) = Ok x.
Proof.
  intros Hwf Hascii Hh. unfold getBData. simpl.
  rewrite (proj2 (Z.eqb_neq h 0) Hh). by rewrite decode_encode.
Qed.

(** An example beyond ASCII: a payload holding U+00E9 comes back with
    the two characters U+00C3 U+00A9 in its place, because the body holds
    the UTF-8 bytes of the payload and [hex2ascii] turns every byte into
    a character of its own. *)
Lemma body_round_trip_fails_beyond_ascii :
  getBData (set_height 1 (new_Block demo_accented))
  = Ok (JSON.JObj
          [("data", JSON.JStr (String (JS.chr 195) (String (JS.chr 169) EmptyString)))])
  /\ getBData (set_height 1 (new_Block demo_accented)) <> Ok demo_accented.
Proof. split; [by vm_compute | by vm_compute]. Qed.

(** C9. The walk of [validateChain] stops at the block without previous
    hash before validating it: overwriting the body of the first block of
    a reachable ledger leaves [validateChain] without anything to report,
    and the ledger, stale hash included, as it was. *)
Theorem genesis_not_validated (bc : Blockchain) (newBody : string)
  (fuel : nat) :
  reachable bc -> (length (_chain bc) <= fuel)%nat ->
  validateChain fuel (mutate_body 0 newBody bc)
  = Some (mutate_body 0 newBody bc, Ok tt).
Proof.
  intros Hreach Hfuel. pose proof (reachable_inv bc Hreach) as Hinv.
  destruct Hinv as [Hh (g & Hg & Hgp) Hheights Hhashed Hlinked].
  assert (0 < length (_chain bc))%nat as Hlen by (by eapply lookup_lt_Some).
  set (bc' := mutate_body 0 newBody bc).
  assert (forall (i : nat) b', _chain bc' !! i = Some b' ->
            exists b, _chain bc !! i = Some b /\ hash b' = hash b /\
                      previousBlockHash b' = previousBlockHash b /\
                      height b' = height b /\ (i <> 0%nat -> b' = b)) as Hback.
  { intros i b'. unfold bc', mutate_body. simpl.
    destruct (decide (i = 0%nat)) as [->|Hi].
    - rewrite list_lookup_alter_eq, Hg. simpl. intros [= <-]. by exists g.
    - rewrite list_lookup_alter_ne by done. intros Hb. by exists b'. }
  destruct (getLatestBlock_heights bc') as (l & _ & Hl).
  { unfold bc', mutate_body. simpl. by rewrite length_alter. }
  { unfold bc', mutate_body. simpl. by rewrite length_alter. }
  { intros i b' (b & Hb & _ & _ & -> & _)%Hback. by apply Hheights. }
  assert (consistent (_chain bc')) as Hcons.
  { apply consistent_of_links.
    - intros b' (b & Hb & _ & -> & _)%Hback. rewrite Hg in Hb.
      injection Hb as <-. by rewrite Hgp.
    - intros i a' b' (a & Ha & -> & _)%Hback (b & Hb & _ & _ & _ & ->)%Hback;
        [|done]. split; [by eapply Hlinked | by eapply Hhashed]. }
  destruct (validateChain_consistent fuel bc' _ l Hcons Hl) as [_ Htotal].
  apply Htotal. unfold bc', mutate_body. simpl. rewrite length_alter. lia.
Qed.

(** C10. Every block stored in a reachable ledger has a hash, so
    [getBlockByHash] finds nothing for [null], nor for any hash that no
    stored block carries. *)
Theorem stored_hashes_non_null (bc : Blockchain) :
  reachable bc ->
  (forall b, b ∈ _chain bc -> hash b <> None) /\
  getBlockByHash None bc = None /\
  (forall h, (forall b, b ∈ _chain bc -> hash b <> h) ->
             getBlockByHash h bc = None).
Proof.
  intros Hreach. pose proof (reachable_inv bc Hreach) as Hinv.
  assert (forall b, b ∈ _chain bc -> hash b <> None) as Hsome.
  { intros b [i Hb]%list_elem_of_lookup.
    by rewrite (inv_hashed bc Hinv i b Hb). }
  assert (forall h, (forall b, b ∈ _chain bc -> hash b <> h) ->
                    getBlockByHash h bc = None) as Hnone.
  { intros h Hh. apply list_find_None, Forall_forall. exact Hh. }
  split; [done|]. split; [by apply Hnone | done].
Qed.

End properties.

(** * The properties on the demo ledger *)

Lemma tag_digest_inj (s1 s2 : string) : tag_digest s1 = tag_digest s2 -> s1 = s2.
Proof. by intros [= ->]. Qed.

Lemma tag_digest_nonempty (s : string) : tag_digest s <> EmptyString.
Proof. done. Qed.

Lemma reachable_state_of `{Externals} (fuel : nat) (now now' : Z)
  (address message signature : string) (star : JSON.json) (bc : Blockchain) :
  reachable bc ->
  submitStar fuel now now' address message signature star bc <> None ->
  reachable (state_of (submitStar fuel now now' address message signature star bc)).
Proof.
  intros Hreach Hsome.
  destruct (submitStar _ _ _ _ _ _ _ _) as [[bc' r]|] eqn:Hs; [|done].
  by eapply reachable_submit.
Qed.

Lemma demo_ledger_reachable : @reachable demo_externals demo_ledger.
Proof.
  unfold demo_ledger. cbv zeta.
  apply reachable_state_of; [apply reachable_state_of|]; try by vm_compute.
  by eapply (@reachable_new demo_externals 0 500).
Qed.

Lemma submitStar_rejects_fresh_challenge_witness :
  @submitStar demo_externals 3 700 701 "alice" demo_message
    ("signed:" +:+ demo_message) (demo_star "third") demo_ledger
  = Some (demo_ledger, Throw (Error "Message is too old!")) /\
  (forall bc' r,
     @submitStar demo_externals 3 901 902 "alice" demo_message
       ("signed:" +:+ demo_message) (demo_star "third") demo_ledger
     = Some (bc', r) ->
     r <> Throw (Error "Message is too old!")).
Proof.
  split.
  - apply (@submitStar_rejects_fresh_challenge demo_externals 3 700 701
             "alice" demo_message ("signed:" +:+ demo_message)
             (demo_star "third") demo_ledger 600); [reflexivity | lia].
  - apply (@submitStar_rejects_fresh_challenge demo_externals 3 901 902
             "alice" demo_message ("signed:" +:+ demo_message)
             (demo_star "third") demo_ledger 600); [reflexivity | lia].
Defined.

Lemma tamper_detection_witness :
  let digest := fun x : Block => tag_digest (JSON.stringify (rest_of_block x)) in
  let report := fun x : Block => "Block " +:+ digest x +:+ " is invalid!" in
  let b' := set_hash (Some (digest (set_body "00" demo_block1)))
              (set_body "00" demo_block1) in
  @validateChain demo_externals 3 (mutate_body 1 "00" demo_ledger)
  = Some ({| _chain := <[1%nat := b']> (_chain demo_ledger);
             _height := _height demo_ledger |},
          Throw (InvalidChainError [report (set_body "00" demo_block1)])) /\
  @validateChain demo_externals 3
    {| _chain := demo_rewritten; _height := _height demo_ledger |}
  = Some ({| _chain := @heal_upto demo_externals 2 demo_rewritten;
             _height := _height demo_ledger |},
          Throw (InvalidChainError
                   [report (set_body "ff" demo_block2);
                    report (set_body "00" demo_block1)])).
Proof.
  destruct (@collision_free_hashes demo_externals demo_ledger
              tag_digest_inj tag_digest_nonempty demo_ledger_reachable)
    as [Hdistinct Hnonempty].
  assert (@bodies_rewritten (_chain demo_ledger) demo_rewritten) as Hrw.
  { unfold bodies_rewritten. vm_compute. repeat constructor. }
  pose proof (@tamper_detection demo_externals demo_ledger 1 demo_block1 "00" 3
                demo_ledger_reachable Hdistinct Hnonempty) as Hthm.
  cbv zeta in Hthm. destruct Hthm as [Hone Hall].
  - lia.
  - by vm_compute.
  - apply (@collision_free_bodies demo_externals); [exact tag_digest_inj|].
    vm_compute. discriminate.
  - vm_compute. lia.
  - split; [exact Hone|]. rewrite (Hall demo_rewritten Hrw).
    vm_compute. reflexivity.
Defined.

Lemma linkage_invariant_witness :
  (forall (i : nat) b b',
     _chain demo_ledger !! i = Some b -> _chain demo_ledger !! S i = Some b' ->
     previousBlockHash b' = hash b /\ height b' = Z.of_nat (S i)) /\
  _height demo_ledger = Z.of_nat (length (_chain demo_ledger)) - 1.
Proof.
  destruct (@linkage_invariant demo_externals demo_ledger demo_ledger_reachable)
    as (Hlinks & Hheight & _).
  split; [exact Hlinks | exact Hheight].
Defined.

Lemma submitStar_atomic_witness :
  @submitStar demo_externals 3 700 701 "alice" demo_message
    ("signed:" +:+ demo_message) (demo_star "third") demo_ledger
  = Some (demo_ledger, Throw (Error "Message is too old!")) /\
  @submitStar demo_externals 3 3000 3001 "alice" demo_message
    "forged" (demo_star "third") demo_ledger
  = Some (demo_ledger, Throw (Error "Message is invalid!")) /\
  (forall bc' r,
     @submitStar demo_externals 3 3000 3001 "alice" demo_message
       ("signed:" +:+ demo_message) (demo_star "third") demo_ledger
     = Some (bc', r) ->
     length (_chain bc') = 4%nat /\ _height bc' = 3) /\
  (exists b,
     @submitStar demo_externals 4 3000 3001 "alice" demo_message
       ("signed:" +:+ demo_message) (demo_star "third") demo_ledger
     = Some ({| _chain := _chain demo_ledger ++ [b];
                _height := _height demo_ledger + 1 |}, Ok b)).
Proof.
  split; [|split; [|split]].
  - apply (@submitStar_atomic demo_externals 3 700 701 "alice"
             demo_message ("signed:" +:+ demo_message)
             (demo_star "third") demo_ledger).
    reflexivity.
  - apply (@submitStar_atomic demo_externals 3 3000 3001 "alice"
             demo_message "forged" (demo_star "third") demo_ledger);
      reflexivity.
  - apply (@submitStar_atomic demo_externals 3 3000 3001 "alice"
             demo_message ("signed:" +:+ demo_message)
             (demo_star "third") demo_ledger); reflexivity.
  - apply (@submitStar_atomic demo_externals 4 3000 3001 "alice"
             demo_message ("signed:" +:+ demo_message)
             (demo_star "third") demo_ledger);
      [reflexivity | reflexivity | exact demo_ledger_reachable |].
    vm_compute. lia.
Defined.

Lemma body_round_trip_ascii_witness :
  getBData (set_height 1 (new_Block (star_data "alice" (demo_star "first"))))
  = Ok (star_data "alice" (demo_star "first")).
Proof.
  apply body_round_trip_ascii; [reflexivity | reflexivity | lia].
Defined.

Lemma genesis_not_validated_witness :
  @validateChain demo_externals 3 (mutate_body 0 "00" demo_ledger)
  = Some (mutate_body 0 "00" demo_ledger, Ok tt).
Proof.
  apply (@genesis_not_validated demo_externals demo_ledger "00" 3).
  - exact demo_ledger_reachable.
  - vm_compute. lia.
Defined.

Lemma stored_hashes_non_null_witness :
  (forall b, b ∈ _chain demo_ledger -> hash b <> None) /\
  getBlockByHash None demo_ledger = None.
Proof.
  destruct (@stored_hashes_non_null demo_externals demo_ledger
              demo_ledger_reachable) as (Hsome & Hnull & _).
  split; [exact Hsome | exact Hnull].
Defined.

(** * Further facts: the clock and the challenge message *)

(** ** Decimal numerals by value *)

Lemma uint_of_digits (s : string) :
  JSON.all_chars JS.is_digit s = true ->
  exists d,
    NilEmpty.uint_of_string s = Some d /\
    (forall acc : positive,
       Npos (Pos.of_uint_acc d acc) = digits_value (Npos acc) s) /\
    Pos.of_uint d = digits_value 0 s.
Proof.
  induction s as [|c s IH]; intros Hs.
  - exists Decimal.Nil. done.
  - simpl in Hs. apply andb_true_iff in Hs as [Hc Hs].
    destruct (IH Hs) as (d & Hd & Hacc & Hval).
    simpl NilEmpty.uint_of_string. rewrite Hd.
    revert Hc. destruct c as [[] [] [] [] [] [] [] []]; try discriminate;
      intros _; (eexists; split; [reflexivity|]);
      cbn [Pos.of_uint_acc Pos.of_uint digits_value]; split;
      first [ exact Hval | exact (Hacc _)
            | intros acc; rewrite Hacc; f_equal;
              change (digit_value _) with (N.pos ltac:(assumption)); lia
            | intros acc; rewrite Hacc; f_equal; vm_compute digit_value; lia ].
Qed.

Lemma digits_to_N_value (s : string) :
  JSON.all_chars JS.is_digit s = true -> s <> EmptyString ->
  JS.digits_to_N s = Some (digits_value 0 s).
Proof.
  intros Hs Hne. destruct (uint_of_digits s Hs) as (d & Hd & _ & Hval).
  unfold JS.digits_to_N. destruct s; [done|]. rewrite Hd.
  change (Some (N.of_uint d) = Some (digits_value 0 (String a s))).
  f_equal. exact Hval.
Qed.

Lemma digits_value_acc (s : string) (acc : N) :
  (digits_value acc s = acc * 10 ^ N.of_nat (String.length s) + digits_value 0 s)%N.
Proof.
  revert acc. induction s as [|c s IH]; intros acc; simpl digits_value.
  - simpl. lia.
  - rewrite IH, (IH (10 * 0 + digit_value c)%N).
    change (String.length (String c s)) with (S (String.length s)).
    rewrite Nat2N.inj_succ, N.pow_succ_r'. lia.
Qed.

Lemma digits_value_bound (s : string) :
  JSON.all_chars JS.is_digit s = true ->
  (digits_value 0 s < 10 ^ N.of_nat (String.length s))%N.
Proof.
  induction s as [|c s IH]; intros Hs; [simpl; lia|].
  simpl in Hs. apply andb_true_iff in Hs as [Hc Hs]. specialize (IH Hs).
  simpl digits_value. rewrite digits_value_acc.
  change (String.length (String c s)) with (S (String.length s)).
  rewrite Nat2N.inj_succ, N.pow_succ_r'.
  assert (digit_value c <= 9)%N.
  { unfold digit_value, JS.is_digit in *.
    apply andb_true_iff in Hc as [_ Hc%N.leb_le]. lia. }
  nia.
Qed.

Lemma digits_value_append (s t : string) (acc : N) :
  digits_value acc (s +:+ t) = digits_value (digits_value acc s) t.
Proof.
  revert acc. induction s as [|c s IH]; intros acc; [done|].
  rewrite append_cons. simpl. apply IH.
Qed.

(** ** Taking and dropping characters *)

Lemma substring_drop (n : nat) (s : string) :
  s = String.substring 0 n s +:+ drop_chars n s.
Proof.
  revert s. induction n as [|n IH]; intros [|c s]; simpl; try done.
  rewrite append_cons. by rewrite <- IH.
Qed.

Lemma substring_digits (n : nat) (s : string) :
  JSON.all_chars JS.is_digit s = true ->
  JSON.all_chars JS.is_digit (String.substring 0 n s) = true /\
  JSON.all_chars JS.is_digit (drop_chars n s) = true.
Proof.
  revert s. induction n as [|n IH]; intros [|c s]; simpl; try done.
  rewrite !andb_true_iff. intros [Hc Hs]. destruct (IH s Hs). done.
Qed.

Lemma drop_chars_length (n : nat) (s : string) :
  String.length (drop_chars n s) = (String.length s - n)%nat.
Proof.
  revert s. induction n as [|n IH]; intros [|c s]; simpl; auto with lia.
Qed.

(** ** [getTimeInSeconds] *)

Lemma to_number_digits (s : string) :
  JSON.all_chars JS.is_digit s = true ->
  JS.to_number s = JS.Num (Z.of_N (digits_value 0 s)).
Proof.
  intros Hs. destruct s as [|c s]; [done|].
  unfold JS.to_number.
  assert (JS.is_digit c = true) as Hc
    by (simpl in Hs; by apply andb_true_iff in Hs as [? _]).
  destruct (digit_not_special c Hc) as [_ HF].
  assert (Ascii.eqb c "-" = false) as ->.
  { by repeat (apply Forall_cons in HF as [? HF]). }
  assert (Ascii.eqb c "+" = false) as ->.
  { revert Hc. clear. by_cases_on_char c. }
  pose proof (take_digits_app (String c s) EmptyString Hs I) as Ht.
  rewrite append_empty_r in Ht. rewrite Ht.
  rewrite digits_to_N_value by done. f_equal. lia.
Qed.

Lemma show_N_value (n : N) : digits_value 0 (JS.show_N n) = n.
Proof.
  pose proof (digits_to_N_show n) as Hshow.
  rewrite digits_to_N_value in Hshow; [congruence | apply show_N_digits |].
  unfold JS.show_N. pose proof (to_uint_nonnil n).
  by destruct (N.to_uint n).
Qed.

Lemma show_Z_nonneg (z : Z) : 0 <= z -> JS.show_Z z = JS.show_N (Z.to_N z).
Proof. destruct z as [|p|p]; [done | done | lia]. Qed.

(** X1. For a clock that is not negative, [getTimeInSeconds] is the clock
    divided by 1000, rounded down: cutting the last three digits off the
    decimal numeral drops the milliseconds, and a clock below one second
    gives the empty string, which reads as 0. *)
Theorem getTimeInSeconds_whole_seconds (clock : Z) :
  0 <= clock -> getTimeInSeconds clock = JS.Num (clock / 1000).
Proof.
  intros Hclock. unfold getTimeInSeconds, slice_0_m3.
  rewrite (show_Z_nonneg clock Hclock).
  set (n := Z.to_N clock). set (s := JS.show_N n).
  set (k := (String.length s - 3)%nat).
  pose proof (substring_drop k s) as Hsplit.
  destruct (substring_digits k s (show_N_digits n)) as [Hp Ht].
  pose proof (drop_chars_length k s) as Hlen.
  set (p := String.substring 0 k s) in *. set (t := drop_chars k s) in *.
  rewrite (to_number_digits p Hp). f_equal.
  assert (n = digits_value 0 p * 10 ^ N.of_nat (String.length t)
              + digits_value 0 t)%N as Hn.
  { rewrite <- (show_N_value n). fold s. rewrite Hsplit at 1.
    by rewrite digits_value_append, digits_value_acc. }
  pose proof (digits_value_bound t Ht) as Hbound.
  assert (Z.of_N (digits_value 0 p) = Z.of_N (n / 1000)) as ->.
  { f_equal. destruct (decide (3 <= String.length s)%nat) as [Hge|Hlt].
    - replace (String.length t) with 3%nat in * by lia.
      change (10 ^ N.of_nat 3)%N with 1000%N in *.
      apply (N.div_unique n 1000 _ (digits_value 0 t)); lia.
    - assert (k = 0%nat) as Hk by lia.
      assert (p = EmptyString) as Hempty.
      { unfold p. rewrite Hk. by destruct s. }
      rewrite Hempty in *. simpl in Hn |- *.
      assert (10 ^ N.of_nat (String.length t) <= 100)%N.
      { assert (String.length t <= 2)%nat as Hle by lia.
        destruct (String.length t) as [|[|[|?]]]; simpl; lia. }
      symmetry. apply N.div_small. lia. }
  rewrite N2Z.inj_div. unfold n. rewrite Z2N.id by done. done.
Qed.

(** ** The challenge message *)

Lemma split_colon_plain (s : string) :
  JSON.all_chars no_colon s = true -> JS.split_colon s = [s].
Proof.
  induction s as [|c s IH]; [done|]. simpl.
  rewrite andb_true_iff. intros [Hc Hs]. unfold no_colon in Hc.
  apply negb_true_iff in Hc. by rewrite Hc, IH.
Qed.

Lemma split_colon_field (a r : string) :
  JSON.all_chars no_colon a = true ->
  JS.split_colon (a +:+ String ":" r) = a :: JS.split_colon r.
Proof.
  induction a as [|c a IH]; [done|]. rewrite append_cons. simpl.
  rewrite andb_true_iff. intros [Hc Ha]. unfold no_colon in Hc.
  apply negb_true_iff in Hc. by rewrite Hc, IH.
Qed.

Lemma digit_no_colon (c : ascii) : JS.is_digit c = true -> no_colon c = true.
Proof. by_cases_on_char c. Qed.

Lemma show_Z_no_colon (z : Z) : JSON.all_chars no_colon (JS.show_Z z) = true.
Proof.
  destruct z as [|p|p]; simpl; [done| |];
    apply (all_chars_impl _ _ _ digit_no_colon), show_N_digits.
Qed.

Lemma to_number_show_Z (z : Z) : JS.to_number (JS.show_Z z) = JS.Num z.
Proof.
  destruct z as [|p|p].
  - done.
  - simpl JS.show_Z. rewrite to_number_digits by apply show_N_digits.
    by rewrite show_N_value.
  - simpl JS.show_Z. unfold JS.to_number.
    change (Ascii.eqb "-" "-") with true. cbv iota beta.
    pose proof (take_digits_app (JS.show_N (N.pos p)) EmptyString
                  (show_N_digits _) I) as Ht.
    rewrite append_empty_r in Ht. rewrite Ht, digits_to_N_show. done.
Qed.

Lemma parse_fields (a : string) (n : JS.number) :
  JSON.all_chars no_colon a = true ->
  Message.parse
    (a +:+ ":" +:+ Message.show_number n +:+ ":starRegistry")
  = {| Message.address := a; Message.time := n |}.
Proof.
  intros Ha. unfold Message.parse.
  change (a +:+ ":" +:+ Message.show_number n +:+ ":starRegistry")
    with (a +:+ String ":" (Message.show_number n +:+ String ":" "starRegistry")).
  rewrite split_colon_field by done.
  destruct n as [|z]; [done|]. simpl Message.show_number.
  rewrite split_colon_field by apply show_Z_no_colon.
  by rewrite to_number_show_Z.
Qed.

(** X2. [parse] reads back what [toString] wrote: for a message whose
    address holds no colon, parsing its string form gives the same
    address and the same time, [NaN] included. *)
Theorem parse_toString (m : Message.BlockMessage) :
  JSON.all_chars no_colon (Message.address m) = true ->
  Message.parse (Message.toString m) = m.
Proof.
  intros Ha. unfold Message.toString. rewrite parse_fields by done.
  by destruct m.
Qed.

(** * Further properties of the ledger *)

Section further_properties.
Context `{Externals}.

Lemma reachable_height_nonneg (bc : Blockchain) :
  reachable bc -> 0 <= _height bc.
Proof.
  intros Hinv%reachable_inv. destruct (inv_genesis bc Hinv) as (g & Hg & _).
  apply lookup_lt_Some in Hg. rewrite (inv_height bc Hinv). lia.
Qed.

(** X3. A challenge issued by [requestMessageOwnershipVerification] for an
    address without colon, submitted with a signature that verifies once
    it is more than 300 seconds old, adds a block at the next height whose
    body [getBData] decodes to the owner and the star (ASCII payload),
    stamped with the clock reading of the append. *)
Theorem issued_challenge_submission (fuel : nat) (issued now now' : Z)
  (address signature : string) (star : JSON.json) (bc : Blockchain) :
  reachable bc ->
  JSON.all_chars no_colon address = true ->
  JSON.all_chars JSON.is_ascii address = true ->
  JSON.well_formed star = true -> JSON.ascii_only star = true ->
  verify (requestMessageOwnershipVerification issued address) address signature
    = true ->
  300 < now - issued ->
  (length (_chain bc) < fuel)%nat ->
  exists b,
    submitStar fuel now now' address
      (requestMessageOwnershipVerification issued address) signature star bc
    = Some ({| _chain := _chain bc ++ [b]; _height := _height bc + 1 |}, Ok b) /\
    getBData b = Ok (star_data address star) /\
    height b = _height bc + 1 /\ time b = now'.
Proof.
  intros Hreach Hcolon Hascii Hwf Hstar Hverify Hage Hfuel.
  assert (ValidTime now
            (Message.time
               (Message.parse (requestMessageOwnershipVerification issued address)))
          = true) as Htime.
  { unfold requestMessageOwnershipVerification.
    unfold Message.toString. rewrite parse_fields by done. simpl. by apply Z.ltb_lt. }
  destruct (submitStar_appends fuel now now' address _ signature star bc
              Hreach Htime Hverify Hfuel) as (b & Hsub & Hbody & Hb_time & Hb_h).
  exists b. split; [done|]. split; [|done].
  unfold getBData. rewrite Hb_h, Hbody.
  pose proof (reachable_height_nonneg bc Hreach).
  rewrite (proj2 (Z.eqb_neq _ 0)) by lia.
  rewrite decode_encode; [done | |].
  - simpl. by rewrite Hwf.
  - simpl. by rewrite Hascii, Hstar.
Qed.

(** X4. A message without colon has no time field: its time reads as
    [NaN], and [submitStar] rejects it as too old at every clock reading,
    whatever the signature, leaving the ledger as it was. *)
Theorem submitStar_rejects_message_without_time (fuel : nat) (now now' : Z)
  (address message signature : string) (star : JSON.json) (bc : Blockchain) :
  JSON.all_chars no_colon message = true ->
  submitStar fuel now now' address message signature star bc
  = Some (bc, Throw (Error "Message is too old!")).
Proof.
  intros Hm. rewrite submitStar_unfold. unfold Message.parse.
  by rewrite split_colon_plain.
Qed.

Lemma getBlockByHeight_at (bc : Blockchain) (i : nat) (b : Block) :
  ledger_inv bc -> _chain bc !! i = Some b ->
  getBlockByHeight (Z.of_nat i) bc = Some (i, b).
Proof.
  intros Hinv Hb. apply list_find_Some. split; [done|]. split.
  - by apply (inv_heights bc Hinv).
  - intros j y Hy Hj Hh. rewrite (inv_heights bc Hinv j y Hy) in Hh. lia.
Qed.

(** X5. In a reachable ledger [getBlockByHeight] answers with the block at
    that position for every height from 0 to the ledger height, with
    [null] for any other height, and [getLatestBlock] answers with the
    last block of the chain. *)
Theorem getBlockByHeight_position (bc : Blockchain) :
  reachable bc ->
  (forall (i : nat) b,
     _chain bc !! i = Some b -> getBlockByHeight (Z.of_nat i) bc = Some (i, b)) /\
  (forall h, h < 0 \/ _height bc < h -> getBlockByHeight h bc = None) /\
  snd <$> getLatestBlock bc = last (_chain bc).
Proof.
  intros Hinv%reachable_inv. split; [|split].
  - intros i b Hb. by apply getBlockByHeight_at.
  - intros h Hh. apply list_find_None, Forall_forall.
    intros b [i Hb]%list_elem_of_lookup.
    rewrite (inv_heights bc Hinv i b Hb).
    apply lookup_lt_Some in Hb. rewrite (inv_height bc Hinv) in Hh. lia.
  - destruct (getLatestBlock_inv bc Hinv) as [l Hl]. rewrite Hl. simpl.
    apply list_find_Some in Hl as (Hl & _). by rewrite last_lookup.
Qed.

(** X6. The block that an accepted [submitStar] on a reachable ledger
    answers with is the one that [getBlockByHeight] finds under its
    height, at the end of the chain. [getBlockByHash] under its hash finds
    the first block that carries that hash: the new block itself when no
    earlier block of the chain has its hash, which a digest without
    collision on the chain provides. *)
Theorem submitted_block_found (fuel : nat) (now now' : Z)
  (address message signature : string) (star : JSON.json) (bc : Blockchain) :
  reachable bc ->
  ValidTime now (Message.time (Message.parse message)) = true ->
  verify message address signature = true ->
  (length (_chain bc) < fuel)%nat ->
  exists b bc',
    submitStar fuel now now' address message signature star bc
    = Some (bc', Ok b) /\
    getBlockByHeight (height b) bc' = Some (length (_chain bc), b) /\
    (exists (i : nat) x,
       getBlockByHash (hash b) bc' = Some (i, x) /\
       hash x = hash b /\ (i <= length (_chain bc))%nat) /\
    ((forall x, x ∈ _chain bc -> hash x <> hash b) ->
     getBlockByHash (hash b) bc' = Some (length (_chain bc), b)).
Proof.
  intros Hreach Htime Hverify Hfuel.
  destruct (submitStar_appends fuel now now' address message signature star bc
              Hreach Htime Hverify Hfuel) as (b & Hsub & _ & _ & Hb_h).
  set (bc' := {| _chain := _chain bc ++ [b]; _height := _height bc + 1 |}) in *.
  exists b, bc'. split; [done|].
  assert (reachable bc') as Hreach' by (by eapply reachable_submit).
  assert (_chain bc' !! length (_chain bc) = Some b) as Hb.
  { unfold bc'. simpl. by rewrite lookup_app_r, Nat.sub_diag by lia. }
  split; [|split].
  - rewrite Hb_h, (inv_height bc (reachable_inv bc Hreach)).
    replace (Z.of_nat (length (_chain bc)) - 1 + 1)
      with (Z.of_nat (length (_chain bc))) by lia.
    apply getBlockByHeight_at; [by apply reachable_inv | done].
  - destruct (getBlockByHash (hash b) bc') as [[i x]|] eqn:Hfind.
    + exists i, x. split; [done|].
      apply list_find_Some in Hfind as (Hx & Hhash & Hmin). split; [done|].
      destruct (decide (i <= length (_chain bc))%nat) as [|Hgt]; [done|].
      exfalso. apply (Hmin (length (_chain bc)) b); [done | lia | done].
    + exfalso. apply list_find_None in Hfind.
      rewrite Forall_forall in Hfind. apply (Hfind b); [|done].
      by eapply list_elem_of_lookup_2.
  - intros Hfresh. apply list_find_Some. split; [done|]. split; [done|].
    intros j y Hy Hj. apply Hfresh.
    unfold bc' in Hy. simpl in Hy. rewrite lookup_app_l in Hy by done.
    by eapply list_elem_of_lookup_2.
Qed.

(** X7. [validateChain] on a reachable ledger resolves without error and
    leaves the ledger as it was. *)
Theorem validateChain_untampered (fuel : nat) (bc : Blockchain) :
  reachable bc -> (length (_chain bc) <= fuel)%nat ->
  validateChain fuel bc = Some (bc, Ok tt).
Proof.
  intros Hinv%reachable_inv Hfuel.
  destruct (getLatestBlock_inv bc Hinv) as [l Hl].
  destruct (validateChain_consistent fuel bc _ l
              (ledger_inv_consistent bc Hinv) Hl) as [_ Htotal].
  apply Htotal. destruct (inv_genesis bc Hinv) as (g & Hg & _).
  apply lookup_lt_Some in Hg. lia.
Qed.

(** X8. When no block carries the ledger height, as in a ledger without
    blocks, [validateChain] throws an [InvalidChainError] with the single
    error that the latest block was not found, and walks nothing. *)
Theorem validateChain_no_latest (fuel : nat) (bc : Blockchain) :
  (forall b, b ∈ _chain bc -> height b <> _height bc) ->
  validateChain fuel bc
  = Some (bc, Throw (InvalidChainError ["Latest block not found!"])).
Proof.
  intros Hnone. unfold validateChain.
  assert (getLatestBlock bc = None) as ->.
  { apply list_find_None, Forall_forall. exact Hnone. }
  simpl. by rewrite walk_unfold.
Qed.

(** X9. [initializeChain] on a reachable ledger does nothing: the genesis
    block is created once. *)
Theorem initializeChain_once (fuel : nat) (now : Z) (bc : Blockchain) :
  reachable bc -> initializeChain fuel now bc = Some (bc, Ok tt).
Proof.
  intros Hh%reachable_height_nonneg. unfold initializeChain.
  by rewrite (proj2 (Z.eqb_neq _ (-1))) by lia.
Qed.

(** ** [getStarsByWalletAddress] *)

Lemma getBData_throws (b : Block) (e : exn) :
  getBData b = Throw e -> e = SyntaxError.
Proof.
  unfold getBData. destruct (height b =? 0); [done|].
  destruct (JSON.parse _); [done|]. by intros [= <-].
Qed.

Lemma stars_of_snoc (address : string) (chain : list Block) (b : Block)
  (l : list JSON.json) :
  stars_of address chain = Ok l ->
  stars_of address (chain ++ [b])
  = match getBData b with
    | Throw e => Throw e
    | Ok d => Ok (l ++ if owner_is address d then [d] else [])
    end.
Proof.
  revert l. induction chain as [|x chain IH]; intros l; simpl.
  - intros [= <-]. destruct (getBData b) as [d|e]; [|done].
    by destruct (owner_is address d).
  - destruct (getBData x) as [dx|ex]; [|done].
    destruct (stars_of address chain) as [stars|e] eqn:Hs; [|done].
    intros [= <-]. rewrite (IH stars eq_refl).
    destruct (getBData b) as [d|e]; [|done].
    by destruct (owner_is address dx).
Qed.

(** X10. After an accepted [submitStar] of an ASCII payload into a
    reachable ledger, [getStarsByWalletAddress] answers, for the owner,
    with what it answered before followed by the new owner and star, and
    for any other address with what it answered before. *)
Theorem getStarsByWalletAddress_after_submit (fuel : nat) (now now' : Z)
  (address message signature query : string) (star : JSON.json)
  (bc : Blockchain) (stars : list JSON.json) :
  reachable bc ->
  ValidTime now (Message.time (Message.parse message)) = true ->
  verify message address signature = true ->
  (length (_chain bc) < fuel)%nat ->
  JSON.all_chars JSON.is_ascii address = true ->
  JSON.well_formed star = true -> JSON.ascii_only star = true ->
  getStarsByWalletAddress query bc = Ok stars ->
  exists b,
    submitStar fuel now now' address message signature star bc
    = Some ({| _chain := _chain bc ++ [b]; _height := _height bc + 1 |}, Ok b) /\
    getStarsByWalletAddress query
      {| _chain := _chain bc ++ [b]; _height := _height bc + 1 |}
    = Ok (if String.eqb address query
          then stars ++ [star_data address star] else stars).
Proof.
  intros Hreach Htime Hverify Hfuel Hascii Hwf Hstar Hstars.
  destruct (submitStar_appends fuel now now' address message signature star bc
              Hreach Htime Hverify Hfuel) as (b & Hsub & Hbody & _ & Hb_h).
  exists b. split; [done|].
  unfold getStarsByWalletAddress in *. simpl.
  rewrite (stars_of_snoc query _ b stars Hstars).
  assert (getBData b = Ok (star_data address star)) as ->.
  { unfold getBData. rewrite Hb_h, Hbody.
    pose proof (reachable_height_nonneg bc Hreach).
    rewrite (proj2 (Z.eqb_neq _ 0)) by lia.
    rewrite decode_encode; [done | |]; simpl.
    - by rewrite Hwf.
    - by rewrite Hascii, Hstar. }
  assert (owner_is query (star_data address star) = String.eqb address query)
    as -> by done.
  destruct (String.eqb address query); [done | by rewrite app_nil_r].
Qed.

(** X11. [getStarsByWalletAddress] passes over every block of height 0
    without reading its body: removing such a block from the chain does
    not change the answer, for any address. *)
Theorem getStarsByWalletAddress_skips_height_0 (address : string)
  (before after : list Block) (b : Block) (h h' : Z) :
  height b = 0 ->
  getStarsByWalletAddress address
    {| _chain := before ++ b :: after; _height := h |}
  = getStarsByWalletAddress address
      {| _chain := before ++ after; _height := h' |}.
Proof.
  intros Hb. unfold getStarsByWalletAddress. simpl.
  induction before as [|x before IH]; simpl.
  - unfold getBData. rewrite Hb. simpl.
    by destruct (stars_of address after).
  - by rewrite IH.
Qed.

(** X12. One stored block whose body does not decode makes
    [getStarsByWalletAddress] throw the syntax error for every address,
    also when the block belongs to somebody else. *)
Theorem getStarsByWalletAddress_corrupt_body (address : string)
  (bc : Blockchain) (b : Block) (e : exn) :
  b ∈ _chain bc -> getBData b = Throw e ->
  getStarsByWalletAddress address bc = Throw SyntaxError.
Proof.
  intros Hin Hb. unfold getStarsByWalletAddress.
  induction (_chain bc) as [|x chain IH]; [by apply elem_of_nil in Hin|].
  simpl. destruct (getBData x) as [d|ex] eqn:Hx.
  - apply elem_of_cons in Hin as [->|Hin]; [congruence|].
    by rewrite (IH Hin).
  - by rewrite (getBData_throws x ex Hx).
Qed.

Lemma walk_only_rehashes (fuel : nat) :
  forall bc cur log bc' log',
    walk fuel bc cur log = Some (bc', log') ->
    Forall2 (fun b b' => b' = b \/ b' = generateHash b) (_chain bc) (_chain bc').
Proof.
  assert (forall c : list Block,
            Forall2 (fun b b' => b' = b \/ b' = generateHash b) c c) as Hrefl.
  { intros c. apply Forall2_same_length_lookup. split; [done|].
    intros i x y Hx Hy. left. congruence. }
  induction fuel as [|fuel IH]; intros bc cur log bc' log';
    rewrite walk_unfold.
  - destruct cur as [i|]; [|by intros [= <- _]].
    destruct (_chain bc !! i) as [b|]; [|by intros [= <- _]].
    destruct (JS.truthy (previousBlockHash b)); [done | by intros [= <- _]].
  - destruct cur as [i|]; [|by intros [= <- _]].
    destruct (_chain bc !! i) as [b|] eqn:Hb; [|by intros [= <- _]].
    destruct (JS.truthy (previousBlockHash b)); [|by intros [= <- _]].
    intros Hw%IH. simpl in Hw.
    apply Forall2_same_length_lookup.
    apply Forall2_same_length_lookup in Hw as [Hlen Hw].
    rewrite length_insert in Hlen. split; [done|].
    intros j x y Hx Hy. destruct (decide (j = i)) as [->|Hj].
    + rewrite Hb in Hx. injection Hx as <-.
      destruct (Hw i (generateHash b) y) as [->| ->]; [|done|by right|by right].
      apply list_lookup_insert_eq. by eapply lookup_lt_Some.
    + apply (Hw j x y); [|done]. by rewrite list_lookup_insert_ne.
Qed.

Lemma validateChain_rehashes (fuel : nat) (bc bc' : Blockchain)
  (r : result unit) :
  validateChain fuel bc = Some (bc', r) ->
  Forall2 (fun b b' => b' = b \/ b' = generateHash b) (_chain bc) (_chain bc').
Proof.
  intros Hv. unfold validateChain in Hv.
  destruct (walk fuel bc _ _) as [[bc1 log]|] eqn:Hw; [|done]. simpl in Hv.
  apply walk_only_rehashes in Hw. by destruct log; simplify_eq.
Qed.

(** X13. [validateChain] only ever rewrites hashes: whatever it answers,
    the ledger it leaves has the same height and as many blocks, and each
    block agrees with the one that was there on height, body, time and
    previous hash; its hash is the old one or the recomputed one. *)
Theorem validateChain_only_rehashes (fuel : nat) (bc bc' : Blockchain)
  (r : result unit) :
  validateChain fuel bc = Some (bc', r) ->
  _height bc' = _height bc /\
  length (_chain bc') = length (_chain bc) /\
  forall (i : nat) b b',
    _chain bc !! i = Some b -> _chain bc' !! i = Some b' ->
    height b' = height b /\ body b' = body b /\ time b' = time b /\
    previousBlockHash b' = previousBlockHash b /\
    (hash b' = hash b \/ hash b' = hash (generateHash b)).
Proof.
  intros Hv. pose proof (validateChain_shape _ _ _ _ Hv) as [Hlen Hh].
  split; [done|]. split; [done|]. intros i b b' Hb Hb'.
  pose proof (validateChain_rehashes _ _ _ _ Hv) as Hre.
  by destruct (Forall2_lookup_lr _ _ _ _ _ _ Hre Hb Hb') as [->| ->];
    repeat split; auto.
Qed.

End further_properties.

(** ** After a body was overwritten *)

Section after_tampering.
Context `{Externals}.

Lemma mutate_body_lookup (bc : Blockchain) (k : nat) (b : Block)
  (newBody : string) (j : nat) :
  _chain bc !! k = Some b ->
  _chain (mutate_body k newBody bc) !! j
  = if decide (j = k) then Some (set_body newBody b) else _chain bc !! j.
Proof.
  intros Hb. unfold mutate_body. simpl. destruct (decide (j = k)) as [->|Hj].
  - by rewrite list_lookup_alter_eq, Hb.
  - by rewrite list_lookup_alter_ne.
Qed.

(** The first [validateChain] after the body of one block was
    overwritten. *)
Lemma validateChain_one_body (fuel : nat) (bc : Blockchain) (k : nat)
  (b : Block) (newBody : string) :
  reachable bc ->
  hashes_distinct (_chain bc) -> hashes_nonempty (_chain bc) ->
  (0 < k)%nat -> _chain bc !! k = Some b ->
  (length (_chain bc) <= fuel)%nat ->
  validateChain fuel (mutate_body k newBody bc)
  = Some ({| _chain := <[k := generateHash (set_body newBody b)]> (_chain bc);
             _height := _height bc |},
          result_of (fault_of (set_body newBody b))).
Proof.
  intros Hreach Hdistinct Hne Hk Hb Hfuel.
  pose proof (reachable_inv bc Hreach) as Hinv.
  pose proof (lookup_lt_Some _ _ _ Hb) as Hklen.
  set (x := set_body newBody b).
  set (chain' := alter (set_body newBody) k (_chain bc)).
  assert (length chain' = length (_chain bc)) as Hlen by apply length_alter.
  assert (chain' !! k = Some x) as Hx.
  { unfold chain'. by rewrite list_lookup_alter_eq, Hb. }
  assert (forall (j : nat) y, j <> k -> chain' !! j = Some y -> hashed y)
    as Hothers.
  { intros j y Hj. unfold chain'.
    rewrite list_lookup_alter_ne by done. apply (inv_hashed bc Hinv). }
  assert (bodies_rewritten (_chain bc) chain') as Hrw.
  { apply Forall2_same_length_lookup. split; [done|]. intros j y y' Hy.
    unfold chain'. destruct (decide (j = k)) as [->|Hj].
    - rewrite list_lookup_alter_eq, Hy. simpl. by intros [= <-].
    - rewrite list_lookup_alter_ne, Hy by done. intros [= <-]. by destruct y. }
  destruct (validateChain_rewritten fuel bc chain' Hreach Hdistinct Hne Hrw
              Hfuel) as [Hrun _].
  change (mutate_body k newBody bc)
    with {| _chain := chain'; _height := _height bc |}.
  rewrite Hrun, (faults_upto_single _ k x), (heal_upto_single _ k x)
    by (done || lia).
  rewrite bool_decide_eq_true_2 by lia.
  do 3 f_equal. apply list_eq. intros j. unfold chain'.
  destruct (decide (j = k)) as [->|Hj].
  - rewrite !list_lookup_insert_eq; [done | lia | rewrite length_alter; lia].
  - rewrite !list_lookup_insert_ne by done. by rewrite list_lookup_alter_ne.
Qed.

(** X14. Tamper evidence is reported once. After the body of a block other
    than the first was overwritten in a reachable ledger with distinct,
    non-empty hashes, the first [validateChain] leaves that block rehashed
    and reports it if its hash no longer matched; a second [validateChain]
    on the ledger it left resolves without error. *)
Theorem tamper_reported_once (fuel : nat) (bc : Blockchain) (k : nat)
  (b : Block) (newBody : string) :
  reachable bc ->
  hashes_distinct (_chain bc) -> hashes_nonempty (_chain bc) ->
  (0 < k)%nat -> _chain bc !! k = Some b ->
  (length (_chain bc) <= fuel)%nat ->
  let bc1 :=
    {| _chain := <[k := generateHash (set_body newBody b)]> (_chain bc);
       _height := _height bc |} in
  validateChain fuel (mutate_body k newBody bc)
  = Some (bc1, result_of (fault_of (set_body newBody b))) /\
  validateChain fuel bc1 = Some (bc1, Ok tt).
Proof.
  intros Hreach Hdistinct Hne Hk Hb Hfuel bc1.
  split; [by apply validateChain_one_body|].
  pose proof (reachable_inv bc Hreach) as Hinv.
  pose proof (lookup_lt_Some _ _ _ Hb) as Hklen.
  set (gx := generateHash (set_body newBody b)) in *.
  assert (forall (j : nat) y, _chain bc1 !! j = Some y ->
            (j = k /\ y = gx) \/ (j <> k /\ _chain bc !! j = Some y)) as Hcases.
  { intros j y. unfold bc1. simpl. destruct (decide (j = k)) as [->|Hj].
    - rewrite list_lookup_insert_eq by done. intros [= <-]. by left.
    - rewrite list_lookup_insert_ne by done. by right. }
  assert (forall (j : nat) y, _chain bc1 !! j = Some y ->
            exists z, _chain bc !! j = Some z /\ height y = height z /\
                      previousBlockHash y = previousBlockHash z /\ hashed y)
    as Hback.
  { intros j y [[-> ->]|[Hj Hy]]%Hcases.
    - exists b. split; [done|]. split; [done|]. split; [done|].
      apply hashed_generateHash.
    - exists y. split; [done|]. split; [done|]. split; [done|].
      by apply (inv_hashed bc Hinv j). }
  assert (length (_chain bc1) = length (_chain bc)) as Hlen
    by (unfold bc1; simpl; apply length_insert).
  destruct (getLatestBlock_heights bc1) as (l & _ & Hl).
  { rewrite Hlen. apply (inv_height bc Hinv). }
  { lia. }
  { intros j y (z & Hz & -> & _)%Hback. by apply (inv_heights bc Hinv). }
  assert (consistent (_chain bc1)) as Hcons.
  { intros i y Hy Ht. destruct (Hback i y Hy) as (z & Hz & _ & Hprev & Hhashed).
    split; [done|]. intros j y' Hfind.
    apply list_find_Some in Hfind as (Hy' & Hhash & Hmin).
    destruct i as [|i].
    { destruct (inv_genesis bc Hinv) as (g & Hg & Hgp).
      rewrite Hg in Hz. injection Hz as <-. by rewrite Hprev, Hgp in Ht. }
    destruct (lookup_lt_is_Some_2 (_chain bc) i) as [a Ha].
    { apply lookup_lt_Some in Hz. lia. }
    pose proof (inv_linked bc Hinv i a z Ha Hz) as Hlink.
    destruct (decide (j < S i)%nat) as [|Hge]; [done|]. exfalso.
    destruct (decide (i = k)) as [->|Hik].
    - destruct (Hcases j y' Hy') as [[-> _]|[Hjk Hyj]]; [lia|].
      assert (j = k); [|done].
      apply (Hdistinct j k y' b Hyj Hb). congruence.
    - apply (Hmin i a); [|lia|congruence].
      unfold bc1. simpl. by rewrite list_lookup_insert_ne. }
  destruct (validateChain_consistent fuel bc1 _ l Hcons Hl) as [_ Htotal].
  apply Htotal. lia.
Qed.

Lemma _addBlock_eq (fuel : nat) (now : Z) (block : Block) (bc : Blockchain)
  (i : nat) (l : Block) :
  getLatestBlock bc = Some (i, l) -> -1 < _height bc ->
  _addBlock fuel now block bc
  = validateChain fuel
      {| _chain :=
           _chain bc ++
           [generateHash
              (set_previousBlockHash (hash l)
                 (set_time now (set_height (_height bc + 1) block)))];
         _height := _height bc + 1 |}.
Proof.
  intros Hl Hh. unfold _addBlock. rewrite Hl.
  by rewrite (proj2 (Z.ltb_lt _ _) Hh).
Qed.

(** X15. A submission into a tampered ledger is appended and reported.
    Take a reachable ledger and the block [pushed] that an accepted
    [submitStar] appends to it. When the body of a block other than the
    first was overwritten before the call, and the hashes of the chain
    with [pushed] are pairwise distinct and non-empty, and the digest of
    the overwritten block is not the hash it carries, the same call
    pushes [pushed] all the same and then throws the [InvalidChainError]
    whose only error is [Block <digest> is invalid!], with the digest of
    the overwritten block: the new block stays in the chain and the
    height is raised. *)
Theorem submitStar_into_tampered (fuel : nat) (now now' : Z)
  (address message signature : string) (star : JSON.json) (bc : Blockchain)
  (k : nat) (b : Block) (newBody : string) :
  reachable bc ->
  (0 < k)%nat -> _chain bc !! k = Some b ->
  ValidTime now (Message.time (Message.parse message)) = true ->
  verify message address signature = true ->
  (length (_chain bc) < fuel)%nat ->
  let digest := SHA256 (JSON.stringify (rest_of_block (set_body newBody b))) in
  let b' := set_hash (Some digest) (set_body newBody b) in
  exists pushed,
    submitStar fuel now now' address message signature star bc
    = Some ({| _chain := _chain bc ++ [pushed]; _height := _height bc + 1 |},
            Ok pushed) /\
    (hashes_distinct (_chain bc ++ [pushed]) ->
     hashes_nonempty (_chain bc ++ [pushed]) ->
     Some digest <> hash b ->
     submitStar fuel now now' address message signature star
       (mutate_body k newBody bc)
     = Some ({| _chain := <[k := b']> (_chain bc ++ [pushed]);
                _height := _height bc + 1 |},
             Throw (InvalidChainError
                      ["Block " +:+ digest +:+ " is invalid!"]))).
Proof.
  intros Hreach Hk Hb Htime Hverify Hfuel digest b'.
  pose proof (reachable_inv bc Hreach) as Hinv.
  pose proof (lookup_lt_Some _ _ _ Hb) as Hklen.
  pose proof (reachable_height_nonneg bc Hreach) as Hh.
  set (block := new_Block (star_data address star)).
  destruct (getLatestBlock_inv bc Hinv) as [l Hl].
  assert (_chain bc !! Nat.pred (length (_chain bc)) = Some l) as Hlast.
  { by apply list_find_Some in Hl as (? & _). }
  set (pushed := generateHash
                   (set_previousBlockHash (hash l)
                      (set_time now' (set_height (_height bc + 1) block)))).
  set (bc1 := {| _chain := _chain bc ++ [pushed]; _height := _height bc + 1 |}).
  assert (_addBlock fuel now' block bc = Some (bc1, Ok tt)) as Hadd.
  { destruct (_addBlock_inv fuel now' block bc Hinv)
      as (b0 & _ & _ & _ & _ & _ & Htotal).
    specialize (Htotal Hfuel). rewrite Htotal.
    rewrite (_addBlock_eq fuel now' block bc _ l Hl) in Htotal by lia.
    fold pushed in Htotal. fold bc1 in Htotal.
    pose proof (validateChain_rehashes _ _ _ _ Htotal) as Hre.
    assert (b0 = pushed) as ->; [|done].
    assert (_chain bc1 !! length (_chain bc) = Some pushed) as Hp.
    { unfold bc1. simpl. by rewrite lookup_app_r, Nat.sub_diag by lia. }
    assert ((_chain bc ++ [b0]) !! length (_chain bc) = Some b0) as Hb0.
    { by rewrite lookup_app_r, Nat.sub_diag by lia. }
    by destruct (Forall2_lookup_lr _ _ _ _ _ _ Hre Hp Hb0) as [->| ->]. }
  assert (submitStar fuel now now' address message signature star bc
          = Some (bc1, Ok pushed)) as Hsub.
  { rewrite submitStar_unfold, Htime, Hverify. simpl. fold block.
    rewrite Hadd. simpl. by rewrite lookup_app_r, Nat.sub_diag by lia. }
  exists pushed. split; [done|].
  assert (reachable bc1) as Hreach1 by (by eapply reachable_submit).
  set (bcm := mutate_body k newBody bc).
  destruct (getLatestBlock_heights bcm) as (lm & Hlm_at & Hlm).
  { unfold bcm, mutate_body. simpl. rewrite length_alter.
    apply (inv_height bc Hinv). }
  { unfold bcm, mutate_body. simpl. rewrite length_alter. lia. }
  { intros j y. unfold bcm. rewrite (mutate_body_lookup bc k b) by done.
    destruct (decide (j = k)) as [->|Hj].
    - intros [= <-]. apply (inv_heights bc Hinv k b Hb).
    - apply (inv_heights bc Hinv). }
  assert (length (_chain bcm) = length (_chain bc)) as Hlenm
    by (unfold bcm, mutate_body; simpl; apply length_alter).
  assert (hash lm = hash l) as Hhash.
  { rewrite Hlenm in Hlm_at. unfold bcm in Hlm_at.
    rewrite (mutate_body_lookup bc k b) in Hlm_at by done.
    destruct (decide _) as [Heq|_].
    - injection Hlm_at as <-. rewrite Heq, Hb in Hlast. by injection Hlast as <-.
    - rewrite Hlast in Hlm_at. by injection Hlm_at as <-. }
  assert (_addBlock fuel now' block bcm
          = validateChain fuel (mutate_body k newBody bc1)) as Haddm.
  { rewrite (_addBlock_eq fuel now' block bcm _ lm Hlm)
      by (unfold bcm, mutate_body; simpl; lia).
    rewrite Hhash. unfold bcm, bc1, mutate_body. simpl.
    by rewrite alter_app_l by done. }
  assert (_chain bc1 !! k = Some b) as Hb1.
  { unfold bc1. simpl. by apply lookup_app_l_Some. }
  assert (length (_chain bc1) <= fuel)%nat as Hfuel1.
  { unfold bc1. simpl. rewrite length_app. simpl. lia. }
  intros Hdistinct Hnonempty Hdigest.
  rewrite submitStar_unfold, Htime, Hverify. simpl. fold block. fold bcm.
  rewrite Haddm.
  rewrite (validateChain_one_body fuel bc1 k b newBody Hreach1 Hdistinct
             Hnonempty Hk Hb1 Hfuel1).
  assert (~ hashed (set_body newBody b)) as Hstale.
  { unfold hashed. change (hash (set_body newBody b)) with (hash b).
    intros Heq. by apply Hdigest. }
  unfold fault_of. rewrite bool_decide_eq_false_2 by done. done.
Qed.

End after_tampering.

(** * What [getBData] reads from a body, for every payload *)

Section byte_characters.
Import JSON.

Lemma utf8_app (a b : string) : JS.utf8 (a +:+ b) = JS.utf8 a ++ JS.utf8 b.
Proof.
  induction a as [|c a IH]; [done|]. rewrite append_cons. simpl.
  by rewrite IH, app_assoc.
Qed.

Lemma bytes_string_app (a b : list N) :
  bytes_string (a ++ b) = bytes_string a +:+ bytes_string b.
Proof. induction a as [|x a IH]; [done|]. simpl. by rewrite IH. Qed.

Lemma byte_chars_append (a b : string) :
  byte_chars (a +:+ b) = byte_chars a +:+ byte_chars b.
Proof. unfold byte_chars. by rewrite utf8_app, bytes_string_app. Qed.

Lemma byte_chars_cons (c : ascii) (s : string) :
  byte_chars (String c s) = byte_chars (String c EmptyString) +:+ byte_chars s.
Proof. by rewrite <- byte_chars_append. Qed.

Lemma byte_chars_ascii_char (c : ascii) :
  is_ascii c = true -> byte_chars (String c EmptyString) = String c EmptyString.
Proof. by_cases_on_char c. Qed.

Lemma byte_chars_ascii (s : string) :
  all_chars is_ascii s = true -> byte_chars s = s.
Proof.
  induction s as [|c s IH]; [done|]. simpl.
  rewrite andb_true_iff. intros [Hc Hs].
  by rewrite byte_chars_cons, byte_chars_ascii_char, IH.
Qed.

Lemma text_ascii (c : ascii) : JS.is_text c = true -> is_ascii c = true.
Proof. by_cases_on_char c. Qed.

Lemma digit_ascii (c : ascii) : JS.is_digit c = true -> is_ascii c = true.
Proof. by_cases_on_char c. Qed.

Lemma byte_chars_show_Z (z : Z) : byte_chars (JS.show_Z z) = JS.show_Z z.
Proof.
  apply byte_chars_ascii, (all_chars_impl _ _ _ text_ascii), show_Z_text.
Qed.

Lemma byte_chars_escape_char (c : ascii) :
  byte_chars (escape_char c) = escape (byte_chars (String c EmptyString)).
Proof. by_cases_on_char c. Qed.

Lemma escape_append (a b : string) : escape (a +:+ b) = escape a +:+ escape b.
Proof.
  induction a as [|c a IH]; [done|]. rewrite append_cons. simpl.
  by rewrite IH, append_assoc.
Qed.

Lemma byte_chars_escape (s : string) :
  byte_chars (escape s) = escape (byte_chars s).
Proof.
  induction s as [|c s IH]; [done|]. simpl escape.
  rewrite byte_chars_append, byte_chars_escape_char, IH.
  by rewrite (byte_chars_cons c s), escape_append.
Qed.

Lemma byte_chars_quote (s : string) :
  byte_chars (quote s) = quote (byte_chars s).
Proof.
  unfold quote. rewrite (byte_chars_cons JS.dquote), byte_chars_append.
  by rewrite byte_chars_escape.
Qed.

Lemma byte_chars_join_comma (parts : list string) :
  byte_chars (join_comma parts) = join_comma (map byte_chars parts).
Proof.
  induction parts as [|p parts IH]; [done|].
  destruct parts as [|q parts]; [done|].
  change (join_comma (p :: q :: parts))
    with (p +:+ String "," (join_comma (q :: parts))).
  rewrite byte_chars_append, (byte_chars_cons ","), IH. done.
Qed.

Lemma byte_chars_stringify (v : json) :
  byte_chars (stringify v) = stringify (byte_chars_json v).
Proof.
  induction v as [| b | z | s | l IH | m IH] using json_ind.
  - done.
  - by destruct b.
  - apply byte_chars_show_Z.
  - apply byte_chars_quote.
  - simpl. rewrite (byte_chars_cons "["), byte_chars_append,
      byte_chars_join_comma, !map_map.
    do 3 f_equal. apply map_ext_Forall. exact IH.
  - simpl. rewrite (byte_chars_cons "{"), byte_chars_append,
      byte_chars_join_comma, !map_map.
    do 3 f_equal. apply map_ext_Forall.
    eapply Forall_impl; [exact IH|]. intros [k x] Hx. simpl in *.
    rewrite byte_chars_append, byte_chars_quote, (byte_chars_cons ":"), Hx.
    done.
Qed.

(** ** No serialization holds the character NUL *)

Lemma escape_char_nonzero (c : ascii) :
  all_chars is_nonzero (escape_char c) = true.
Proof. by_cases_on_char c. Qed.

Lemma escape_nonzero (s : string) : all_chars is_nonzero (escape s) = true.
Proof.
  induction s as [|c s IH]; [done|]. simpl.
  by rewrite all_chars_append, escape_char_nonzero, IH.
Qed.

Lemma text_nonzero (c : ascii) : JS.is_text c = true -> is_nonzero c = true.
Proof. by_cases_on_char c. Qed.

Lemma join_comma_nonzero (parts : list string) :
  Forall (fun p => all_chars is_nonzero p = true) parts ->
  all_chars is_nonzero (join_comma parts) = true.
Proof.
  induction 1 as [|p ps Hp Hps IH]; [done|].
  destruct ps as [|q ps]; [done|].
  change (join_comma (p :: q :: ps)) with (p +:+ String "," (join_comma (q :: ps))).
  rewrite all_chars_append, Hp. simpl. exact IH.
Qed.

Lemma stringify_nonzero (v : json) : all_chars is_nonzero (stringify v) = true.
Proof.
  induction v as [| b | z | s | l IH | m IH] using json_ind.
  - done.
  - by destruct b.
  - apply (all_chars_impl _ _ _ text_nonzero), show_Z_text.
  - unfold stringify, quote. simpl. by rewrite all_chars_append, escape_nonzero.
  - simpl. rewrite all_chars_append, andb_true_r.
    apply join_comma_nonzero, Forall_map. exact IH.
  - simpl. rewrite all_chars_append, andb_true_r.
    apply join_comma_nonzero, Forall_map.
    eapply Forall_impl; [exact IH|]. intros [k x] Hx. simpl in *.
    rewrite all_chars_append. unfold quote. simpl.
    by rewrite all_chars_append, escape_nonzero, Hx.
Qed.

Lemma hex_pairs_byte_chars (c : ascii) (t : string) :
  is_nonzero c = true ->
  JS.hex_pairs (JS.to_hex (JS.utf8_char c) +:+ t)
  = byte_chars (String c EmptyString) +:+ JS.hex_pairs t.
Proof. by_cases_on_char c. Qed.

Lemma hex2ascii_byte_chars (s : string) :
  all_chars is_nonzero s = true ->
  JS.hex2ascii (JS.to_hex (JS.utf8 s)) = byte_chars s.
Proof.
  unfold JS.hex2ascii. rewrite strip_spaces_hex.
  induction s as [|c s IH]; [done|]. simpl.
  rewrite andb_true_iff. intros [Hc Hs].
  by rewrite to_hex_app, hex_pairs_byte_chars, IH, (byte_chars_cons c s).
Qed.

(** ** [byte_chars] loses nothing *)

Lemma unbyte_chars_char (c : ascii) (t : string) :
  unbyte_chars (byte_chars (String c EmptyString) +:+ t)
  = String c (unbyte_chars t).
Proof. by_cases_on_char c. Qed.

Lemma unbyte_byte_chars (s : string) : unbyte_chars (byte_chars s) = s.
Proof.
  induction s as [|c s IH]; [done|].
  by rewrite byte_chars_cons, unbyte_chars_char, IH.
Qed.

Lemma byte_chars_inj (s t : string) : byte_chars s = byte_chars t -> s = t.
Proof.
  intros E. apply (f_equal unbyte_chars) in E.
  by rewrite !unbyte_byte_chars in E.
Qed.

Lemma byte_chars_json_well_formed (v : json) :
  well_formed v = true -> well_formed (byte_chars_json v) = true.
Proof.
  induction v as [| b | z | s | l IH | m IH] using json_ind; try done.
  - simpl. rewrite !forallb_forall. intros Hl y [x [<- Hx]]%in_map_iff.
    rewrite Forall_forall in IH. apply IH; [by apply list_elem_of_In | auto].
  - simpl. rewrite !andb_true_iff. intros [Hdup Hm]. split.
    + apply bool_decide_eq_true in Hdup. apply bool_decide_eq_true.
      rewrite map_map. simpl.
      rewrite <- (map_map fst byte_chars).
      assert (Inj eq eq byte_chars) as Hinj
        by (intros s t; apply byte_chars_inj).
      exact (NoDup_fmap_2 byte_chars _ Hdup).
    + rewrite forallb_forall in Hm. apply forallb_forall.
      intros y [[k x] [<- Hx]]%in_map_iff. simpl.
      rewrite Forall_forall in IH.
      apply (IH (k, x)); [by apply list_elem_of_In | by apply (Hm (k, x))].
Qed.

Lemma byte_chars_json_ascii (v : json) :
  ascii_only v = true -> byte_chars_json v = v.
Proof.
  induction v as [| b | z | s | l IH | m IH] using json_ind; try done.
  - simpl. intros Hs. by rewrite byte_chars_ascii.
  - simpl. rewrite forallb_forall. intros Hl. f_equal.
    rewrite <- (map_id l) at 2. apply map_ext_Forall.
    rewrite Forall_forall in IH |- *. intros x Hx.
    apply IH; [done|]. apply Hl. by apply list_elem_of_In.
  - simpl. rewrite forallb_forall. intros Hm. f_equal.
    rewrite <- (map_id m) at 2. apply map_ext_Forall.
    rewrite Forall_forall in IH |- *. intros [k x] Hx.
    specialize (Hm (k, x) ltac:(by apply list_elem_of_In)).
    apply andb_true_iff in Hm as [Hk Hv]. simpl in *.
    rewrite byte_chars_ascii by done. f_equal. by apply (IH (k, x)).
Qed.

End byte_characters.

(** X16. What [getBData] answers for a block built on any payload, once
    the block has a height other than 0: the payload with every string
    replaced by the characters of its UTF-8 bytes. The payload itself
    comes back when its strings are ASCII. *)
Theorem getBData_of_new_Block (x : JSON.json) (h : Z) :
  JSON.well_formed x = true -> h <> 0 ->
  getBData (set_height h (new_Block x)) = Ok (byte_chars_json x) /\
  (JSON.ascii_only x = true -> byte_chars_json x = x).
Proof.
  intros Hwf Hh. split; [|apply byte_chars_json_ascii].
  unfold getBData. simpl. rewrite (proj2 (Z.eqb_neq h 0) Hh).
  unfold encode. rewrite hex2ascii_byte_chars by apply stringify_nonzero.
  rewrite byte_chars_stringify, parse_stringify; [done|].
  by apply byte_chars_json_well_formed.
Qed.

(** ** Only ASCII payloads are read back *)

Section beyond_ascii.
Import JSON.

Lemma byte_chars_char_length (c : ascii) :
  String.length (byte_chars (String c EmptyString))
  = if is_ascii c then 1%nat else 2%nat.
Proof. by_cases_on_char c. Qed.

Lemma byte_chars_length (s : string) :
  (String.length s <= String.length (byte_chars s))%nat /\
  (all_chars is_ascii s = false ->
   (String.length s < String.length (byte_chars s))%nat).
Proof.
  induction s as [|c s [IHle IHlt]]; [done|].
  rewrite byte_chars_cons, length_append, byte_chars_char_length. simpl.
  destruct (is_ascii c); simpl; split; auto with lia.
  intros Hs. specialize (IHlt Hs). lia.
Qed.

Lemma byte_chars_fixed (s : string) :
  byte_chars s = s -> all_chars is_ascii s = true.
Proof.
  intros E. destruct (all_chars is_ascii s) eqn:Hs; [done|].
  apply byte_chars_length in Hs. rewrite E in Hs. lia.
Qed.

Lemma map_fixed {A} (f : A -> A) (l : list A) :
  map f l = l -> Forall (fun x => f x = x) l.
Proof.
  induction l as [|x l IH]; [constructor|].
  simpl. intros [= Hx Hl]. constructor; auto.
Qed.

Lemma byte_chars_json_fixed (v : json) :
  byte_chars_json v = v -> ascii_only v = true.
Proof.
  induction v as [| b | z | s | l IH | m IH] using json_ind; try done.
  - simpl. intros [= E]. by apply byte_chars_fixed.
  - simpl. intros [= E%map_fixed]. apply forallb_forall. intros x Hx.
    rewrite Forall_forall in IH, E. apply list_elem_of_In in Hx. auto.
  - simpl. intros [= E%map_fixed]. apply forallb_forall. intros [k x] Hx.
    rewrite Forall_forall in IH, E. apply list_elem_of_In in Hx.
    specialize (E _ Hx). simpl in E. injection E as Ek Ex.
    apply andb_true_iff. split; [by apply byte_chars_fixed|].
    by apply (IH (k, x)).
Qed.

Lemma getBData_byte_chars (x : json) (h : Z) :
  well_formed x = true -> h <> 0 ->
  getBData (set_height h (new_Block x)) = Ok (byte_chars_json x).
Proof.
  intros Hwf Hh. unfold getBData. simpl. rewrite (proj2 (Z.eqb_neq h 0) Hh).
  unfold encode. rewrite hex2ascii_byte_chars by apply stringify_nonzero.
  rewrite byte_chars_stringify, parse_stringify; [done|].
  by apply byte_chars_json_well_formed.
Qed.

End beyond_ascii.

(** C8. The round trip fails on every payload that holds a character
    outside ASCII, in a string or in a property name: from a block built
    on it, with a height other than 0, [getBData] answers with another
    value, the payload in which every such character is replaced by the
    characters of its UTF-8 bytes. *)
Theorem body_round_trip_garbled (x : JSON.json) (h : Z) :
  JSON.well_formed x = true -> JSON.ascii_only x = false -> h <> 0 ->
  getBData (set_height h (new_Block x)) = Ok (byte_chars_json x) /\
  byte_chars_json x <> x /\
  getBData (set_height h (new_Block x)) <> Ok x.
Proof.
  intros Hwf Hascii Hh.
  assert (byte_chars_json x <> x) as Hne.
  { intros E%byte_chars_json_fixed. congruence. }
  rewrite getBData_byte_chars by done. split; [done|]. split; [done|].
  intros [= E]. by apply Hne.
Qed.

(** * Calls that overlap *)

Section calls_alone.
Context `{Externals}.

(** ** A call that runs alone does what [submitStar] does *)

Lemma alone_settled (n : nat) (r : result nat) (bc : Blockchain) :
  alone n (settled r) bc = (bc, settled r).
Proof. induction n as [|n IH]; [done|]. simpl. exact IH. Qed.

Lemma walk_alone (pushed : nat) (fuel : nat) :
  forall (bc : Blockchain) (cur : option nat) (log : list string) bc' log',
    walk fuel bc cur log = Some (bc', log') ->
    exists n,
      alone (S n) (await_getBlockByHash pushed cur log) bc
      = (bc', match log' with
              | [] => settled (Ok pushed)
              | _ :: _ => settled (Throw (InvalidChainError log'))
              end).
Proof.
  induction fuel as [|fuel IH]; intros bc cur log bc' log';
    rewrite walk_unfold; simpl; unfold while_head.
  - destruct cur as [i|]; [|intros [= <- <-]; by exists 0%nat].
    destruct (_chain bc !! i) as [b|]; [|intros [= <- <-]; by exists 0%nat].
    destruct (JS.truthy (previousBlockHash b)); [done|].
    intros [= <- <-]. by exists 0%nat.
  - destruct cur as [i|]; [|intros [= <- <-]; by exists 0%nat].
    destruct (_chain bc !! i) as [b|] eqn:Hb;
      [|intros [= <- <-]; by exists 0%nat].
    destruct (JS.truthy (previousBlockHash b));
      [|intros [= <- <-]; by exists 0%nat].
    intros Hw. destruct (IH _ _ _ _ _ Hw) as [n Hn]. exists (3 + n)%nat.
    assert (_chain (store i (generateHash b) bc) !! i = Some (generateHash b))
      as Hi.
    { unfold store. simpl. apply list_lookup_insert_eq.
      by eapply lookup_lt_Some. }
    cbn [alone resume plus]. rewrite Hi. cbn [alone resume]. rewrite Hi.
    rewrite <- Hn. cbn [alone resume]. unfold fault_of.
    change (bool_decide (hash b = hash (generateHash b)))
      with (bool_decide (hashed b)).
    destruct (bool_decide (hashed b)); [by rewrite app_nil_r | done].
Qed.

Lemma _addBlock_alone (fuel : nat) (now : Z) (block : Block)
  (bc bc' : Blockchain) (r : result unit) :
  _addBlock fuel now block bc = Some (bc', r) ->
  exists n,
    alone n
      (await_getLatestBlock (set_time now (set_height (_height bc + 1) block))
         (fst <$> getLatestBlock bc)) bc
    = (bc', settled (match r with
                     | Ok _ => Ok (length (_chain bc))
                     | Throw e => Throw e
                     end)).
Proof.
  unfold _addBlock. cbv zeta.
  set (block0 := set_time now (set_height (_height bc + 1) block)).
  set (block1 := match getLatestBlock bc with
                 | Some (_, latestBlock) =>
                     if -1 <? _height bc
                     then set_previousBlockHash (hash latestBlock) block0
                     else block0
                 | None => block0
                 end).
  set (bc1 := {| _chain := _chain bc ++ [generateHash block1];
                 _height := _height bc + 1 |}).
  unfold validateChain. cbv zeta.
  set (log0 := match getLatestBlock bc1 with
               | None => ["Latest block not found!"]
               | Some _ => []
               end).
  destruct (walk fuel bc1 (fst <$> getLatestBlock bc1) log0)
    as [[bc2 log2]|] eqn:Hw; [|done].
  destruct (walk_alone (length (_chain bc)) _ _ _ _ _ _ Hw) as [n Hn].
  simpl. intros Hr. exists (3 + n)%nat. cbn [alone resume plus].
  assert (match (fst <$> getLatestBlock bc) ≫= (fun i => _chain bc !! i) with
          | Some latestBlock =>
              if -1 <? _height bc
              then set_previousBlockHash (hash latestBlock) block0
              else block0
          | None => block0
          end = block1) as ->.
  { unfold block1. destruct (getLatestBlock bc) as [[i l]|] eqn:Hl; [|done].
    apply list_find_Some in Hl as (Hl & _). simpl. by rewrite Hl. }
  fold bc1. cbn [alone resume] in Hn.
  assert (match fst <$> getLatestBlock bc1 with
          | Some _ => []
          | None => ["Latest block not found!"]
          end = log0) as ->.
  { unfold log0. by destruct (getLatestBlock bc1). }
  rewrite Hn. destruct log2; by injection Hr as <- <-.
Qed.

(** X17. A call of [submitStar] that runs alone, its stretches resumed
    one after the other with no other call in between, leaves the ledger
    that [submitStar] run to completion leaves and settles with what it
    answers. *)
Theorem submitStar_call_alone (fuel : nat) (now now' : Z)
  (address message signature : string) (star : JSON.json)
  (bc bc' : Blockchain) (r : result Block) :
  submitStar fuel now now' address message signature star bc = Some (bc', r) ->
  exists n c,
    alone n (submitStar_call now now' address message signature star bc) bc
    = (bc', c) /\
    settled_with bc' c = Some r.
Proof.
  unfold submitStar, submitStar_call. cbv zeta.
  destruct (negb (ValidTime _ _)).
  { intros [= <- <-]. by exists 0%nat, (settled (Throw (Error "Message is too old!"))). }
  destruct (negb (verify _ _ _)).
  { intros [= <- <-]. by exists 0%nat, (settled (Throw (Error "Message is invalid!"))). }
  destruct (_addBlock fuel now' (new_Block (star_data address star)) bc)
    as [[bc1 r1]|] eqn:Ha; [|done].
  destruct (_addBlock_alone _ _ _ _ _ _ Ha) as [n Hn]. simpl.
  destruct r1 as [[]|e].
  - destruct (_chain bc1 !! length (_chain bc)) as [b|] eqn:Hb; [|done].
    intros [= <- <-]. exists n, (settled (Ok (length (_chain bc)))).
    split; [done|]. simpl. by rewrite Hb.
  - intros [= <- <-]. by exists n, (settled (Throw e)).
Qed.

End calls_alone.

(** ** Two calls made on one ledger before either has pushed *)

Lemma with_pushed_nil (bc : Blockchain) : with_pushed bc [] = bc.
Proof.
  destruct bc as [c h]. unfold with_pushed. simpl.
  by rewrite app_nil_r, Z.add_0_r.
Qed.

Section two_calls.
Context `{Externals}.
Variable bc : Blockchain.
Variable latest : Block.
Hypothesis Hinv : ledger_inv bc.
Hypothesis Hlatest : _chain bc !! Nat.pred (length (_chain bc)) = Some latest.

Lemma chain_nonempty : (0 < length (_chain bc))%nat.
Proof.
  destruct (inv_genesis bc Hinv) as (g & Hg & _). by eapply lookup_lt_Some.
Qed.

Lemma with_pushed_snoc (pushed : list Block) (z : Block) :
  {| _chain := _chain (with_pushed bc pushed) ++ [z];
     _height := _height (with_pushed bc pushed) + 1 |}
  = with_pushed bc (pushed ++ [z]).
Proof.
  unfold with_pushed. simpl. rewrite <- app_assoc, length_app. simpl.
  f_equal. lia.
Qed.

Lemma linked_blocks_linked (block : Block) :
  height block = Z.of_nat (length (_chain bc)) ->
  linked_blocks (length (_chain bc)) latest [linked latest block].
Proof. intros Hh. repeat constructor. exact Hh. Qed.

Lemma linked_blocks_lookup (pushed : list Block) (i : nat) (b : Block) :
  linked_blocks (length (_chain bc)) latest pushed ->
  (_chain bc ++ pushed) !! i = Some b ->
  (i < length (_chain bc))%nat /\ _chain bc !! i = Some b \/
  (length (_chain bc) <= i)%nat /\ hashed b /\
  previousBlockHash b = hash latest /\ height b = Z.of_nat (length (_chain bc)).
Proof.
  intros Hp Hb. apply lookup_app_Some in Hb as [Hb|[Hi Hb]].
  - left. split; [by eapply lookup_lt_Some | done].
  - right. split; [done|]. unfold linked_blocks in Hp.
    rewrite Forall_forall in Hp. apply Hp. by eapply list_elem_of_lookup_2.
Qed.

Lemma pushed_hashed (pushed : list Block) (i : nat) (b : Block) :
  linked_blocks (length (_chain bc)) latest pushed ->
  (_chain bc ++ pushed) !! i = Some b -> hashed b.
Proof.
  intros Hp Hb.
  destruct (linked_blocks_lookup _ _ _ Hp Hb) as [[_ Hc]|(_ & Hh & _)];
    [by eapply (inv_hashed bc Hinv) | done].
Qed.

Lemma find_upto {A} (P : A -> Prop) `{!forall x, Decision (P x)}
  (l : list A) (i : nat) (a : A) :
  l !! i = Some a -> P a ->
  exists (j : nat) b, list_find P l = Some (j, b) /\ (j <= i)%nat.
Proof.
  intros Ha HP.
  destruct (list_find P l) as [[j b]|] eqn:Hfind.
  - exists j, b. split; [done|].
    apply list_find_Some in Hfind as (_ & _ & Hmin).
    destruct (decide (j <= i)%nat) as [|Hgt]; [done|].
    exfalso. apply (Hmin i a); [done | lia | done].
  - apply list_find_None in Hfind. rewrite Forall_forall in Hfind.
    exfalso. apply (Hfind a); [by eapply list_elem_of_lookup_2 | done].
Qed.

(** The search for the predecessor of a block answers with an earlier
    position. *)
Lemma find_predecessor (pushed : list Block) (i : nat) (b : Block) :
  linked_blocks (length (_chain bc)) latest pushed ->
  (_chain bc ++ pushed) !! i = Some b ->
  JS.truthy (previousBlockHash b) = true ->
  exists (j : nat) b',
    getBlockByHash (previousBlockHash b) (with_pushed bc pushed) = Some (j, b') /\
    (j < i)%nat.
Proof.
  intros Hp Hb Ht. pose proof chain_nonempty as Hpos.
  unfold getBlockByHash, with_pushed. simpl.
  destruct (linked_blocks_lookup _ _ _ Hp Hb)
    as [[Hi Hc]|(Hi & _ & Hprev & _)].
  - destruct i as [|i].
    { destruct (inv_genesis bc Hinv) as (g & Hg & Hgp).
      rewrite Hg in Hc. injection Hc as <-. by rewrite Hgp in Ht. }
    destruct (lookup_lt_is_Some_2 (_chain bc) i) as [a Ha]; [lia|].
    pose proof (inv_linked bc Hinv i a b Ha Hc) as Hlink.
    destruct (find_upto (fun x => hash x = previousBlockHash b)
                (_chain bc ++ pushed) i a) as (j & b' & Hfind & Hj);
      [by apply lookup_app_l_Some | done |].
    exists j, b'. split; [done | lia].
  - destruct (find_upto (fun x => hash x = previousBlockHash b)
                (_chain bc ++ pushed) (Nat.pred (length (_chain bc))) latest)
      as (j & b' & Hfind & Hj); [by apply lookup_app_l_Some | done |].
    exists j, b'. split; [done | lia].
Qed.

(** *** One stretch of each kind of call *)

Lemma while_head_first (pushed : list Block) (cur : option nat) :
  linked_blocks (length (_chain bc)) latest pushed ->
  exists c',
    while_head (length (_chain bc)) cur [] (with_pushed bc pushed)
    = (with_pushed bc pushed, c') /\
    first_walker (length (_chain bc)) (_chain bc ++ pushed) c' /\
    (stretches (length (_chain bc)) c'
     < from_option (fun j => 3 * j + 4) 1 cur)%nat.
Proof.
  intros Hp. unfold while_head.
  assert (first_walker (length (_chain bc)) (_chain bc ++ pushed)
            (settled (Ok (length (_chain bc))))) as Hdone
    by (by do 4 right).
  destruct cur as [j|]; simpl.
  - destruct ((_chain bc ++ pushed) !! j) as [b|] eqn:Hb.
    + destruct (JS.truthy (previousBlockHash b)) eqn:Ht.
      * rewrite (generateHash_hashed b) by (by eapply pushed_hashed).
        rewrite store_id by done.
        eexists. split; [done|]. split; [|simpl; lia].
        right. left. by exists j, b.
      * eexists. split; [done|]. split; [done | simpl; lia].
    + eexists. split; [done|]. split; [done | simpl; lia].
  - eexists. split; [done|]. split; [done | simpl; lia].
Qed.

Lemma resume_first_walker (pushed : list Block) (c : call) :
  linked_blocks (length (_chain bc)) latest pushed ->
  first_walker (length (_chain bc)) (_chain bc ++ pushed) c ->
  exists c',
    resume c (with_pushed bc pushed) = (with_pushed bc pushed, c') /\
    first_walker (length (_chain bc)) (_chain bc ++ pushed) c' /\
    ((stretches (length (_chain bc)) c' < stretches (length (_chain bc)) c)%nat
     \/ c' = c /\ stretches (length (_chain bc)) c = 0%nat).
Proof.
  intros Hp [->|[(i & b & Hb & Ht & ->)|[(i & b & Hb & Ht & ->)|[[next ->]| ->]]]].
  - destruct (while_head_first pushed (Some (length (_chain bc))) Hp)
      as (c' & Hw & Hc' & Hm).
    exists c'. cbn [resume]. rewrite Hw. auto.
  - eexists. simpl. rewrite Hb. split; [done|].
    rewrite bool_decide_eq_true_2 by done. split; [|left; simpl; lia].
    right. right. left. by exists i, b.
  - destruct (find_predecessor pushed i b Hp Hb Ht) as (j & b' & Hfind & Hj).
    eexists. simpl. rewrite Hb, Hfind. split; [done|].
    split; [|left; simpl; lia]. do 3 right. left. by eexists.
  - destruct (while_head_first pushed next Hp) as (c' & Hw & Hc' & Hm).
    exists c'. cbn [resume]. rewrite Hw. auto.
  - eexists. split; [done|]. split; [by do 4 right|]. by right.
Qed.

Lemma first_walker_app (chain more : list Block) (n : nat) (c : call) :
  first_walker n chain c -> first_walker n (chain ++ more) c.
Proof.
  intros [->|[(i & b & Hb & Ht & ->)|[(i & b & Hb & Ht & ->)|[[next ->]| ->]]]].
  - by left.
  - right. left. exists i, b. split; [by apply lookup_app_l_Some | done].
  - right. right. left. exists i, b.
    split; [by apply lookup_app_l_Some | done].
  - do 3 right. left. by eexists.
  - by do 4 right.
Qed.

Lemma resume_second_walker (n : nat) (c : call) (ledger : Blockchain) :
  second_walker n c ->
  exists c',
    resume c ledger = (ledger, c') /\ second_walker n c' /\
    ((stretches n c' < stretches n c)%nat \/ c' = c /\ stretches n c = 0%nat).
Proof.
  intros [->| ->].
  - eexists. split; [done|]. split; [by right | left; simpl; lia].
  - eexists. split; [done|]. split; [by right | by right].
Qed.

Lemma resume_linking (pushed : list Block) (block : Block) :
  resume (await_getLatestBlock block (Some (Nat.pred (length (_chain bc)))))
    (with_pushed bc pushed)
  = (with_pushed bc pushed, await_generateHash (linked latest block)).
Proof.
  pose proof chain_nonempty as Hpos. simpl.
  rewrite (lookup_app_l_Some _ _ _ _ Hlatest).
  rewrite (proj2 (Z.ltb_lt (-1) (_height bc + Z.of_nat (length pushed))))
    by (rewrite (inv_height bc Hinv); lia).
  reflexivity.
Qed.

Lemma resume_pushing (pushed : list Block) (block : Block) :
  resume (await_generateHash block) (with_pushed bc pushed)
  = (with_pushed bc (pushed ++ [block]),
     await_latest (length (_chain bc) + length pushed)
       (fst <$> getLatestBlock (with_pushed bc (pushed ++ [block])))).
Proof.
  cbn [resume]. rewrite with_pushed_snoc.
  do 2 f_equal. unfold with_pushed. simpl. apply length_app.
Qed.

Lemma latest_after_first (x : Block) :
  height x = Z.of_nat (length (_chain bc)) ->
  fst <$> getLatestBlock (with_pushed bc [x]) = Some (length (_chain bc)).
Proof.
  intros Hx. pose proof chain_nonempty as Hpos.
  destruct (getLatestBlock_heights (with_pushed bc [x])) as (b & _ & ->).
  - simpl. rewrite length_app, (inv_height bc Hinv). simpl. lia.
  - simpl. rewrite length_app. simpl. lia.
  - simpl. intros i b [Hb|[Hi Hb]]%lookup_app_Some.
    + by apply (inv_heights bc Hinv).
    + apply list_lookup_singleton_Some in Hb as [Hi0 <-]. rewrite Hx.
      f_equal. lia.
  - simpl. rewrite length_app. simpl. f_equal. lia.
Qed.

Lemma latest_after_second (x y : Block) :
  height x = Z.of_nat (length (_chain bc)) ->
  height y = Z.of_nat (length (_chain bc)) ->
  getLatestBlock (with_pushed bc [x; y]) = None.
Proof.
  intros Hx Hy. unfold getLatestBlock, getBlockByHeight.
  apply list_find_None, Forall_forall. simpl.
  rewrite (inv_height bc Hinv).
  intros b [[i Hb]%list_elem_of_lookup|Hb]%elem_of_app.
  - rewrite (inv_heights bc Hinv i b Hb). apply lookup_lt_Some in Hb. lia.
  - apply elem_of_cons in Hb as [->|Hb]; [lia|].
    apply list_elem_of_singleton in Hb as ->. lia.
Qed.

Lemma resume_before_first (block : Block) (c : call) :
  height block = Z.of_nat (length (_chain bc)) ->
  before_push (length (_chain bc)) latest block c ->
  exists c',
    (stretches (length (_chain bc)) c' < stretches (length (_chain bc)) c)%nat /\
    (resume c (with_pushed bc []) = (with_pushed bc [], c') /\
     before_push (length (_chain bc)) latest block c'
     \/
     resume c (with_pushed bc []) = (with_pushed bc [linked latest block], c') /\
     first_walker (length (_chain bc)) (_chain bc ++ [linked latest block]) c').
Proof.
  intros Hh [->| ->].
  - eexists. split; [|left; split; [apply resume_linking | by right]].
    simpl. lia.
  - eexists. split; [|right; split; [apply resume_pushing|]].
    + simpl app. rewrite (latest_after_first (linked latest block) Hh). simpl. lia.
    + simpl app. rewrite (latest_after_first (linked latest block) Hh). simpl length.
      rewrite Nat.add_0_r. by left.
Qed.

Lemma resume_before_second (w block : Block) (c : call) :
  height w = Z.of_nat (length (_chain bc)) ->
  height block = Z.of_nat (length (_chain bc)) ->
  before_push (length (_chain bc)) latest block c ->
  exists c',
    (stretches (length (_chain bc)) c' < stretches (length (_chain bc)) c)%nat /\
    (resume c (with_pushed bc [w]) = (with_pushed bc [w], c') /\
     before_push (length (_chain bc)) latest block c'
     \/
     resume c (with_pushed bc [w])
     = (with_pushed bc [w; linked latest block], c') /\
     second_walker (length (_chain bc)) c').
Proof.
  intros Hw Hh [->| ->].
  - eexists. split; [|left; split; [apply resume_linking | by right]].
    simpl. lia.
  - eexists. split; [|right; split; [apply resume_pushing|]].
    + simpl app. rewrite (latest_after_second w (linked latest block) Hw Hh). simpl. lia.
    + simpl app. rewrite (latest_after_second w (linked latest block) Hw Hh). simpl length.
      rewrite Nat.add_1_r. by left.
Qed.

(** *** The event loop with two calls *)

Lemma resume_call_0 (l l' : Blockchain) (c1 c1' c2 : call) :
  resume c1 l = (l', c1') ->
  resume_call 0 {| ledger := l; calls := [c1; c2] |}
  = {| ledger := l'; calls := [c1'; c2] |}.
Proof.
  intros Hr. unfold resume_call. simpl. by rewrite Hr.
Qed.

Lemma resume_call_1 (l l' : Blockchain) (c1 c2 c2' : call) :
  resume c2 l = (l', c2') ->
  resume_call 1 {| ledger := l; calls := [c1; c2] |}
  = {| ledger := l'; calls := [c1; c2'] |}.
Proof.
  intros Hr. unfold resume_call. simpl. by rewrite Hr.
Qed.

Lemma resume_call_none (l : Blockchain) (c1 c2 : call) (k : nat) :
  resume_call (S (S k)) {| ledger := l; calls := [c1; c2] |}
  = {| ledger := l; calls := [c1; c2] |}.
Proof. done. Qed.

Lemma stretches_0 (n : nat) (l l' : Blockchain) (c1 c1' c2 : call) :
  (stretches n c1' < stretches n c1)%nat \/
  c1' = c1 /\ stretches n c1 = 0%nat ->
  forall (j : nat) c,
    calls {| ledger := l; calls := [c1; c2] |} !! j = Some c ->
    exists c',
      calls {| ledger := l'; calls := [c1'; c2] |} !! j = Some c' /\
      (stretches n c'
       <= stretches n c - (if decide (j = 0%nat) then 1 else 0))%nat.
Proof.
  intros Hm [|[|j]] c; simpl; [| |done]; intros [= <-]; eexists;
    (split; [done|]); simpl; [|lia].
  destruct Hm as [Hm|[-> Hm]]; lia.
Qed.

Lemma stretches_1 (n : nat) (l l' : Blockchain) (c1 c2 c2' : call) :
  (stretches n c2' < stretches n c2)%nat \/
  c2' = c2 /\ stretches n c2 = 0%nat ->
  forall (j : nat) c,
    calls {| ledger := l; calls := [c1; c2] |} !! j = Some c ->
    exists c',
      calls {| ledger := l'; calls := [c1; c2'] |} !! j = Some c' /\
      (stretches n c'
       <= stretches n c - (if decide (j = 1%nat) then 1 else 0))%nat.
Proof.
  intros Hm [|[|j]] c; simpl; [| |done]; intros [= <-]; eexists;
    (split; [done|]); simpl; [lia|].
  destruct Hm as [Hm|[-> Hm]]; lia.
Qed.

Lemma stretches_none (n : nat) (l : Blockchain) (c1 c2 : call) (k : nat) :
  forall (j : nat) c,
    calls {| ledger := l; calls := [c1; c2] |} !! j = Some c ->
    exists c',
      calls {| ledger := l; calls := [c1; c2] |} !! j = Some c' /\
      (stretches n c'
       <= stretches n c - (if decide (j = S (S k)) then 1 else 0))%nat.
Proof.
  intros [|[|j]] c; simpl; [| |done]; intros [= <-]; eexists;
    (split; [done|]); simpl; lia.
Qed.

Variables x0 y0 : Block.
Hypothesis Hx0 : height x0 = Z.of_nat (length (_chain bc)).
Hypothesis Hy0 : height y0 = Z.of_nat (length (_chain bc)).

Lemma linked_blocks_pair (z0 w0 : Block) :
  height z0 = Z.of_nat (length (_chain bc)) ->
  height w0 = Z.of_nat (length (_chain bc)) ->
  linked_blocks (length (_chain bc)) latest [linked latest z0; linked latest w0].
Proof. intros Hz Hw. by repeat constructor. Qed.

(** Whichever call the event loop resumes, what holds of two overlapping
    calls holds afterwards, the call resumed has one stretch less to go,
    and the other call stands as it stood. *)
Lemma overlap_step (s : event_loop) (k : nat) :
  overlap_inv bc latest x0 y0 s ->
  overlap_inv bc latest x0 y0 (resume_call k s) /\
  forall (j : nat) c,
    calls s !! j = Some c ->
    exists c',
      calls (resume_call k s) !! j = Some c' /\
      (stretches (length (_chain bc)) c'
       <= stretches (length (_chain bc)) c
          - (if decide (j = k) then 1 else 0))%nat.
Proof.
  intros [c1 c2 H1 H2|c1 c2 H1 H2|c1 c2 H1 H2|c1 c2 H1 H2|c1 c2 H1 H2];
    destruct k as [|[|k]];
    try (rewrite resume_call_none; split;
         [by constructor | apply stretches_none]).
  - destruct (resume_before_first x0 c1 Hx0 H1)
      as (c' & Hm & [[Hr Hc']|[Hr Hc']]);
      rewrite (resume_call_0 _ _ _ _ _ Hr);
      (split; [by constructor | apply stretches_0; by left]).
  - destruct (resume_before_first y0 c2 Hy0 H2)
      as (c' & Hm & [[Hr Hc']|[Hr Hc']]);
      rewrite (resume_call_1 _ _ _ _ _ Hr);
      (split; [by constructor | apply stretches_1; by left]).
  - destruct (resume_first_walker [linked latest x0] c1
                (linked_blocks_linked x0 Hx0) H1) as (c' & Hr & Hc' & Hm).
    rewrite (resume_call_0 _ _ _ _ _ Hr).
    split; [by constructor | by apply stretches_0].
  - destruct (resume_before_second (linked latest x0) y0 c2 Hx0 Hy0 H2)
      as (c' & Hm & [[Hr Hc']|[Hr Hc']]);
      rewrite (resume_call_1 _ _ _ _ _ Hr);
      (split; [|apply stretches_1; by left]).
    + by constructor.
    + constructor; [|done].
      by apply (first_walker_app _ [linked latest y0]) in H1;
        rewrite <- app_assoc in H1.
  - destruct (resume_before_second (linked latest y0) x0 c1 Hy0 Hx0 H1)
      as (c' & Hm & [[Hr Hc']|[Hr Hc']]);
      rewrite (resume_call_0 _ _ _ _ _ Hr);
      (split; [|apply stretches_0; by left]).
    + by constructor.
    + constructor; [done|].
      by apply (first_walker_app _ [linked latest x0]) in H2;
        rewrite <- app_assoc in H2.
  - destruct (resume_first_walker [linked latest y0] c2
                (linked_blocks_linked y0 Hy0) H2) as (c' & Hr & Hc' & Hm).
    rewrite (resume_call_1 _ _ _ _ _ Hr).
    split; [by constructor | by apply stretches_1].
  - destruct (resume_first_walker [linked latest x0; linked latest y0] c1
                (linked_blocks_pair x0 y0 Hx0 Hy0) H1) as (c' & Hr & Hc' & Hm).
    rewrite (resume_call_0 _ _ _ _ _ Hr).
    split; [by constructor | by apply stretches_0].
  - destruct (resume_second_walker _ c2
                (with_pushed bc [linked latest x0; linked latest y0]) H2)
      as (c' & Hr & Hc' & Hm).
    rewrite (resume_call_1 _ _ _ _ _ Hr).
    split; [by constructor | by apply stretches_1].
  - destruct (resume_second_walker _ c1
                (with_pushed bc [linked latest y0; linked latest x0]) H1)
      as (c' & Hr & Hc' & Hm).
    rewrite (resume_call_0 _ _ _ _ _ Hr).
    split; [by constructor | by apply stretches_0].
  - destruct (resume_first_walker [linked latest y0; linked latest x0] c2
                (linked_blocks_pair y0 x0 Hy0 Hx0) H2) as (c' & Hr & Hc' & Hm).
    rewrite (resume_call_1 _ _ _ _ _ Hr).
    split; [by constructor | by apply stretches_1].
Qed.

(** The same along a schedule. *)
Lemma overlap_run (schedule : list nat) :
  forall s : event_loop,
    overlap_inv bc latest x0 y0 s ->
    overlap_inv bc latest x0 y0 (run schedule s) /\
    forall (j : nat) c,
      calls s !! j = Some c ->
      exists c',
        calls (run schedule s) !! j = Some c' /\
        (stretches (length (_chain bc)) c'
         <= stretches (length (_chain bc)) c
            - resumed j schedule)%nat.
Proof.
  induction schedule as [|k schedule IH]; intros s Hs.
  - split; [done|]. intros j c Hc. exists c. split; [done | simpl; lia].
  - destruct (overlap_step s k Hs) as [Hs' Hstep].
    destruct (IH _ Hs') as [Hend Hrest]. split; [done|].
    intros j c Hc. destruct (Hstep j c Hc) as (c1 & Hc1 & Hm1).
    destruct (Hrest j c1 Hc1) as (c' & Hc' & Hm').
    exists c'. split; [done|]. simpl.
    destruct (decide (j = k)) as [->|Hjk].
    + rewrite Nat.eqb_refl. lia.
    + rewrite (proj2 (Nat.eqb_neq k j)) by done. lia.
Qed.

End two_calls.

Section overlap_settled.
Context `{Externals}.

Lemma before_push_stretches (n : nat) (latest block : Block) (c : call) :
  before_push n latest block c -> (0 < stretches n c)%nat.
Proof. intros [->| ->]; simpl; lia. Qed.

Lemma first_walker_settled (n : nat) (chain : list Block) (c : call) :
  first_walker n chain c -> stretches n c = 0%nat -> c = settled (Ok n).
Proof.
  intros [->|[(i & b & _ & _ & ->)|[(i & b & _ & _ & ->)|[[next ->]| ->]]]];
    simpl; try lia; [|done].
  destruct next; simpl; lia.
Qed.

Lemma second_walker_settled (n : nat) (c : call) :
  second_walker n c -> stretches n c = 0%nat ->
  c = settled (Throw (InvalidChainError ["Latest block not found!"])).
Proof. intros [->| ->]; simpl; [lia | done]. Qed.

Lemma submitStar_call_accepted (now now' : Z)
  (address message signature : string) (star : JSON.json) (bc : Blockchain) :
  ledger_inv bc ->
  ValidTime now (Message.time (Message.parse message)) = true ->
  verify message address signature = true ->
  let block := set_time now' (set_height (_height bc + 1)
                                (new_Block (star_data address star))) in
  submitStar_call now now' address message signature star bc
  = await_getLatestBlock block (Some (Nat.pred (length (_chain bc)))) /\
  height block = Z.of_nat (length (_chain bc)).
Proof.
  intros Hinv Ht Hv block. unfold submitStar_call. rewrite Ht, Hv. simpl.
  destruct (getLatestBlock_inv bc Hinv) as [l ->]. split; [done|].
  rewrite (inv_height bc Hinv). lia.
Qed.

End overlap_settled.

Section overlap_claim.
Context `{Externals}.

(** C4. Linkage does not survive two calls of [submitStar] that overlap.
    Take a reachable ledger of [n] blocks and two submissions that pass
    both checks, the second made before the first was awaited. In
    whatever order the event loop resumes the two calls, once each has
    had its stretches the chain has two more blocks, both with height [n]
    and both pointing at the block that was the latest when the calls
    were made: the block at position [n + 1] carries neither its
    position as height nor the hash of the block before it as previous
    hash. The call that pushed first has settled with its block, the
    other with the error that no latest block is found. *)
Theorem overlapping_appends_break_linkage
  (now1 now1' now2 now2' : Z)
  (address1 message1 signature1 address2 message2 signature2 : string)
  (star1 star2 : JSON.json) (bc : Blockchain) (schedule : list nat) :
  reachable bc ->
  ValidTime now1 (Message.time (Message.parse message1)) = true ->
  verify message1 address1 signature1 = true ->
  ValidTime now2 (Message.time (Message.parse message2)) = true ->
  verify message2 address2 signature2 = true ->
  (3 * length (_chain bc) + 6 <= resumed 0 schedule)%nat ->
  (3 * length (_chain bc) + 6 <= resumed 1 schedule)%nat ->
  let n := length (_chain bc) in
  let s :=
    run schedule
      (overlapping bc
         (submitStar_call now1 now1' address1 message1 signature1 star1 bc)
         (submitStar_call now2 now2' address2 message2 signature2 star2 bc)) in
  let lost := settled (Throw (InvalidChainError ["Latest block not found!"])) in
  exists x y latest : Block,
    last (_chain bc) = Some latest /\
    ledger s = {| _chain := _chain bc ++ [x; y]; _height := _height bc + 2 |} /\
    height x = Z.of_nat n /\ height y = Z.of_nat n /\
    previousBlockHash x = hash latest /\ previousBlockHash y = hash latest /\
    (calls s = [settled (Ok n); lost] /\
     body x = encode (star_data address1 star1) /\
     body y = encode (star_data address2 star2)
     \/
     calls s = [lost; settled (Ok n)] /\
     body x = encode (star_data address2 star2) /\
     body y = encode (star_data address1 star1)) /\
    settled_with (ledger s) (settled (Ok n)) = Some (Ok x) /\
    ~ ledger_inv (ledger s).
Proof.
  intros Hreach Ht1 Hv1 Ht2 Hv2 Hcount0 Hcount1 n s lost.
  pose proof (reachable_inv bc Hreach) as Hinv.
  destruct (getLatestBlock_inv bc Hinv) as [latest Hl].
  apply list_find_Some in Hl as (Hlatest & _).
  destruct (submitStar_call_accepted now1 now1' address1 message1 signature1
              star1 bc Hinv Ht1 Hv1) as [Hc1 Hx0].
  destruct (submitStar_call_accepted now2 now2' address2 message2 signature2
              star2 bc Hinv Ht2 Hv2) as [Hc2 Hy0].
  set (x0 := set_time now1' (set_height (_height bc + 1)
                               (new_Block (star_data address1 star1)))) in *.
  set (y0 := set_time now2' (set_height (_height bc + 1)
                               (new_Block (star_data address2 star2)))) in *.
  assert (overlap_inv bc latest x0 y0
            (overlapping bc
               (submitStar_call now1 now1' address1 message1 signature1 star1 bc)
               (submitStar_call now2 now2' address2 message2 signature2 star2 bc)))
    as Hstart.
  { rewrite Hc1, Hc2. unfold overlapping.
    pose proof (overlap_none bc latest x0 y0 _ _
                  (or_introl eq_refl) (or_introl eq_refl)) as Hnone.
    by rewrite with_pushed_nil in Hnone. }
  destruct (overlap_run bc latest Hinv Hlatest x0 y0 Hx0 Hy0 schedule _ Hstart)
    as [Hend Hm]. fold s in Hend, Hm.
  destruct (Hm 0%nat _ eq_refl) as (c1 & Hs1 & Hm1).
  destruct (Hm 1%nat _ eq_refl) as (c2 & Hs2 & Hm2).
  rewrite Hc1 in Hm1. rewrite Hc2 in Hm2. simpl in Hm1, Hm2. fold n in Hm1, Hm2.
  assert (stretches n c1 = 0%nat) as Hz1 by (unfold n in *; lia).
  assert (stretches n c2 = 0%nat) as Hz2 by (unfold n in *; lia).
  clear Hm Hm1 Hm2 Hstart.
  assert (last (_chain bc) = Some latest) as Hlast by (by rewrite last_lookup).
  destruct Hend as [d1 d2 H1 H2|d1 d2 H1 H2|d1 d2 H1 H2|d1 d2 H1 H2|d1 d2 H1 H2];
    simpl in Hs1, Hs2; injection Hs1 as ->; injection Hs2 as ->.
  - apply before_push_stretches in H1. fold n in H1. lia.
  - apply before_push_stretches in H2. fold n in H2. lia.
  - apply before_push_stretches in H1. fold n in H1. lia.
  - apply first_walker_settled in H1; [|done].
    apply second_walker_settled in H2; [|done]. subst c1 c2.
    exists (linked latest x0), (linked latest y0), latest.
    repeat (split; [done|]). split; [by left|]. split.
    + simpl. by rewrite lookup_app_r, Nat.sub_diag by lia.
    + intros [_ _ Hheights _ _].
      specialize (Hheights (S n) (linked latest y0)).
      cbn [_chain ledger with_pushed] in Hheights.
      rewrite lookup_app_r in Hheights by (unfold n; lia).
      replace (S n - length (_chain bc))%nat with 1%nat in Hheights
        by (unfold n; lia).
      specialize (Hheights eq_refl).
      change (height (linked latest y0)) with (height y0) in Hheights.
      rewrite Hy0 in Hheights. lia.
  - apply second_walker_settled in H1; [|done].
    apply first_walker_settled in H2; [|done]. subst c1 c2.
    exists (linked latest y0), (linked latest x0), latest.
    repeat (split; [done|]). split; [by right|]. split.
    + simpl. by rewrite lookup_app_r, Nat.sub_diag by lia.
    + intros [_ _ Hheights _ _].
      specialize (Hheights (S n) (linked latest x0)).
      cbn [_chain ledger with_pushed] in Hheights.
      rewrite lookup_app_r in Hheights by (unfold n; lia).
      replace (S n - length (_chain bc))%nat with 1%nat in Hheights
        by (unfold n; lia).
      specialize (Hheights eq_refl).
      change (height (linked latest x0)) with (height x0) in Hheights.
      rewrite Hx0 in Hheights. lia.
Qed.

End overlap_claim.

(** * The further properties on the demo ledger *)

Lemma getTimeInSeconds_whole_seconds_witness :
  getTimeInSeconds 1700000123456 = JS.Num 1700000123.
Proof. apply (getTimeInSeconds_whole_seconds 1700000123456). lia. Defined.

Lemma parse_toString_witness :
  Message.parse
    (Message.toString {| Message.address := "alice"; Message.time := JS.NaN |})
  = {| Message.address := "alice"; Message.time := JS.NaN |}.
Proof.
  apply (parse_toString {| Message.address := "alice"; Message.time := JS.NaN |}).
  reflexivity.
Defined.

Lemma issued_challenge_submission_witness :
  exists b,
    @submitStar demo_externals 4 3000 3001 "alice"
      (requestMessageOwnershipVerification 600 "alice")
      ("signed:" +:+ demo_message) (demo_star "third") demo_ledger
    = Some ({| _chain := _chain demo_ledger ++ [b];
               _height := _height demo_ledger + 1 |}, Ok b) /\
    getBData b = Ok (star_data "alice" (demo_star "third")) /\
    height b = _height demo_ledger + 1 /\ time b = 3001.
Proof.
  apply (@issued_challenge_submission demo_externals 4 600 3000 3001 "alice"
           ("signed:" +:+ demo_message) (demo_star "third") demo_ledger).
  - exact demo_ledger_reachable.
  - reflexivity.
  - reflexivity.
  - reflexivity.
  - reflexivity.
  - reflexivity.
  - lia.
  - vm_compute. lia.
Defined.

Lemma submitStar_rejects_message_without_time_witness :
  @submitStar demo_externals 3 3000 3001 "alice" "alice 600 starRegistry"
    "signed:alice 600 starRegistry" (demo_star "third") demo_ledger
  = Some (demo_ledger, Throw (Error "Message is too old!")).
Proof.
  apply (@submitStar_rejects_message_without_time demo_externals 3 3000 3001
           "alice" "alice 600 starRegistry" "signed:alice 600 starRegistry"
           (demo_star "third") demo_ledger).
  reflexivity.
Defined.

Lemma getBlockByHeight_position_witness :
  (forall (i : nat) b,
     _chain demo_ledger !! i = Some b ->
     getBlockByHeight (Z.of_nat i) demo_ledger = Some (i, b)) /\
  (forall h, h < 0 \/ _height demo_ledger < h ->
     getBlockByHeight h demo_ledger = None) /\
  snd <$> getLatestBlock demo_ledger = last (_chain demo_ledger).
Proof.
  exact (@getBlockByHeight_position demo_externals demo_ledger
           demo_ledger_reachable).
Defined.

Lemma submitted_block_found_witness :
  exists b bc',
    @submitStar demo_externals 4 3000 3001 "alice" demo_message
      ("signed:" +:+ demo_message) (demo_star "third") demo_ledger
    = Some (bc', Ok b) /\
    getBlockByHeight (height b) bc' = Some (length (_chain demo_ledger), b) /\
    getBlockByHash (hash b) bc' = Some (length (_chain demo_ledger), b).
Proof.
  destruct (@submitted_block_found demo_externals 4 3000 3001 "alice"
              demo_message ("signed:" +:+ demo_message) (demo_star "third")
              demo_ledger) as (b & bc' & Hsub & Hheight & _ & Hhash).
  - exact demo_ledger_reachable.
  - reflexivity.
  - reflexivity.
  - vm_compute. lia.
  - exists b, bc'. split; [exact Hsub|]. split; [exact Hheight|].
    apply Hhash. vm_compute in Hsub. injection Hsub as _ <-.
    intros x Hx. apply list_elem_of_lookup in Hx as [i Hx].
    destruct i as [|[|[|i]]]; vm_compute in Hx; [| | |discriminate];
      injection Hx as <-; vm_compute; discriminate.
Defined.

Lemma validateChain_untampered_witness :
  @validateChain demo_externals 3 demo_ledger = Some (demo_ledger, Ok tt).
Proof.
  apply (@validateChain_untampered demo_externals 3 demo_ledger).
  - exact demo_ledger_reachable.
  - vm_compute. lia.
Defined.

Lemma validateChain_no_latest_witness :
  @validateChain demo_externals 3
    {| _chain := _chain demo_ledger; _height := 7 |}
  = Some ({| _chain := _chain demo_ledger; _height := 7 |},
          Throw (InvalidChainError ["Latest block not found!"])).
Proof.
  apply (@validateChain_no_latest demo_externals 3
           {| _chain := _chain demo_ledger; _height := 7 |}).
  intros b Hb. apply list_elem_of_lookup in Hb as [i Hb].
  destruct i as [|[|[|i]]]; vm_compute in Hb; [| | |discriminate];
    injection Hb as <-; vm_compute; discriminate.
Defined.

Lemma initializeChain_once_witness :
  @initializeChain demo_externals 0 9000 demo_ledger = Some (demo_ledger, Ok tt).
Proof.
  apply (@initializeChain_once demo_externals 0 9000 demo_ledger).
  exact demo_ledger_reachable.
Defined.

Lemma getStarsByWalletAddress_after_submit_witness :
  exists b,
    @submitStar demo_externals 4 3000 3001 "bob" demo_message
      ("signed:" +:+ demo_message) (demo_star "third") demo_ledger
    = Some ({| _chain := _chain demo_ledger ++ [b];
               _height := _height demo_ledger + 1 |}, Ok b) /\
    getStarsByWalletAddress "alice"
      {| _chain := _chain demo_ledger ++ [b];
         _height := _height demo_ledger + 1 |}
    = Ok [star_data "alice" (demo_star "first");
          star_data "alice" (demo_star "second")].
Proof.
  apply (@getStarsByWalletAddress_after_submit demo_externals 4 3000 3001
           "bob" demo_message ("signed:" +:+ demo_message) "alice"
           (demo_star "third") demo_ledger
           [star_data "alice" (demo_star "first");
            star_data "alice" (demo_star "second")]).
  - exact demo_ledger_reachable.
  - reflexivity.
  - reflexivity.
  - vm_compute. lia.
  - reflexivity.
  - reflexivity.
  - reflexivity.
  - reflexivity.
Defined.

Lemma getStarsByWalletAddress_skips_height_0_witness :
  getStarsByWalletAddress "alice"
    {| _chain := [demo_block1] ++ set_body "zz" (new_Block JSON.JNull) :: [];
       _height := 1 |}
  = getStarsByWalletAddress "alice"
      {| _chain := [demo_block1] ++ []; _height := 0 |}.
Proof.
  apply (getStarsByWalletAddress_skips_height_0 "alice" [demo_block1] []
           (set_body "zz" (new_Block JSON.JNull)) 1 0).
  reflexivity.
Defined.

Lemma getStarsByWalletAddress_corrupt_body_witness :
  getStarsByWalletAddress "bob" (mutate_body 1 "zz" demo_ledger)
  = Throw SyntaxError.
Proof.
  apply (getStarsByWalletAddress_corrupt_body "bob"
           (mutate_body 1 "zz" demo_ledger) (set_body "zz" demo_block1)
           SyntaxError).
  - apply (list_elem_of_lookup_2 _ 1%nat). reflexivity.
  - reflexivity.
Defined.

Lemma validateChain_only_rehashes_witness :
  _height demo_after_report = _height demo_tampered /\
  length (_chain demo_after_report) = length (_chain demo_tampered) /\
  forall (i : nat) b b',
    _chain demo_tampered !! i = Some b ->
    _chain demo_after_report !! i = Some b' ->
    height b' = height b /\ body b' = body b /\ time b' = time b /\
    previousBlockHash b' = previousBlockHash b /\
    (hash b' = hash b \/ hash b' = hash (@generateHash demo_externals b)).
Proof.
  apply (@validateChain_only_rehashes demo_externals 3 demo_tampered
           demo_after_report
           (Throw (InvalidChainError
                     [invalid_message
                        (@generateHash demo_externals
                           (set_body "00" demo_block1))]))).
  reflexivity.
Defined.

Lemma tamper_reported_once_witness :
  let bc1 :=
    {| _chain := <[1%nat := @generateHash demo_externals
                              (set_body "00" demo_block1)]> (_chain demo_ledger);
       _height := _height demo_ledger |} in
  @validateChain demo_externals 3 (mutate_body 1 "00" demo_ledger)
  = Some (bc1, result_of (@fault_of demo_externals (set_body "00" demo_block1))) /\
  @validateChain demo_externals 3 bc1 = Some (bc1, Ok tt).
Proof.
  destruct (@collision_free_hashes demo_externals demo_ledger
              tag_digest_inj tag_digest_nonempty demo_ledger_reachable)
    as [Hdistinct Hnonempty].
  apply (@tamper_reported_once demo_externals 3 demo_ledger 1 demo_block1 "00").
  - exact demo_ledger_reachable.
  - exact Hdistinct.
  - exact Hnonempty.
  - lia.
  - reflexivity.
  - vm_compute. lia.
Defined.

Lemma submitStar_into_tampered_witness :
  let digest :=
    tag_digest (JSON.stringify (rest_of_block (set_body "00" demo_block1))) in
  let b' := set_hash (Some digest) (set_body "00" demo_block1) in
  exists pushed,
    @submitStar demo_externals 4 3000 3001 "alice" demo_message
      ("signed:" +:+ demo_message) (demo_star "third") demo_ledger
    = Some ({| _chain := _chain demo_ledger ++ [pushed];
               _height := _height demo_ledger + 1 |}, Ok pushed) /\
    @submitStar demo_externals 4 3000 3001 "alice" demo_message
      ("signed:" +:+ demo_message) (demo_star "third")
      (mutate_body 1 "00" demo_ledger)
    = Some ({| _chain := <[1%nat := b']> (_chain demo_ledger ++ [pushed]);
               _height := _height demo_ledger + 1 |},
            Throw (InvalidChainError ["Block " +:+ digest +:+ " is invalid!"])).
Proof.
  intros digest b'.
  destruct (@submitStar_into_tampered demo_externals 4 3000 3001 "alice"
              demo_message ("signed:" +:+ demo_message) (demo_star "third")
              demo_ledger 1 demo_block1 "00") as (pushed & Hsub & Htampered).
  - exact demo_ledger_reachable.
  - lia.
  - reflexivity.
  - reflexivity.
  - reflexivity.
  - vm_compute. lia.
  - exists pushed. split; [exact Hsub|].
    destruct (@collision_free_hashes demo_externals
                {| _chain := _chain demo_ledger ++ [pushed];
                   _height := _height demo_ledger + 1 |}
                tag_digest_inj tag_digest_nonempty
                (@reachable_submit demo_externals _ _ _ _ _ _ _ _ _ _
                   demo_ledger_reachable Hsub)) as [Hdistinct Hnonempty].
    apply Htampered; [exact Hdistinct | exact Hnonempty |].
    vm_compute. discriminate.
Defined.

Lemma getBData_of_new_Block_witness :
  getBData (set_height 1 (new_Block demo_accented))
  = Ok (byte_chars_json demo_accented) /\
  (JSON.ascii_only demo_accented = true ->
   byte_chars_json demo_accented = demo_accented).
Proof.
  apply (getBData_of_new_Block demo_accented 1); [reflexivity | lia].
Defined.

Lemma body_round_trip_garbled_witness :
  getBData (set_height 1 (new_Block demo_accented))
  = Ok (byte_chars_json demo_accented) /\
  byte_chars_json demo_accented <> demo_accented /\
  getBData (set_height 1 (new_Block demo_accented)) <> Ok demo_accented.
Proof.
  apply (body_round_trip_garbled demo_accented 1); [reflexivity | reflexivity | lia].
Defined.

Lemma submitStar_call_alone_witness :
  exists n c,
    @alone demo_externals n
      (@submitStar_call demo_externals 3000 3001 "alice" demo_message
         ("signed:" +:+ demo_message) (demo_star "third") demo_ledger)
      demo_ledger
    = (state_of
         (@submitStar demo_externals 4 3000 3001 "alice" demo_message
            ("signed:" +:+ demo_message) (demo_star "third") demo_ledger), c) /\
    settled_with
      (state_of
         (@submitStar demo_externals 4 3000 3001 "alice" demo_message
            ("signed:" +:+ demo_message) (demo_star "third") demo_ledger)) c
    = Some (Ok (default demo_block1
                  (last (_chain
                     (state_of
                        (@submitStar demo_externals 4 3000 3001 "alice"
                           demo_message ("signed:" +:+ demo_message)
                           (demo_star "third") demo_ledger)))))).
Proof.
  apply (@submitStar_call_alone demo_externals 4 3000 3001 "alice" demo_message
           ("signed:" +:+ demo_message) (demo_star "third") demo_ledger).
  vm_compute. reflexivity.
Defined.

Lemma overlapping_appends_break_linkage_witness :
  let n := length (_chain demo_ledger) in
  let s := @run demo_externals (round_robin 15) demo_overlap in
  let lost := settled (Throw (InvalidChainError ["Latest block not found!"])) in
  (exists x y latest : Block,
     last (_chain demo_ledger) = Some latest /\
     ledger s = {| _chain := _chain demo_ledger ++ [x; y];
                   _height := _height demo_ledger + 2 |} /\
     height x = Z.of_nat n /\ height y = Z.of_nat n /\
     previousBlockHash x = hash latest /\ previousBlockHash y = hash latest /\
     (calls s = [settled (Ok n); lost] /\
      body x = encode (star_data "alice" (demo_star "third")) /\
      body y = encode (star_data "bob" (demo_star "fourth"))
      \/
      calls s = [lost; settled (Ok n)] /\
      body x = encode (star_data "bob" (demo_star "fourth")) /\
      body y = encode (star_data "alice" (demo_star "third"))) /\
     settled_with (ledger s) (settled (Ok n)) = Some (Ok x) /\
     ~ @ledger_inv demo_externals (ledger s)) /\
  calls s = [settled (Ok 3%nat); lost] /\
  map height (_chain (ledger s)) = [0; 1; 2; 3; 3] /\
  _height (ledger s) = 4.
Proof.
  split; [|by vm_compute].
  apply (@overlapping_appends_break_linkage demo_externals 3000 3001 3000 3001
           "alice" demo_message ("signed:" +:+ demo_message)
           "bob" demo_message ("signed:" +:+ demo_message)
           (demo_star "third") (demo_star "fourth") demo_ledger
           (round_robin 15)).
  - exact demo_ledger_reachable.
  - reflexivity.
  - reflexivity.
  - reflexivity.
  - reflexivity.
  - vm_compute. lia.
  - vm_compute. lia.
Defined.
